(** * Plyvel: the iterator and view layer of [_plyvel.pyx]

    A shallow embedding of [src/plyvel/_plyvel.pyx]: the bound utility
    [bytes_increment], the comparator interface, the LevelDB cursor the
    iterator drives, the [Iterator] state machine ([real_next],
    [real_prev], [seek]), the construction-time bound derivation,
    [DB.close] and the scoped use of [WriteBatch]; then the reads and
    writes of [DB], the prefixed view, the snapshot, and the constructor
    with [parse_options].

    Conventions.
    - Byte strings are [list byte]; [None] is Python's [None].
    - A Python method that mutates [self] is a function from the object to an
      outcome and the updated object; a [raise] keeps the mutations made
      before it, as in Python.
    - The LevelDB engine is an ordered store with the status of its write
      path: while that status is OK a write is applied and reports OK, and
      otherwise the write changes nothing and reports the status, which
      [raise_for_status] turns into the exception of the source.  A read is
      served from the entries and reports found or not found.  A cursor
      carries its own status, which the iterator methods check where the
      source calls [raise_for_status(self._iter.status())]; a cursor made by
      [NewIterator] starts with the OK status.
    - Lengths and counters are mathematical integers: a key is far shorter
      than [2^31] bytes, so the C [int] counters of the source never wrap.
      A byte string built with a negative length raises [SystemError], as
      [PyBytes_FromStringAndSize] does.
    - The definitions come first, the theorems after them; each claim of
      the specification has its theorem marked with its number, and the
      further properties of the code are marked X1, X2, and so on. *)

From Stdlib Require Import ZArith List Bool Lia.
From Stdlib Require Import Strings.Byte.
From stdpp Require Import base option list gmap.

Local Open Scope Z_scope.

(** ** Byte strings *)

Abbreviation bytes := (list byte).

#[global] Instance byte_eq_decision : EqDecision byte := byte_eq_dec.

(** [b[i] += 1] on a [bytearray] cell.  The source only runs it on a cell
    different from [0xff], where the sum fits a byte; on [0xff] Python raises
    [ValueError], a case the guard in [bytes_increment] excludes, and the
    model leaves the cell unchanged there. *)
Definition byte_iadd1 (x : byte) : byte :=
  match Byte.of_N (Byte.to_N x + 1) with
  | Some y => y
  | None => x
  end.

(** ** Utilities: [bytes_increment] *)

(** The [while i >= 0] loop of [bytes_increment].  The counter [i] runs from
    [len(s) - 1] down to [-1]; the recursion is on [n = i + 1]. *)
Fixpoint bytes_increment_loop (b : bytes) (n : nat) : option bytes :=
  match n with
  | O => None                       (* input contained only 0xff bytes *)
  | S i =>
      match b !! i with
      | Some x =>
          if decide (x = xff) then bytes_increment_loop b i
          else Some (take (S i) (<[i := byte_iadd1 x]> b))
      | None => None                (* i < len(b): not reached *)
      end
  end.

Definition bytes_increment (s : bytes) : option bytes :=
  bytes_increment_loop s (length s).

(** ** Errors and error handling *)

(** The Python exceptions the modelled methods raise.  [SystemError] is
    what building a [bytes] object of negative length raises.
    [EngineAbort] is not a Python exception: it marks a call of [key()] or
    [value()] on a cursor that is not [Valid()], which the engine forbids. *)
Inductive exn :=
  | StopIteration
  | RuntimeError      (* "Cannot operate on closed LevelDB database" *)
  | TypeError
  | AssertionError
  | SystemError       (* "Negative size passed to PyBytes_FromStringAndSize" *)
  | Error_IOError
  | CorruptionError
  | Error             (* generic fallback *)
  | EngineAbort.

Inductive result (A : Type) :=
  | Return (a : A)
  | Raise (e : exn).
Arguments Return {A} a.
Arguments Raise {A} e.

(** Engine status codes and [raise_for_status]. *)
Inductive Status := StatusOK | StatusNotFound | StatusIOError | StatusCorruption | StatusOther.

Definition raise_for_status (st : Status) : result unit :=
  match st with
  | StatusOK => Return tt
  | StatusIOError => Raise Error_IOError
  | StatusCorruption => Raise CorruptionError
  | StatusNotFound | StatusOther => Raise Error
  end.

(** A method of an object of type [S]: it returns or raises, and leaves the
    object in a new state either way. *)
Definition M (S A : Type) : Type := S → result A * S.

Definition ret {S A} (a : A) : M S A := λ s, (Return a, s).

Definition bind {S A B} (m : M S A) (f : A → M S B) : M S B :=
  λ s, match m s with
       | (Return a, s') => f a s'
       | (Raise e, s') => (Raise e, s')
       end.

Declare Scope method_scope.
Delimit Scope method_scope with method.
Notation "x ← y ; z" := (bind y (λ x, z))
  (at level 20, y at level 100, z at level 200, only parsing) : method_scope.
Notation "x ;; z" := (bind x (λ _, z))
  (at level 100, z at level 200, only parsing, right associativity) : method_scope.

Definition raise {S A} (e : exn) : M S A := λ s, (Raise e, s).
Definition get {S} : M S S := λ s, (Return s, s).
Definition modify {S} (f : S → S) : M S unit := λ s, (Return tt, f s).
Definition pass {S} : M S unit := ret tt.
Definition lift_result {S A} (r : result A) : M S A := λ s, (r, s).

(** ** Comparator *)

(** [leveldb::Comparator]: a three-way comparison on keys, negative, zero or
    positive, that is a total order.  Either the built-in bytewise one or a
    Python callable wrapped by [NewPlyvelCallbackComparator]. *)
Record Comparator := {
  Compare : bytes → bytes → Z;
  Compare_antisym : ∀ a b, Z.sgn (Compare b a) = - Z.sgn (Compare a b);
  Compare_trans : ∀ a b c, Compare a b <= 0 → Compare b c <= 0 → Compare a c <= 0;
}.

(** [Slice::compare]: [memcmp] on the common length, then the shorter
    string first. *)
Fixpoint bytewise_compare (a b : bytes) : Z :=
  match a, b with
  | [], [] => 0
  | [], _ :: _ => -1
  | _ :: _, [] => 1
  | x :: a', y :: b' =>
      match (Byte.to_N x ?= Byte.to_N y)%N with
      | Lt => -1
      | Gt => 1
      | Eq => bytewise_compare a' b'
      end
  end.

Program Definition BytewiseComparator : Comparator :=
  {| Compare := bytewise_compare |}.
Next Obligation.
  induction a as [|x a IH]; intros [|y b]; simpl; try done.
  rewrite (N.compare_antisym (Byte.to_N x) (Byte.to_N y)).
  destruct (Byte.to_N x ?= Byte.to_N y)%N; simpl; auto.
Qed.
Next Obligation.
  induction a as [|x a IH]; intros [|y b] [|z c]; simpl; try done; try lia.
  destruct (Byte.to_N x ?= Byte.to_N y)%N eqn:Exy;
    destruct (Byte.to_N y ?= Byte.to_N z)%N eqn:Eyz; try lia.
  - apply N.compare_eq in Exy. apply N.compare_eq in Eyz.
    rewrite Exy, Eyz, N.compare_refl.
    apply IH.
  - apply N.compare_eq in Exy. rewrite Exy, Eyz. lia.
  - apply N.compare_eq in Eyz. rewrite <- Eyz, Exy. lia.
  - assert ((Byte.to_N x ?= Byte.to_N z)%N = Lt) as ->; [|lia].
    apply N.compare_lt_iff. apply N.compare_lt_iff in Exy.
    apply N.compare_lt_iff in Eyz. by etrans.
Qed.

(** ** The engine: an ordered store and its cursor *)

(** A stored entry: key and value. *)
Abbreviation entry := (bytes * bytes)%type.

(** The store keeps its entries in strictly ascending key order under the
    comparator it was opened with. *)
Fixpoint strictly_ascending (cmp : Comparator) (l : list entry) : bool :=
  match l with
  | [] => true
  | e :: l' =>
      match l' with
      | [] => true
      | e' :: _ => (Compare cmp e.1 e'.1 <? 0) && strictly_ascending cmp l'
      end
  end.

(** [leveldb::DB::Put] and [Delete] on the ordered entries. *)
Fixpoint store_put (cmp : Comparator) (k v : bytes) (l : list entry) : list entry :=
  match l with
  | [] => [(k, v)]
  | e :: l' =>
      if Compare cmp k e.1 <? 0 then (k, v) :: l
      else if Compare cmp k e.1 =? 0 then (k, v) :: l'
      else e :: store_put cmp k v l'
  end.

Fixpoint store_delete (cmp : Comparator) (k : bytes) (l : list entry) : list entry :=
  match l with
  | [] => []
  | e :: l' =>
      if Compare cmp k e.1 <? 0 then l
      else if Compare cmp k e.1 =? 0 then l'
      else e :: store_delete cmp k l'
  end.

(** [leveldb::WriteBatch]: the staged operations, oldest first. *)
Inductive batch_op :=
  | BatchPut (k v : bytes)
  | BatchDelete (k : bytes).

Definition apply_op (cmp : Comparator) (l : list entry) (op : batch_op) : list entry :=
  match op with
  | BatchPut k v => store_put cmp k v l
  | BatchDelete k => store_delete cmp k l
  end.

(** [leveldb::DB::Write]: the whole batch, in order. *)
Definition leveldb_Write (cmp : Comparator) (ops : list batch_op) (l : list entry)
  : list entry :=
  foldl (apply_op cmp) l ops.

(** [leveldb::Iterator]: a cursor over the entries that were in the store
    (or in the snapshot) when it was made.  [pos = None] is a cursor that is
    not [Valid()].  [status] is what [status()] reports: [StatusOK] unless
    the engine met an error reading for this cursor; moving the cursor
    leaves it as it is. *)
Record leveldb_Iterator := {
  entries : list entry;
  pos : option nat;
  status : Status;
}.

Definition at_pos (c : leveldb_Iterator) (p : option nat) : leveldb_Iterator :=
  {| entries := entries c; pos := p; status := status c |}.

Definition cur_entry (c : leveldb_Iterator) : option entry :=
  pos c ≫= λ i, entries c !! i.

Definition Valid (c : leveldb_Iterator) : bool :=
  match cur_entry c with
  | Some _ => true
  | None => false
  end.

Definition SeekToFirst (c : leveldb_Iterator) : leveldb_Iterator :=
  at_pos c (match entries c with [] => None | _ :: _ => Some 0%nat end).

Definition SeekToLast (c : leveldb_Iterator) : leveldb_Iterator :=
  at_pos c (match length (entries c) with O => None | S n => Some n end).

(** Index of the first entry whose key is at or past [target]. *)
Fixpoint first_at_or_past (cmp : Comparator) (target : bytes) (l : list entry)
  : option nat :=
  match l with
  | [] => None
  | e :: l' =>
      if 0 <=? Compare cmp e.1 target then Some 0%nat
      else S <$> first_at_or_past cmp target l'
  end.

(** [Seek(target)]; the cursor orders keys by the comparator of the handle
    that made it, which is also the comparator the [Iterator] object holds. *)
Definition Seek (cmp : Comparator) (target : bytes) (c : leveldb_Iterator)
  : leveldb_Iterator :=
  at_pos c (first_at_or_past cmp target (entries c)).

(** [Next()] and [Prev()] require a valid cursor; an invalid one is left as
    it is. *)
Definition Next (c : leveldb_Iterator) : leveldb_Iterator :=
  at_pos c (match pos c with
            | Some i =>
                match entries c !! S i with
                | Some _ => Some (S i)
                | None => None
                end
            | None => None
            end).

Definition Prev (c : leveldb_Iterator) : leveldb_Iterator :=
  at_pos c (match pos c with
            | Some (S i) => Some i
            | _ => None
            end).

Arguments cur_entry !c /.
Arguments Valid !c /.
Arguments at_pos c p /.
Arguments SeekToFirst !c /.
Arguments SeekToLast !c /.
Arguments Seek cmp target !c /.
Arguments Next !c /.
Arguments Prev !c /.

(** ** Iterator *)

Local Open Scope method_scope.

Inductive IteratorState :=
  | BEFORE_START
  | AFTER_STOP
  | IN_BETWEEN
  | IN_BETWEEN_ALREADY_POSITIONED.

Inductive IteratorDirection :=
  | FORWARD
  | REVERSE.

(** The [Iterator] object.  [_iter = None] is the [NULL] cursor of a closed
    iterator.  [start_slice] and [stop_slice] are views of [start] and
    [stop] and are read only when those are set, so the model reads the byte
    strings themselves.  The back reference [db] is never read by the
    methods below and is left out. *)
Record Iterator := {
  _iter : option leveldb_Iterator;
  direction : IteratorDirection;
  state : IteratorState;
  comparator : Comparator;
  start : option bytes;
  stop : option bytes;
  include_start : bool;
  include_stop : bool;
  include_key : bool;
  include_value : bool;
  skip_key_bytes : nat;
}.

Definition set_iter (c : option leveldb_Iterator) (it : Iterator) : Iterator :=
  {| _iter := c; direction := direction it; state := state it;
     comparator := comparator it; start := start it; stop := stop it;
     include_start := include_start it; include_stop := include_stop it;
     include_key := include_key it; include_value := include_value it;
     skip_key_bytes := skip_key_bytes it |}.

Definition set_state (st : IteratorState) (it : Iterator) : Iterator :=
  {| _iter := _iter it; direction := direction it; state := st;
     comparator := comparator it; start := start it; stop := stop it;
     include_start := include_start it; include_stop := include_stop it;
     include_key := include_key it; include_value := include_value it;
     skip_key_bytes := skip_key_bytes it |}.

(** Calls on [self._iter]. *)
Definition iter_do (f : leveldb_Iterator → leveldb_Iterator) : M Iterator unit :=
  modify (λ it, set_iter (f <$> _iter it) it).

Definition iter_Valid : M Iterator bool :=
  λ it, (Return (from_option Valid false (_iter it)), it).

Definition iter_entry : M Iterator entry :=
  λ it, match _iter it ≫= cur_entry with
        | Some e => (Return e, it)
        | None => (Raise EngineAbort, it)
        end.

Definition iter_key : M Iterator bytes := e ← iter_entry; ret e.1.
Definition iter_value : M Iterator bytes := e ← iter_entry; ret e.2.

(** [raise_for_status(self._iter.status())]. *)
Definition iter_status : M Iterator Status :=
  λ it, (Return (from_option status StatusOK (_iter it)), it).

Definition check_status : M Iterator unit :=
  st ← iter_status; lift_result (raise_for_status st).

(** What [current()] hands back: a pair, a key, a value, or [None]. *)
Inductive output :=
  | OutPair (key value : bytes)
  | OutKey (key : bytes)
  | OutValue (value : bytes)
  | OutNone.

(** The slice [data()[skip:size()]] of a C buffer: a [bytes] object of
    [size() - skip] bytes, which Python refuses to build when that length is
    negative. *)
Definition slice_from {S} (skip : nat) (data : bytes) : M S bytes :=
  if (length data <? skip)%nat then raise SystemError
  else ret (drop skip data).

(** [Iterator.current]: only the parts that will be returned are read, the
    key first.  The key loses its first [skip_key_bytes] bytes.  A local
    that is not assigned is not read either; it is [[]] here. *)
Definition current : M Iterator output :=
  it ← get;
  key ← (if include_key it
         then (key_slice ← iter_key; slice_from (skip_key_bytes it) key_slice)
         else ret []);
  value ← (if include_value it then iter_value else ret []);
  match include_key it, include_value it with
  | true, true => ret (OutPair key value)
  | true, false => ret (OutKey key)
  | false, true => ret (OutValue value)
  | false, false => ret OutNone
  end.

Definition stop_unless_valid : M Iterator unit :=
  v ← iter_Valid; if v then pass else raise StopIteration.

(** [Iterator.real_next]. *)
Definition real_next : M Iterator output :=
  it ← get;
  let cmp := comparator it in
  match _iter it with
  | None => raise RuntimeError
  | Some _ =>
      match state it with
      | IN_BETWEEN =>
          iter_do Next;;
          v ← iter_Valid;
          if v then pass
          else (modify (set_state AFTER_STOP);; raise StopIteration)
      | IN_BETWEEN_ALREADY_POSITIONED =>
          modify (set_state IN_BETWEEN)
      | BEFORE_START =>
          match start it with
          | None => iter_do SeekToFirst
          | Some s => iter_do (Seek cmp s)
          end;;
          stop_unless_valid;;        (* iterator is empty *)
          match start it with
          | Some s =>
              if include_start it then pass
              else
                (* start key is excluded: skip past it if the db contains it *)
                k ← iter_key;
                if Compare cmp k s =? 0
                then (iter_do Next;; stop_unless_valid)
                else pass
          | None => pass
          end;;
          modify (set_state IN_BETWEEN)
      | AFTER_STOP => raise StopIteration
      end;;
      check_status;;
      (* check range boundaries *)
      match stop it with
      | Some s =>
          let n := if include_stop it then 1 else 0 in
          k ← iter_key;
          if n <=? Compare cmp k s
          then (modify (set_state AFTER_STOP);; raise StopIteration)
          else pass
      | None => pass
      end;;
      current
  end.

(** [Iterator.real_prev]. *)
Definition real_prev : M Iterator output :=
  it ← get;
  let cmp := comparator it in
  match _iter it with
  | None => raise RuntimeError
  | Some _ =>
      match state it with
      | IN_BETWEEN => pass
      | IN_BETWEEN_ALREADY_POSITIONED =>
          v ← iter_Valid;
          (if v then pass else raise AssertionError);;
          iter_do Prev;;
          v ← iter_Valid;
          (if v then pass
           else
             (* the .seek() resulted in the first key in the database *)
             (modify (set_state BEFORE_START);; raise StopIteration));;
          check_status
      | BEFORE_START => raise StopIteration
      | AFTER_STOP =>
          match stop it with
          | None => iter_do SeekToLast   (* no stop key, seek to last entry *)
          | Some s =>
              iter_do (Seek cmp s);;
              v ← iter_Valid;
              (if v
               then
                 (* move one step back if stop is exclusive *)
                 (if include_stop it then pass else iter_do Prev)
               else
                 (* stop key did not exist; position at the last entry *)
                 iter_do SeekToLast);;
              (* make sure the iterator is not past the stop key *)
              v ← iter_Valid;
              if v
              then (k ← iter_key;
                    if 0 <? Compare cmp k s then iter_do Prev else pass)
              else pass
          end;;
          stop_unless_valid;;        (* no entries left *)
          (* after all the stepping back, we might even have ended up
             before the start key *)
          match start it with
          | Some s =>
              k ← iter_key;
              if 0 <=? Compare cmp s k then raise StopIteration else pass
          | None => pass
          end;;
          check_status
      end;;
      (* first obtain the value, then move the iterator pointer *)
      out ← current;
      iter_do Prev;;
      v ← iter_Valid;
      (if v
       then
         match start it with
         | None => modify (set_state IN_BETWEEN)
         | Some s =>
             let n := if include_start it then 0 else 1 in
             k ← iter_key;
             if n <=? Compare cmp k s
             then modify (set_state IN_BETWEEN)
             else modify (set_state BEFORE_START)
         end
       else
         (* moved before the first key in the database *)
         modify (set_state BEFORE_START));;
      check_status;;
      ret out
  end.

(** [Iterator.__next__] and [Iterator.prev]: the declared direction picks
    the physical motion. *)
Definition Iterator__next__ : M Iterator output :=
  it ← get;
  match direction it with
  | FORWARD => real_next
  | REVERSE => real_prev
  end.

Definition Iterator_prev : M Iterator output :=
  it ← get;
  match direction it with
  | FORWARD => real_prev
  | REVERSE => real_next
  end.

Definition seek_to_start : M Iterator unit :=
  it ← get;
  match _iter it with
  | None => raise RuntimeError
  | Some _ => modify (set_state BEFORE_START)
  end.

Definition seek_to_stop : M Iterator unit :=
  it ← get;
  match _iter it with
  | None => raise RuntimeError
  | Some _ => modify (set_state AFTER_STOP)
  end.

(** [Iterator.seek]. *)
Definition seek (target : bytes) : M Iterator unit :=
  it ← get;
  let cmp := comparator it in
  match _iter it with
  | None => raise RuntimeError
  | Some _ =>
      let target_slice := target in
      (* seek only within the start/stop boundaries *)
      let target_slice :=
        match start it with
        | Some s => if Compare cmp target_slice s <? 0 then s else target_slice
        | None => target_slice
        end in
      let target_slice :=
        match stop it with
        | Some s => if 0 <? Compare cmp target_slice s then s else target_slice
        | None => target_slice
        end in
      iter_do (Seek cmp target_slice);;
      v ← iter_Valid;
      if v
      then (modify (set_state IN_BETWEEN_ALREADY_POSITIONED);; check_status)
      else
        (* moved past the end (or empty database) *)
        modify (set_state AFTER_STOP)
  end.

(** ** Database *)

(** What [options.comparator] points to: the shared built-in comparator, or
    the adapter [NewPlyvelCallbackComparator] allocates around a Python
    callable. *)
Inductive comparator_ptr :=
  | Builtin
  | Callback (name : bytes) (cmp : Comparator).

Definition deref (p : comparator_ptr) : Comparator :=
  match p with
  | Builtin => BytewiseComparator
  | Callback _ cmp => cmp
  end.

(** The engine-side resources of [leveldb::Options]; [None] is [NULL].  A
    cache is known by its capacity, a filter policy by its bits per key. *)
Module Options.
Record t := {
  block_cache : option Z;
  filter_policy : option Z;
  comparator : option comparator_ptr;
}.
End Options.

(** [leveldb::DB]: the open engine connection.  [write_status] is the
    status the engine gives a write ([Put], [Delete], [Write]): [StatusOK]
    while it accepts writes, and the error it reports once its write path
    has failed. *)
Record leveldb_DB := {
  contents : list entry;
  write_status : Status;
}.

Definition set_contents (l : list entry) (e : leveldb_DB) : leveldb_DB :=
  {| contents := l; write_status := write_status e |}.

(** The outcome of a write that would leave the entries [l]: stored when
    the engine accepts writes, refused with the engine's error otherwise. *)
Definition write_outcome (e : leveldb_DB) (l : list entry) : Status * leveldb_DB :=
  match write_status e with
  | StatusOK => (StatusOK, set_contents l e)
  | st => (st, e)
  end.

(** [leveldb::DB::Write] of a batch, with its status. *)
Definition leveldb_DB_Write (cmp : Comparator) (ops : list batch_op)
    (e : leveldb_DB) : Status * leveldb_DB :=
  write_outcome e (leveldb_Write cmp ops (contents e)).

(** The [DB] object.  [iterators] is the [WeakValueDictionary]: it maps
    [id(iterator)] to the iterator without keeping it alive, so it is the
    set of registered ids, read through the heap of live objects.  It is
    [None] when the constructor did not complete. *)
Record DB := {
  _db : option leveldb_DB;
  options : Options.t;
  iterators : option (gset nat);
}.

Definition set_db (e : option leveldb_DB) (db : DB) : DB :=
  {| _db := e; options := options db; iterators := iterators db |}.
Definition set_options (o : Options.t) (db : DB) : DB :=
  {| _db := _db db; options := o; iterators := iterators db |}.
Definition set_iterators (r : option (gset nat)) (db : DB) : DB :=
  {| _db := _db db; options := options db; iterators := r |}.

(** The comparator of the handle.  An open handle always has one (the
    engine's default is the built-in bytewise comparator). *)
Definition DB_comparator (db : DB) : Comparator :=
  match Options.comparator (options db) with
  | Some p => deref p
  | None => BytewiseComparator
  end.

(** [DB._register_iterator]: [self.iterators[id(iterator)] = iterator]. *)
Definition _register_iterator (id : nat) : M DB unit :=
  db ← get;
  match iterators db with
  | Some reg => modify (set_iterators (Some ({[id]} ∪ reg)))
  | None => raise TypeError
  end.

(** The releases of engine-side objects ([del] in the source), which
    [DB.close] and [Iterator.close] make. *)
Inductive event :=
  | DeleteIterator (id : nat)
  | DeleteDB
  | DeleteBlockCache
  | DeleteFilterPolicy
  | DeleteComparator.

(** The world [DB.close] acts on: the handle, the heap of live [Iterator]
    objects by [id], and the releases made so far, oldest first.  The
    iterators are shared with their users: closing one in the heap closes
    it for everyone. *)
Record World := {
  the_db : DB;
  heap : gmap nat Iterator;
  trace : list event;
}.

Definition on_db (f : DB → DB) (w : World) : World :=
  {| the_db := f (the_db w); heap := heap w; trace := trace w |}.
Definition on_heap (f : gmap nat Iterator → gmap nat Iterator) (w : World) : World :=
  {| the_db := the_db w; heap := f (heap w); trace := trace w |}.
Definition emit (e : event) : M World unit :=
  modify (λ w, {| the_db := the_db w; heap := heap w; trace := trace w ++ [e] |}).

Fixpoint for_each {S A} (l : list A) (body : A → M S unit) : M S unit :=
  match l with
  | [] => pass
  | x :: l' => body x;; for_each l' body
  end.

(** [Iterator.close], run on the object with the given [id]: it releases
    the native cursor unless the iterator is closed already.  An [id] whose
    object is gone stands for a dead weak reference, which is not among the
    values of the registry. *)
Definition Iterator_close (id : nat) : M World unit :=
  w ← get;
  match heap w !! id with
  | None => pass
  | Some it =>
      match _iter it with
      | None => pass                      (* already closed *)
      | Some _ =>
          emit (DeleteIterator id);;      (* del self._iter *)
          modify (on_heap (<[id := set_iter None it]>))
      end
  end.

(** [DB.close].  The lock it takes around the loop only serialises callers
    and is left out. *)
Definition DB_close : M World unit :=
  w ← get;
  (* if self.iterators is not None: close every value, then clear() *)
  match iterators (the_db w) with
  | Some reg =>
      for_each (elements reg) Iterator_close;;
      modify (on_db (set_iterators (Some ∅)))
  | None => pass
  end;;
  w ← get;
  (* if self._db is not NULL: del self._db; self._db = NULL *)
  match _db (the_db w) with
  | Some _ => emit DeleteDB;; modify (on_db (set_db None))
  | None => pass
  end;;
  w ← get;
  let o := options (the_db w) in
  match Options.block_cache o with
  | Some _ =>
      emit DeleteBlockCache;;
      modify (on_db (set_options
        {| Options.block_cache := None;
           Options.filter_policy := Options.filter_policy o;
           Options.comparator := Options.comparator o |}))
  | None => pass
  end;;
  w ← get;
  let o := options (the_db w) in
  match Options.filter_policy o with
  | Some _ =>
      emit DeleteFilterPolicy;;
      modify (on_db (set_options
        {| Options.block_cache := Options.block_cache o;
           Options.filter_policy := None;
           Options.comparator := Options.comparator o |}))
  | None => pass
  end;;
  w ← get;
  let o := options (the_db w) in
  match Options.comparator o with
  | Some (Callback _ _) =>
      emit DeleteComparator;;
      modify (on_db (set_options
        {| Options.block_cache := Options.block_cache o;
           Options.filter_policy := Options.filter_policy o;
           Options.comparator := None |}))
  | Some Builtin => pass     (* the built-in comparator must not be deleted *)
  | None => pass
  end.

(** ** Snapshot *)

(** The [Snapshot] object: the pinned contents and the optional key prefix
    of the view that made it. *)
Module Snapshot.
Record t := {
  _snapshot : list entry;
  prefix : option bytes;
}.
End Snapshot.

(** ** Iterator construction *)

(** [db._db.NewIterator(read_options)]: a cursor over the pinned contents
    when [read_options.snapshot] is set, over the current contents
    otherwise; it is not positioned yet, and it has met no error.  The
    [verify_checksums] and [fill_cache] read options do not change what a
    cursor returns. *)
Definition NewIterator (e : leveldb_DB) (snapshot : option Snapshot.t)
  : leveldb_Iterator :=
  {| entries := match snapshot with
                | Some sn => Snapshot._snapshot sn
                | None => contents e
                end;
     pos := None;
     status := StatusOK |}.

(** [Iterator.__init__], run on the handle [db] for the new object whose
    [id()] is [self_id]; it returns the initialised object. *)
Definition Iterator__init__ (self_id : nat) (key_prefix : option bytes)
    (reverse : bool) (start stop : option bytes)
    (include_start include_stop : bool) (prefix : option bytes)
    (include_key include_value verify_checksums fill_cache : bool)
    (snapshot : option Snapshot.t) : M DB Iterator :=
  db ← get;
  match _db db with
  | None => raise RuntimeError
  | Some e =>
      let '(skip_key_bytes, prefix, start, include_start, stop, include_stop) :=
        match key_prefix with
        | None => (0%nat, prefix, start, include_start, stop, include_stop)
        | Some key_prefix =>
            (* an iterator on a PrefixedDB *)
            match prefix with
            | Some p =>
                (* both database key prefix and prefix on the iterator *)
                (length key_prefix, Some (key_prefix ++ p),
                 start, include_start, stop, include_stop)
            | None =>
                (* adapt start and stop keys to use the database key prefix *)
                let '(start, include_start) :=
                  match start with
                  | None => (Some key_prefix, true)
                  | Some s => (Some (key_prefix ++ s), include_start)
                  end in
                let '(stop, include_stop) :=
                  match stop with
                  | None => (bytes_increment key_prefix, false)
                  | Some s => (Some (key_prefix ++ s), include_stop)
                  end in
                (length key_prefix, None,
                 start, include_start, stop, include_stop)
            end
        end in
      bounds ←
        match prefix with
        | Some p =>
            match start, stop with
            | None, None =>
                (* use prefix to construct start and stop keys, and ignore
                   include_start and include_stop args *)
                ret (Some p, bytes_increment p, true, false)
            | _, _ => raise TypeError
            end
        | None => ret (start, stop, include_start, include_stop)
        end;
      let '(start, stop, include_start, include_stop) := bounds in
      let self :=
        {| _iter := Some (NewIterator e snapshot);
           direction := if reverse then REVERSE else FORWARD;
           (* seek_to_start() or seek_to_stop() *)
           state := if reverse then AFTER_STOP else BEFORE_START;
           comparator := DB_comparator db;
           start := start;
           stop := stop;
           include_start := include_start;
           include_stop := include_stop;
           include_key := include_key;
           include_value := include_value;
           skip_key_bytes := skip_key_bytes |} in
      _register_iterator self_id;;
      lift_result (raise_for_status (from_option status StatusOK (_iter self)));;
      ret self
  end.

(** ** Write batch *)

(** The [WriteBatch] object.  Its field [db] refers to the shared handle;
    the methods below run on the pair of the batch and that handle. *)
Record WriteBatch := {
  _write_batch : list batch_op;
  prefix : option bytes;
  transaction : bool;
}.

Definition set_write_batch (ops : list batch_op) (wb : WriteBatch) : WriteBatch :=
  {| _write_batch := ops; prefix := prefix wb; transaction := transaction wb |}.

(** Every method starts with this check on [self.db._db]. *)
Definition check_open : M (WriteBatch * DB) leveldb_DB :=
  s ← get;
  match _db s.2 with
  | None => raise RuntimeError
  | Some e => ret e
  end.

Definition with_prefix (wb : WriteBatch) (key : bytes) : bytes :=
  match prefix wb with
  | Some p => p ++ key
  | None => key
  end.

Definition WriteBatch_put (key value : bytes) : M (WriteBatch * DB) unit :=
  _ ← check_open;
  modify (λ s, (set_write_batch
                  (_write_batch s.1 ++ [BatchPut (with_prefix s.1 key) value]) s.1,
                s.2)).

Definition WriteBatch_delete (key : bytes) : M (WriteBatch * DB) unit :=
  _ ← check_open;
  modify (λ s, (set_write_batch
                  (_write_batch s.1 ++ [BatchDelete (with_prefix s.1 key)]) s.1,
                s.2)).

Definition WriteBatch_clear : M (WriteBatch * DB) unit :=
  _ ← check_open;
  modify (λ s, (set_write_batch [] s.1, s.2)).

Definition WriteBatch_write : M (WriteBatch * DB) unit :=
  e ← check_open;
  s ← get;
  let '(st, e') := leveldb_DB_Write (DB_comparator s.2) (_write_batch s.1) e in
  modify (λ s, (s.1, set_db (Some e') s.2));;
  lift_result (raise_for_status st).

Definition WriteBatch__enter__ : M (WriteBatch * DB) unit :=
  _ ← check_open; pass.

(** [WriteBatch.__exit__]; [exc_type] is [None] on a normal exit.  It
    returns [None] on both paths. *)
Definition WriteBatch__exit__ (exc_type : option exn) : M (WriteBatch * DB) unit :=
  _ ← check_open;
  s ← get;
  if transaction s.1 && bool_decide (is_Some exc_type)
  then
    (* exception occurred in transaction; do not write the batch *)
    WriteBatch_clear
  else
    (WriteBatch_write;; WriteBatch_clear).

(** The end of a [with batch:] block whose body finished normally
    ([exc = None]) or by raising [exc].  [__exit__] returned [None], which
    is false, so a pending exception is raised again; an exception raised by
    [__exit__] itself takes its place. *)
Definition with_exit (exc : option exn) : M (WriteBatch * DB) unit :=
  WriteBatch__exit__ exc;;
  match exc with
  | Some e => raise e
  | None => pass
  end.

(** Repeated [next(it)] until the iterator raises: the entries a [for] loop
    (or [list(it)]) receives.  [fuel] bounds the number of calls. *)
Fixpoint iterate (fuel : nat) (it : Iterator) : list output :=
  match fuel with
  | O => []
  | S fuel' =>
      match Iterator__next__ it with
      | (Return o, it') => o :: iterate fuel' it'
      | (Raise _, _) => []
      end
  end.

(** ** Vocabulary of the properties *)

(** The bound predicate of an iterator on a key. *)
Definition within_start (it : Iterator) (k : bytes) : bool :=
  match start it with
  | None => true
  | Some s =>
      if include_start it then 0 <=? Compare (comparator it) k s
      else 0 <? Compare (comparator it) k s
  end.

Definition within_stop (it : Iterator) (k : bytes) : bool :=
  match stop it with
  | None => true
  | Some s =>
      if include_stop it then Compare (comparator it) k s <=? 0
      else Compare (comparator it) k s <? 0
  end.

Definition in_bounds (it : Iterator) (k : bytes) : bool :=
  within_start it k && within_stop it k.

(** The object [current()] builds from an entry. *)
Definition format_entry (it : Iterator) (e : entry) : output :=
  match include_key it, include_value it with
  | true, true => OutPair (drop (skip_key_bytes it) e.1) e.2
  | true, false => OutKey (drop (skip_key_bytes it) e.1)
  | false, true => OutValue e.2
  | false, false => OutNone
  end.

(** The key of [e] is shorter than the bytes [current()] cuts off it, and
    the key is asked for. *)
Definition key_too_short (it : Iterator) (e : entry) : bool :=
  include_key it && (length e.1 <? skip_key_bytes it)%nat.

(** What [current()] gives with the cursor on [e]. *)
Definition current_of (it : Iterator) (e : entry) : result output :=
  if key_too_short it e then Raise SystemError
  else Return (format_entry it e).

(** The status of the cursor of [it], and what [raise_for_status] makes of
    it. *)
Definition cursor_status (it : Iterator) : Status :=
  from_option status StatusOK (_iter it).

Definition status_check (it : Iterator) : result unit :=
  raise_for_status (cursor_status it).

(** The larger and the smaller of two keys under a comparator, and the
    clamping of a seek target into the window [[start, stop]]: raised to
    [start], then lowered to [stop]. *)
Definition key_max (cmp : Comparator) (a b : bytes) : bytes :=
  if Compare cmp a b <? 0 then b else a.
Definition key_min (cmp : Comparator) (a b : bytes) : bytes :=
  if 0 <? Compare cmp a b then b else a.
Definition clamp_into_window (cmp : Comparator) (start stop : option bytes)
    (target : bytes) : bytes :=
  let raised := from_option (key_max cmp target) target start in
  from_option (key_min cmp raised) raised stop.

(** Index of the first and of the last entry that satisfies [P]. *)
Fixpoint find_first (P : entry → bool) (l : list entry) : option nat :=
  match l with
  | [] => None
  | e :: l' => if P e then Some 0%nat else S <$> find_first P l'
  end.

Fixpoint find_last (P : entry → bool) (l : list entry) : option nat :=
  match l with
  | [] => None
  | e :: l' =>
      match find_last P l' with
      | Some j => Some (S j)
      | None => if P e then Some 0%nat else None
      end
  end.

(** The longest prefix of [l] whose entries all satisfy [P]. *)
Fixpoint take_while (P : entry → bool) (l : list entry) : list entry :=
  match l with
  | [] => []
  | e :: l' => if P e then e :: take_while P l' else []
  end.

(** The entries of [l] whose keys satisfy the bound predicate of [it], in
    the order of [l]. *)
Definition bounded_entries (it : Iterator) (l : list entry) : list entry :=
  List.filter (λ e, in_bounds it e.1) l.

(** The iterator [it] with its cursor at position [p] of [l] and its state
    set to [st]. *)
Definition moved (st : IteratorState) (l : list entry) (p : option nat)
    (it : Iterator) : Iterator :=
  set_state st
    (set_iter (Some {| entries := l; pos := p; status := cursor_status it |}) it).

Definition pos_before (i : nat) : option nat :=
  match i with
  | O => None
  | S j => Some j
  end.

(** The state [real_prev] leaves after stepping back from position [i]. *)
Definition state_before (it : Iterator) (l : list entry) (i : nat) : IteratorState :=
  match i with
  | O => BEFORE_START
  | S j =>
      match l !! j with
      | Some e => if within_start it e.1 then IN_BETWEEN else BEFORE_START
      | None => BEFORE_START
      end
  end.

(** What [real_next] does once the cursor has reached position [j] with
    entry [e]: it raises the error of the cursor, if any; else it hands the
    entry to [current()] if it is within the stop bound, and ends the
    sequence otherwise. *)
Definition yield_or_stop (it : Iterator) (l : list entry) (j : nat) (e : entry)
  : result output * Iterator :=
  match status_check it with
  | Raise x => (Raise x, moved IN_BETWEEN l (Some j) it)
  | Return _ =>
      if within_stop it e.1
      then (current_of it e, moved IN_BETWEEN l (Some j) it)
      else (Raise StopIteration, moved AFTER_STOP l (Some j) it)
  end.

(** [real_next] heading for position [oj]; with no such position the
    sequence ends in state [st]. *)
Definition next_from (it : Iterator) (l : list entry) (oj : option nat)
    (st : IteratorState) : result output * Iterator :=
  match oj ≫= λ j, (λ e, (j, e)) <$> l !! j with
  | Some (j, e) => yield_or_stop it l j e
  | None => (Raise StopIteration, moved st l None it)
  end.

(** The test [real_prev] makes on the entry it repositioned to from
    [AFTER_STOP]: [Compare(start, key) >= 0]. *)
Definition at_or_before_start (it : Iterator) (k : bytes) : bool :=
  match start it with
  | Some s => 0 <=? Compare (comparator it) s k
  | None => false
  end.

(** What [real_prev] does with the cursor on entry [e] at position [j],
    in state [st]: when [current()] fails the cursor and the state stay;
    else the cursor steps one position back, the state follows, and the
    entry is handed back unless the cursor has an error. *)
Definition yield_and_step_back (it : Iterator) (st : IteratorState)
    (l : list entry) (j : nat) (e : entry) : result output * Iterator :=
  match current_of it e with
  | Raise x => (Raise x, moved st l (Some j) it)
  | Return out =>
      (match status_check it with
       | Raise x => Raise x
       | Return _ => Return out
       end,
       moved (state_before it l j) l (pos_before j) it)
  end.

(** The same after a repositioning, which checks the cursor for an error
    first. *)
Definition check_and_step_back (it : Iterator) (st : IteratorState)
    (l : list entry) (j : nat) (e : entry) : result output * Iterator :=
  match status_check it with
  | Raise x => (Raise x, moved st l (Some j) it)
  | Return _ => yield_and_step_back it st l j e
  end.

(** [real_prev] from [AFTER_STOP], repositioned to [oj]. *)
Definition prev_from_stop (it : Iterator) (l : list entry) (oj : option nat)
  : result output * Iterator :=
  match oj ≫= λ j, (λ e, (j, e)) <$> l !! j with
  | Some (j, e) =>
      if at_or_before_start it e.1
      then (Raise StopIteration, moved AFTER_STOP l (Some j) it)
      else check_and_step_back it AFTER_STOP l j e
  | None => (Raise StopIteration, moved AFTER_STOP l None it)
  end.

(** The entries [real_prev] hands back from position [j] downwards: the
    entry at [j], then the ones before it as long as they are within the
    start bound. *)
Fixpoint walk_back (it : Iterator) (l : list entry) (j : nat) : list entry :=
  match l !! j with
  | Some e =>
      e :: match j with
           | O => []
           | S j' =>
               match l !! j' with
               | Some e' => if within_start it e'.1 then walk_back it l j' else []
               | None => []
               end
           end
  | None => []
  end.

(** The last entry within the stop bound is the inclusive start key
    itself: at or before [start] for the test of [real_prev], and yet
    within the start bound. *)
Definition stop_lands_on_start (it : Iterator) (l : list entry) : bool :=
  match find_last (λ e, within_stop it e.1) l ≫= λ j, l !! j with
  | Some e => at_or_before_start it e.1 && within_start it e.1
  | None => false
  end.

(** An iterator in an in-range position: it is live, its cursor has no
    error and runs over entries in strictly ascending order, its state does
    not come from an explicit seek, and in state [IN_BETWEEN] the cursor is
    on an entry within the bounds.  This is what holds along a traversal
    that has not used [seek]. *)
Definition in_range_position (it : Iterator) : Prop :=
  ∃ l p, _iter it = Some {| entries := l; pos := p; status := StatusOK |} ∧
         strictly_ascending (comparator it) l = true ∧
         state it ≠ IN_BETWEEN_ALREADY_POSITIONED ∧
         (state it = IN_BETWEEN →
          ∃ i e, p = Some i ∧ l !! i = Some e ∧ in_bounds it e.1 = true).

(** The calls a caller can make on an iterator, and the iterator they leave
    behind. *)
Inductive call :=
  | CallNext
  | CallPrev
  | CallSeek (target : bytes)
  | CallSeekToStart
  | CallSeekToStop.

Definition do_call (c : call) (it : Iterator) : Iterator :=
  match c with
  | CallNext => (Iterator__next__ it).2
  | CallPrev => (Iterator_prev it).2
  | CallSeek target => (seek target it).2
  | CallSeekToStart => (seek_to_start it).2
  | CallSeekToStop => (seek_to_stop it).2
  end.

Definition after_calls (cs : list call) (it : Iterator) : Iterator :=
  foldl (λ it c, do_call c it) it cs.

Definition is_seek (c : call) : bool :=
  match c with
  | CallSeek _ => true
  | _ => false
  end.

(** [next()] then [prev()], and [prev()] then [next()], hand back the same
    entry twice. *)
Definition round_trip (it : Iterator) : Prop :=
  (∀ o it1, Iterator__next__ it = (Return o, it1) →
            ∃ it2, Iterator_prev it1 = (Return o, it2)) ∧
  (∀ o it1, Iterator_prev it = (Return o, it1) →
            ∃ it2, Iterator__next__ it1 = (Return o, it2)).

(** The three ways a [with batch:] block can end.  Committing: the handle
    is open, the staged operations are applied to the store, the batch is
    emptied, and the failure that ended the block, if any, is raised again.
    Rolling back: the store is untouched, the batch is emptied, and the
    failure is raised again.  Failing to write: the engine refuses the
    write, its error is raised, in place of the failure that ended the
    block if there was one, and the store and the batch stay as they
    were. *)
Definition scope_commits (exc : option exn) (wb : WriteBatch) (db : DB) : Prop :=
  ∃ e, _db db = Some e ∧
    with_exit exc (wb, db)
    = (match exc with Some x => Raise x | None => Return tt end,
       (set_write_batch [] wb,
        set_db (Some (set_contents
          (leveldb_Write (DB_comparator db) (_write_batch wb) (contents e)) e))
          db)).

Definition scope_rolls_back (exc : exn) (wb : WriteBatch) (db : DB) : Prop :=
  with_exit (Some exc) (wb, db) = (Raise exc, (set_write_batch [] wb, db)).

Definition scope_fails_to_write (exc : option exn) (wb : WriteBatch) (db : DB)
  : Prop :=
  ∃ e x, _db db = Some e ∧ raise_for_status (write_status e) = Raise x ∧
         with_exit exc (wb, db) = (Raise x, (wb, db)).

(** Position of an event in a trace, and "every [e1] comes before every
    [e2]". *)
Definition all_before (P Q : event → bool) (tr : list event) : Prop :=
  ∀ i j e1 e2, tr !! i = Some e1 → tr !! j = Some e2 →
               P e1 = true → Q e2 = true → (i < j)%nat.

Definition is_iterator_release (e : event) : bool :=
  match e with DeleteIterator _ => true | _ => false end.
Definition is_engine_close (e : event) : bool :=
  match e with DeleteDB => true | _ => false end.
Definition is_option_release (e : event) : bool :=
  match e with
  | DeleteBlockCache | DeleteFilterPolicy | DeleteComparator => true
  | _ => false
  end.

(** The releases one call of [DB.close] makes. *)
Definition close_events (w : World) : list event :=
  drop (length (trace w)) (trace (DB_close w).2).

(** ** Sample objects *)

Definition key_a : bytes := ["a"%byte].
Definition key_b : bytes := ["b"%byte].
Definition key_c : bytes := ["c"%byte].
Definition val_1 : bytes := ["1"%byte].
Definition val_2 : bytes := ["2"%byte].
Definition val_3 : bytes := ["3"%byte].

Definition default_options : Options.t :=
  {| Options.block_cache := None;
     Options.filter_policy := None;
     Options.comparator := Some Builtin |}.

(** An open handle on the given entries, with no iterator registered. *)
Definition open_db (l : list entry) : DB :=
  {| _db := Some {| contents := l; write_status := StatusOK |};
     options := default_options;
     iterators := Some ∅ |}.

(** The same handle once the write path of its engine has failed with an
    I/O error. *)
Definition refusing_db (l : list entry) : DB :=
  {| _db := Some {| contents := l; write_status := StatusIOError |};
     options := default_options;
     iterators := Some ∅ |}.

(** The same handle after [close()]. *)
Definition closed_db : DB :=
  {| _db := None; options := default_options; iterators := Some ∅ |}.

Definition sample_entries : list entry :=
  [(key_a, val_1); (key_b, val_2); (key_c, val_3)].

(** The iterator [db.iterator(reverse=..., start=..., stop=...,
    include_start=..., include_stop=...)] makes on [open_db l]. *)
Definition sample_iterator (l : list entry) (reverse : bool)
    (start stop : option bytes) (include_start include_stop : bool) : Iterator :=
  {| _iter := Some {| entries := l; pos := None; status := StatusOK |};
     direction := if reverse then REVERSE else FORWARD;
     state := if reverse then AFTER_STOP else BEFORE_START;
     comparator := BytewiseComparator;
     start := start; stop := stop;
     include_start := include_start; include_stop := include_stop;
     include_key := true; include_value := true;
     skip_key_bytes := 0 |}.

(** A forward iterator on the sample entries with [start=b"a"], [stop=b"b"]
    (exclusive). *)
Definition seek_sample : Iterator :=
  sample_iterator sample_entries false (Some key_a) (Some key_b) true false.

(** The iterator a namespace view with prefix [b"a"] makes for
    [iterator(stop=b"c", include_start=False, include_stop=True)]: it
    ranges over the keys from [b"a"] to [b"ac"]. *)
Definition namespace_sample : Iterator :=
  {| _iter := Some {| entries := sample_entries; pos := None;
                      status := StatusOK |};
     direction := FORWARD; state := BEFORE_START;
     comparator := BytewiseComparator;
     start := Some key_a; stop := Some (key_a ++ key_c);
     include_start := true; include_stop := true;
     include_key := true; include_value := true;
     skip_key_bytes := 1 |}.

(** The iterator a view with prefix [b"ab"] makes with [iterator()] over
    the keys [b"a"] and [b"ab1"]: it ranges over the keys from [b"ab"] up
    to [b"ac"] and cuts two bytes off each key. *)
Definition a_and_ab1 : list entry :=
  [(key_a, val_1); (key_a ++ key_b ++ val_1, val_2)].
Definition view_sample : Iterator :=
  {| _iter := Some {| entries := a_and_ab1; pos := None; status := StatusOK |};
     direction := FORWARD; state := BEFORE_START;
     comparator := BytewiseComparator;
     start := Some (key_a ++ key_b); stop := Some (key_a ++ key_c);
     include_start := true; include_stop := false;
     include_key := true; include_value := true;
     skip_key_bytes := 2 |}.

(** A store that holds the single key [b"a"], and the forward and the
    reverse iterator over it with [start=b"a"] (inclusive, the default). *)
Definition only_a : list entry := [(key_a, val_1)].
Definition forward_from_a : Iterator :=
  sample_iterator only_a false (Some key_a) None true false.
Definition reverse_from_a : Iterator :=
  sample_iterator only_a true (Some key_a) None true false.

(** A forward iterator over the keys [b"a"] and [b"b"] that excludes its
    start key [b"a"]. *)
Definition a_and_b : list entry := [(key_a, val_1); (key_b, val_2)].
Definition past_a : Iterator :=
  sample_iterator a_and_b false (Some key_a) None false false.

(** A batch with one staged put, which gives [b"b"] the value [b"3"]. *)
Definition sample_batch (transaction : bool) : WriteBatch :=
  {| _write_batch := [BatchPut key_b val_3];
     prefix := None;
     transaction := transaction |}.

(** An open handle with a block cache, a bloom filter and a callback
    comparator, and one registered iterator that is still open. *)
Definition full_options : Options.t :=
  {| Options.block_cache := Some 8388608;
     Options.filter_policy := Some 10;
     Options.comparator := Some (Callback key_c BytewiseComparator) |}.

Definition sample_world : World :=
  {| the_db := {| _db := Some {| contents := sample_entries;
                                    write_status := StatusOK |};
                  options := full_options;
                  iterators := Some {[7%nat]} |};
     heap := {[7%nat := sample_iterator sample_entries false None None true false]};
     trace := [] |}.

(** ** Reads and writes on the handle *)

(** [leveldb::ReadOptions] and [leveldb::WriteOptions].  A read with
    [snapshot = None] sees the current contents; [verify_checksums],
    [fill_cache] and [sync] do not change what a call returns. *)
Module ReadOptions.
Record t := {
  verify_checksums : bool;
  fill_cache : bool;
  snapshot : option (list entry);
}.
Definition default : t :=
  {| verify_checksums := false; fill_cache := true; snapshot := None |}.
Definition set_verify_checksums (b : bool) (ro : t) : t :=
  {| verify_checksums := b; fill_cache := fill_cache ro; snapshot := snapshot ro |}.
Definition set_fill_cache (b : bool) (ro : t) : t :=
  {| verify_checksums := verify_checksums ro; fill_cache := b;
     snapshot := snapshot ro |}.
Definition set_snapshot (s : option (list entry)) (ro : t) : t :=
  {| verify_checksums := verify_checksums ro; fill_cache := fill_cache ro;
     snapshot := s |}.
End ReadOptions.

Module WriteOptions.
Record t := {
  sync : bool;
}.
Definition default : t := {| sync := false |}.
End WriteOptions.

(** [if x is not None: field = x]. *)
Definition unless_None {A O} (x : option A) (set : A → O → O) (o : O) : O :=
  match x with
  | Some a => set a o
  | None => o
  end.

(** The search [leveldb::DB::Get] makes in the ordered entries: the value
    under the key that compares equal to [k]. *)
Fixpoint store_get (cmp : Comparator) (k : bytes) (l : list entry) : option bytes :=
  match l with
  | [] => None
  | e :: l' =>
      if Compare cmp k e.1 <? 0 then None
      else if Compare cmp k e.1 =? 0 then Some e.2
      else store_get cmp k l'
  end.

(** [leveldb::DB::Get], [Put] and [Delete] with their status.  A read is
    served from the entries and reports found or not found. *)
Definition leveldb_Get (cmp : Comparator) (read_options : ReadOptions.t)
    (key : bytes) (e : leveldb_DB) : Status * bytes :=
  let seen := match ReadOptions.snapshot read_options with
              | Some pinned => pinned
              | None => contents e
              end in
  match store_get cmp key seen with
  | Some value => (StatusOK, value)
  | None => (StatusNotFound, [])
  end.

Definition leveldb_Put (cmp : Comparator) (write_options : WriteOptions.t)
    (key value : bytes) (e : leveldb_DB) : Status * leveldb_DB :=
  write_outcome e (store_put cmp key value (contents e)).

Definition leveldb_Delete (cmp : Comparator) (write_options : WriteOptions.t)
    (key : bytes) (e : leveldb_DB) : Status * leveldb_DB :=
  write_outcome e (store_delete cmp key (contents e)).

Definition IsNotFound (st : Status) : bool :=
  match st with
  | StatusNotFound => true
  | _ => false
  end.

(** What [get] hands back: the stored value, or the caller's [default]
    object. *)
Inductive got (D : Type) :=
  | GotValue (value : bytes)
  | GotDefault (default : D).
Arguments GotValue {D} value.
Arguments GotDefault {D} default.

(** [db_get].  It calls through [db._db] without a check of its own; a call
    through the [NULL] pointer is marked [EngineAbort]. *)
Definition db_get {D} (key : bytes) (default : D) (read_options : ReadOptions.t)
  : M DB (got D) :=
  db ← get;
  match _db db with
  | None => raise EngineAbort
  | Some e =>
      let '(st, value) := leveldb_Get (DB_comparator db) read_options key e in
      if IsNotFound st then ret (GotDefault default)
      else (lift_result (raise_for_status st);; ret (GotValue value))
  end.

(** [DB.closed]. *)
Definition DB_closed (db : DB) : bool :=
  match _db db with
  | None => true
  | Some _ => false
  end.

(** [DB.get]. *)
Definition DB_get {D} (key : bytes) (default : D)
    (verify_checksums fill_cache : option bool) : M DB (got D) :=
  db ← get;
  match _db db with
  | None => raise RuntimeError
  | Some _ =>
      let read_options := ReadOptions.default in
      let read_options :=
        unless_None verify_checksums ReadOptions.set_verify_checksums read_options in
      let read_options :=
        unless_None fill_cache ReadOptions.set_fill_cache read_options in
      db_get key default read_options
  end.

(** [DB.put]. *)
Definition DB_put (key value : bytes) (sync : option bool) : M DB unit :=
  db ← get;
  match _db db with
  | None => raise RuntimeError
  | Some e =>
      let write_options := WriteOptions.default in
      let write_options :=
        unless_None sync (λ b _, {| WriteOptions.sync := b |}) write_options in
      let '(st, e') := leveldb_Put (DB_comparator db) write_options key value e in
      modify (set_db (Some e'));;
      lift_result (raise_for_status st)
  end.

(** [DB.delete]. *)
Definition DB_delete (key : bytes) (sync : option bool) : M DB unit :=
  db ← get;
  match _db db with
  | None => raise RuntimeError
  | Some e =>
      let write_options := WriteOptions.default in
      let write_options :=
        unless_None sync (λ b _, {| WriteOptions.sync := b |}) write_options in
      let '(st, e') := leveldb_Delete (DB_comparator db) write_options key e in
      modify (set_db (Some e'));;
      lift_result (raise_for_status st)
  end.

(** [WriteBatch.__init__]: an empty native batch.  [sync] goes to the
    write options of the batch, which do not change what [write] stores. *)
Definition WriteBatch__init__ (prefix : option bytes) (transaction : bool)
    (sync : option bool) : WriteBatch :=
  {| _write_batch := []; prefix := prefix; transaction := transaction |}.

(** [DB.write_batch]. *)
Definition DB_write_batch (transaction : bool) (sync : option bool)
  : M DB WriteBatch :=
  db ← get;
  match _db db with
  | None => raise RuntimeError
  | Some _ => ret (WriteBatch__init__ None transaction sync)
  end.

(** A Python object passed for a C [bool] parameter: its truth value. *)
Definition truth (x : option bool) : bool :=
  match x with
  | Some b => b
  | None => false
  end.

(** [DB.iterator]; [self_id] is the [id()] of the new [Iterator]. *)
Definition DB_iterator (self_id : nat) (reverse : bool) (start stop : option bytes)
    (include_start include_stop : bool) (prefix : option bytes)
    (include_key include_value : bool) (verify_checksums fill_cache : option bool)
  : M DB Iterator :=
  Iterator__init__ self_id None reverse start stop include_start include_stop
    prefix include_key include_value (truth verify_checksums) (truth fill_cache)
    None.

(** [DB.__iter__]: [self.iterator()] with every default. *)
Definition DB__iter__ (self_id : nat) : M DB Iterator :=
  db ← get;
  match _db db with
  | None => raise RuntimeError
  | Some _ =>
      DB_iterator self_id false None None true false None true true None None
  end.

(** [Snapshot.__init__]: it pins the contents of the moment. *)
Definition Snapshot__init__ (prefix : option bytes) : M DB Snapshot.t :=
  db ← get;
  match _db db with
  | None => raise RuntimeError
  | Some e => ret {| Snapshot._snapshot := contents e; Snapshot.prefix := prefix |}
  end.

(** [DB.snapshot]. *)
Definition DB_snapshot : M DB Snapshot.t := Snapshot__init__ None.

(** ** The prefixed view *)

(** The [PrefixedDB] object.  Its field [db] refers to the shared handle,
    on which its methods run. *)
Module PrefixedDB.
Record t := {
  prefix : bytes;
}.
End PrefixedDB.

(** [DB.prefixed_db] and [PrefixedDB.prefixed_db]. *)
Definition DB_prefixed_db (prefix : bytes) : PrefixedDB.t :=
  {| PrefixedDB.prefix := prefix |}.

Definition PrefixedDB_prefixed_db (self : PrefixedDB.t) (prefix : bytes)
  : PrefixedDB.t :=
  {| PrefixedDB.prefix := PrefixedDB.prefix self ++ prefix |}.

Definition PrefixedDB_get {D} (self : PrefixedDB.t) (key : bytes) (default : D)
    (verify_checksums fill_cache : option bool) : M DB (got D) :=
  DB_get (PrefixedDB.prefix self ++ key) default verify_checksums fill_cache.

Definition PrefixedDB_put (self : PrefixedDB.t) (key value : bytes)
    (sync : option bool) : M DB unit :=
  DB_put (PrefixedDB.prefix self ++ key) value sync.

Definition PrefixedDB_delete (self : PrefixedDB.t) (key : bytes)
    (sync : option bool) : M DB unit :=
  DB_delete (PrefixedDB.prefix self ++ key) sync.

(** [PrefixedDB.write_batch] builds the batch itself, with no check of the
    handle. *)
Definition PrefixedDB_write_batch (self : PrefixedDB.t) (transaction : bool)
    (sync : option bool) : M DB WriteBatch :=
  ret (WriteBatch__init__ (Some (PrefixedDB.prefix self)) transaction sync).

Definition PrefixedDB_iterator (self : PrefixedDB.t) (self_id : nat)
    (reverse : bool) (start stop : option bytes)
    (include_start include_stop : bool) (prefix : option bytes)
    (include_key include_value : bool) (verify_checksums fill_cache : option bool)
  : M DB Iterator :=
  Iterator__init__ self_id (Some (PrefixedDB.prefix self)) reverse start stop
    include_start include_stop prefix include_key include_value
    (truth verify_checksums) (truth fill_cache) None.

Definition PrefixedDB__iter__ (self : PrefixedDB.t) (self_id : nat)
  : M DB Iterator :=
  PrefixedDB_iterator self self_id false None None true false None true true
    None None.

Definition PrefixedDB_snapshot (self : PrefixedDB.t) : M DB Snapshot.t :=
  Snapshot__init__ (Some (PrefixedDB.prefix self)).

(** ** Reads through a snapshot *)

(** [Snapshot.get]. *)
Definition Snapshot_get {D} (self : Snapshot.t) (key : bytes) (default : D)
    (verify_checksums fill_cache : option bool) : M DB (got D) :=
  db ← get;
  match _db db with
  | None => raise RuntimeError
  | Some _ =>
      let read_options := ReadOptions.default in
      let read_options :=
        ReadOptions.set_snapshot (Some (Snapshot._snapshot self)) read_options in
      let read_options :=
        unless_None verify_checksums ReadOptions.set_verify_checksums read_options in
      let read_options :=
        unless_None fill_cache ReadOptions.set_fill_cache read_options in
      let key := match Snapshot.prefix self with
                 | Some p => p ++ key
                 | None => key
                 end in
      db_get key default read_options
  end.

(** [Snapshot.iterator]. *)
Definition Snapshot_iterator (self : Snapshot.t) (self_id : nat)
    (reverse : bool) (start stop : option bytes)
    (include_start include_stop : bool) (prefix : option bytes)
    (include_key include_value : bool) (verify_checksums fill_cache : option bool)
  : M DB Iterator :=
  Iterator__init__ self_id (Snapshot.prefix self) reverse start stop
    include_start include_stop prefix include_key include_value
    (truth verify_checksums) (truth fill_cache) (Some self).

(** [Snapshot.__iter__]. *)
Definition Snapshot__iter__ (self : Snapshot.t) (self_id : nat) : M DB Iterator :=
  db ← get;
  match _db db with
  | None => raise RuntimeError
  | Some _ =>
      Snapshot_iterator self self_id false None None true false None true true
        None None
  end.

(** ** Vocabulary of the further properties *)

(** [k.startswith(p)]. *)
Fixpoint has_prefix (p k : bytes) : bool :=
  match p, k with
  | [], _ => true
  | _ :: _, [] => false
  | x :: p', y :: k' => bool_decide (x = y) && has_prefix p' k'
  end.

(** The range test of [iterator(start=..., stop=..., include_start=...,
    include_stop=...)] on a key. *)
Definition key_in_range (cmp : Comparator) (start stop : option bytes)
    (include_start include_stop : bool) (k : bytes) : bool :=
  match start with
  | None => true
  | Some s => if include_start then 0 <=? Compare cmp k s else 0 <? Compare cmp k s
  end &&
  match stop with
  | None => true
  | Some s => if include_stop then Compare cmp k s <=? 0 else Compare cmp k s <? 0
  end.

(** The entries of [l] in the range, in the order of [l]. *)
Definition range_entries (cmp : Comparator) (start stop : option bytes)
    (include_start include_stop : bool) (l : list entry) : list entry :=
  List.filter (λ e, key_in_range cmp start stop include_start include_stop e.1) l.

(** What the caller receives for an entry, given [include_key] and
    [include_value], from an iterator that drops the first [skip] bytes of
    every key. *)
Definition render (include_key include_value : bool) (skip : nat) (e : entry)
  : output :=
  match include_key, include_value with
  | true, true => OutPair (drop skip e.1) e.2
  | true, false => OutKey (drop skip e.1)
  | false, true => OutValue e.2
  | false, false => OutNone
  end.

(** The greatest stored key within the stop bound compares equal to an
    inclusive [start]. *)
Definition ends_on_inclusive_start (cmp : Comparator) (start stop : option bytes)
    (include_start include_stop : bool) (l : list entry) : bool :=
  match start,
        find_last (λ e, key_in_range cmp None stop true include_stop e.1) l
          ≫= λ j, l !! j with
  | Some s, Some e => include_start && (Compare cmp e.1 s =? 0)
  | _, _ => false
  end.

(** What a view with prefix [P] shows of the entries [l]: the entries
    whose key starts with [P], with [P] taken off the key. *)
Definition strip_prefix (P : bytes) (e : entry) : entry :=
  (drop (length P) e.1, e.2).

Definition view_contents (P : bytes) (l : list entry) : list entry :=
  strip_prefix P <$> List.filter (λ e, has_prefix P e.1) l.

(** The write calls a caller makes, on a batch or on the handle itself. *)
Inductive write_call :=
  | PutCall (key value : bytes)
  | DeleteCall (key : bytes).

(** The call staged on a batch. *)
Definition stage_call (c : write_call) : M (WriteBatch * DB) unit :=
  match c with
  | PutCall key value => WriteBatch_put key value
  | DeleteCall key => WriteBatch_delete key
  end.

(** The same call made at once: on the handle for a batch without a
    prefix, on the view with that prefix otherwise. *)
Definition direct_call (prefix : option bytes) (c : write_call) : M DB unit :=
  match prefix, c with
  | None, PutCall key value => DB_put key value None
  | None, DeleteCall key => DB_delete key None
  | Some P, PutCall key value => PrefixedDB_put (DB_prefixed_db P) key value None
  | Some P, DeleteCall key => PrefixedDB_delete (DB_prefixed_db P) key None
  end.

(** The staged form of a call. *)
Definition staged_op (prefix : option bytes) (c : write_call) : batch_op :=
  match c with
  | PutCall key value =>
      BatchPut (match prefix with Some P => P ++ key | None => key end) value
  | DeleteCall key =>
      BatchDelete (match prefix with Some P => P ++ key | None => key end)
  end.

(** The object with the given [id] is a live iterator whose native cursor
    has not been released. *)
Definition open_cursor (h : gmap nat Iterator) (id : nat) : bool :=
  match h !! id with
  | Some it =>
      match _iter it with
      | Some _ => true
      | None => false
      end
  | None => false
  end.

(** The registry as a set: empty when the constructor did not complete. *)
Definition registered (db : DB) : gset nat :=
  match iterators db with
  | Some reg => reg
  | None => ∅
  end.

(** The exception a result carries, if any. *)
Definition exception {A} (r : result A) : option exn :=
  match r with
  | Return _ => None
  | Raise e => Some e
  end.

(** The exception a call on an iterator raises, if any. *)
Definition raised (c : call) (it : Iterator) : option exn :=
  match c with
  | CallNext => exception (Iterator__next__ it).1
  | CallPrev => exception (Iterator_prev it).1
  | CallSeek target => exception (seek target it).1
  | CallSeekToStart => exception (seek_to_start it).1
  | CallSeekToStop => exception (seek_to_stop it).1
  end.

(** What a step of a traversal over the entries [l] may raise: the end of
    the sequence; the [SystemError] of [current()], when a stored key is
    shorter than the bytes it cuts off; the error of the cursor's status. *)
Definition step_may_raise (it : Iterator) (l : list entry) (x : exn) : Prop :=
  match x with
  | StopIteration => True
  | SystemError => ∃ e, e ∈ l ∧ key_too_short it e = true
  | _ => status_check it = Raise x
  end.

(** What a step may give: an entry of [l] as [current()] renders it, or one
    of those exceptions. *)
Definition step_outcome (it : Iterator) (l : list entry) (r : result output)
  : Prop :=
  match r with
  | Return o => ∃ e, e ∈ l ∧ current_of it e = Return o
  | Raise x => step_may_raise it l x
  end.

(** What a call may raise on an iterator whose cursor runs over [l]. *)
Definition call_may_raise (c : call) (it : Iterator) (l : list entry) (x : exn)
  : Prop :=
  match c with
  | CallNext | CallPrev => step_may_raise it l x
  | CallSeek _ => status_check it = Raise x
  | CallSeekToStart | CallSeekToStop => False
  end.

(** An iterator whose cursor sits on an entry whenever its state says it
    is between the bounds. *)
Definition positioned (it : Iterator) : bool :=
  match _iter it with
  | Some c =>
      match state it with
      | IN_BETWEEN | IN_BETWEEN_ALREADY_POSITIONED => Valid c
      | BEFORE_START | AFTER_STOP => true
      end
  | None => false
  end.

(** An iterator as [Iterator.__init__] returns it, from any arguments on
    any handle. *)
Definition constructed (it : Iterator) : Prop :=
  ∃ self_id key_prefix reverse start_arg stop_arg include_start_arg
    include_stop_arg prefix_arg include_key_arg include_value_arg
    verify_checksums fill_cache snapshot db db',
    Iterator__init__ self_id key_prefix reverse start_arg stop_arg
      include_start_arg include_stop_arg prefix_arg include_key_arg
      include_value_arg verify_checksums fill_cache snapshot db
    = (Return it, db').

(** The iterators a traversal reaches from [it0], whose cursor runs over
    [l]: [it0] with its cursor moved and its state changed. *)
Definition reached (it0 : Iterator) (l : list entry) (it : Iterator) : Prop :=
  ∃ st p, it = moved st l p it0 ∧ positioned it = true.

(** ** Opening a database *)

(** The constructor raises exceptions the methods above never raise, and
    passes on the ones [raise_for_status] raises. *)
Inductive open_exn :=
  | OpenTypeError
  | OpenValueError
  | OpenOverflowError
  | OpenUnicodeDecodeError
  | OpenStatus (e : exn).

Inductive outcome (A : Type) :=
  | Done (a : A)
  | Failed (e : open_exn).
Arguments Done {A} a.
Arguments Failed {A} e.

(** A step of the constructor on a state of type [S]: like a method, with
    the exceptions above. *)
Definition Ctor (S A : Type) : Type := S → outcome A * S.

Definition finished {S A} (a : A) : Ctor S A := λ s, (Done a, s).
Definition failed {S A} (e : open_exn) : Ctor S A := λ s, (Failed e, s).
Definition and_then {S A B} (m : Ctor S A) (f : A → Ctor S B) : Ctor S B :=
  λ s, match m s with
       | (Done a, s') => f a s'
       | (Failed e, s') => (Failed e, s')
       end.
Definition update {S} (f : S → S) : Ctor S unit := λ s, (Done tt, f s).
Definition skip {S} : Ctor S unit := finished tt.

Declare Scope open_scope.
Delimit Scope open_scope with open.
Notation "x ← y ; z" := (and_then y (λ x, z))
  (at level 20, y at level 100, z at level 200, only parsing) : open_scope.
Notation "x ;; z" := (and_then x (λ _, z))
  (at level 100, z at level 200, only parsing, right associativity) : open_scope.

(** Text: a sequence of code points.  [snappy] is [u'snappy']. *)
Abbreviation unicode := (list N).
Definition snappy : unicode := [115; 110; 97; 112; 112; 121]%N.


Inductive py_compression :=
  | CompressionNone
  | CompressionBytes (b : bytes)
  | CompressionUnicode (u : unicode)
  | CompressionOther.

Inductive py_comparator :=
  | ComparatorNone
  | ComparatorCallable (cmp : Comparator)
  | ComparatorOther.


(** A Python integer stored to a C [int] or [size_t] field: it must fit. *)
Definition fits_int (z : Z) : bool := (- 2 ^ 31 <=? z) && (z <? 2 ^ 31).
Definition fits_size_t (z : Z) : bool := (0 <=? z) && (z <? 2 ^ 64).

Definition as_int {S} (z : Z) : Ctor S Z :=
  if fits_int z then finished z else failed OpenOverflowError.
Definition as_size_t {S} (z : Z) : Ctor S Z :=
  if fits_size_t z then finished z else failed OpenOverflowError.

(** The plain fields of [leveldb::Options]; the three pointers to
    engine-side resources are the [Options.t] of the handle. *)
Inductive CompressionType := kNoCompression | kSnappyCompression.

Module Settings.
Record t := {
  create_if_missing : bool;
  error_if_exists : bool;
  paranoid_checks : bool;
  write_buffer_size : Z;
  max_open_files : Z;
  block_size : Z;
  block_restart_interval : Z;
  compression : CompressionType;
}.
Definition set_create_if_missing (b : bool) (o : t) : t :=
  {| create_if_missing := b; error_if_exists := error_if_exists o;
     paranoid_checks := paranoid_checks o;
     write_buffer_size := write_buffer_size o;
     max_open_files := max_open_files o; block_size := block_size o;
     block_restart_interval := block_restart_interval o;
     compression := compression o |}.
Definition set_error_if_exists (b : bool) (o : t) : t :=
  {| create_if_missing := create_if_missing o; error_if_exists := b;
     paranoid_checks := paranoid_checks o;
     write_buffer_size := write_buffer_size o;
     max_open_files := max_open_files o; block_size := block_size o;
     block_restart_interval := block_restart_interval o;
     compression := compression o |}.
Definition set_paranoid_checks (b : bool) (o : t) : t :=
  {| create_if_missing := create_if_missing o;
     error_if_exists := error_if_exists o; paranoid_checks := b;
     write_buffer_size := write_buffer_size o;
     max_open_files := max_open_files o; block_size := block_size o;
     block_restart_interval := block_restart_interval o;
     compression := compression o |}.
Definition set_write_buffer_size (n : Z) (o : t) : t :=
  {| create_if_missing := create_if_missing o;
     error_if_exists := error_if_exists o;
     paranoid_checks := paranoid_checks o; write_buffer_size := n;
     max_open_files := max_open_files o; block_size := block_size o;
     block_restart_interval := block_restart_interval o;
     compression := compression o |}.
Definition set_max_open_files (n : Z) (o : t) : t :=
  {| create_if_missing := create_if_missing o;
     error_if_exists := error_if_exists o;
     paranoid_checks := paranoid_checks o;
     write_buffer_size := write_buffer_size o; max_open_files := n;
     block_size := block_size o;
     block_restart_interval := block_restart_interval o;
     compression := compression o |}.
Definition set_block_size (n : Z) (o : t) : t :=
  {| create_if_missing := create_if_missing o;
     error_if_exists := error_if_exists o;
     paranoid_checks := paranoid_checks o;
     write_buffer_size := write_buffer_size o;
     max_open_files := max_open_files o; block_size := n;
     block_restart_interval := block_restart_interval o;
     compression := compression o |}.
Definition set_block_restart_interval (n : Z) (o : t) : t :=
  {| create_if_missing := create_if_missing o;
     error_if_exists := error_if_exists o;
     paranoid_checks := paranoid_checks o;
     write_buffer_size := write_buffer_size o;
     max_open_files := max_open_files o; block_size := block_size o;
     block_restart_interval := n; compression := compression o |}.
Definition set_compression (c : CompressionType) (o : t) : t :=
  {| create_if_missing := create_if_missing o;
     error_if_exists := error_if_exists o;
     paranoid_checks := paranoid_checks o;
     write_buffer_size := write_buffer_size o;
     max_open_files := max_open_files o; block_size := block_size o;
     block_restart_interval := block_restart_interval o; compression := c |}.
End Settings.

(** [NewLRUCache(capacity)] takes a [size_t]: the C [int] it is given is
    converted modulo [2^64]. *)
Definition NewLRUCache (c_lru_cache_size : Z) : Z := c_lru_cache_size mod 2 ^ 64.

Definition set_block_cache (c : option Z) (o : Options.t) : Options.t :=
  {| Options.block_cache := c;
     Options.filter_policy := Options.filter_policy o;
     Options.comparator := Options.comparator o |}.
Definition set_filter_policy (f : option Z) (o : Options.t) : Options.t :=
  {| Options.block_cache := Options.block_cache o;
     Options.filter_policy := f;
     Options.comparator := Options.comparator o |}.
Definition set_comparator (c : option comparator_ptr) (o : Options.t) : Options.t :=
  {| Options.block_cache := Options.block_cache o;
     Options.filter_policy := Options.filter_policy o;
     Options.comparator := c |}.

Definition on_settings (f : Settings.t → Settings.t)
  : Ctor (Settings.t * Options.t) unit :=
  update (λ s, (f s.1, s.2)).
Definition on_resources (f : Options.t → Options.t)
  : Ctor (Settings.t * Options.t) unit :=
  update (λ s, (s.1, f s.2)).

(** [parse_options], on the options the pointer refers to.  [decode] is
    [bytes.decode('UTF-8')]; [None] is its [UnicodeDecodeError]. *)
Definition parse_options (decode : bytes → option unicode)
    (create_if_missing error_if_exists : bool) (paranoid_checks : option bool)
    (write_buffer_size max_open_files lru_cache_size block_size
       block_restart_interval : option Z)
    (compression : py_compression) (bloom_filter_bits : Z)
    (comparator : py_comparator) (comparator_name : option bytes)
  : Ctor (Settings.t * Options.t) unit :=
  (on_settings (Settings.set_create_if_missing create_if_missing);;
   on_settings (Settings.set_error_if_exists error_if_exists);;
   match paranoid_checks with
   | Some b => on_settings (Settings.set_paranoid_checks b)
   | None => skip
   end;;
   match write_buffer_size with
   | Some z => n ← as_size_t z; on_settings (Settings.set_write_buffer_size n)
   | None => skip
   end;;
   match max_open_files with
   | Some z => n ← as_int z; on_settings (Settings.set_max_open_files n)
   | None => skip
   end;;
   match lru_cache_size with
   | Some z =>
       c_lru_cache_size ← as_int z;
       on_resources (set_block_cache (Some (NewLRUCache c_lru_cache_size)))
   | None => skip
   end;;
   match block_size with
   | Some z => n ← as_size_t z; on_settings (Settings.set_block_size n)
   | None => skip
   end;;
   match block_restart_interval with
   | Some z =>
       n ← as_int z; on_settings (Settings.set_block_restart_interval n)
   | None => skip
   end;;
   match compression with
   | CompressionNone => on_settings (Settings.set_compression kNoCompression)
   | _ =>
       (* bytes are decoded first; what is not text then is a TypeError *)
       text ← match compression with
              | CompressionBytes b =>
                  match decode b with
                  | Some u => finished (Some u)
                  | None => failed OpenUnicodeDecodeError
                  end
              | CompressionUnicode u => finished (Some u)
              | _ => finished None
              end;
       match text with
       | None => failed OpenTypeError
       | Some u =>
           if decide (u = snappy)
           then on_settings (Settings.set_compression kSnappyCompression)
           else failed OpenValueError
       end
   end;;
   (if 0 <? bloom_filter_bits
    then on_resources (set_filter_policy (Some bloom_filter_bits))
    else skip);;
   (if xorb (match comparator with ComparatorNone => true | _ => false end)
            (match comparator_name with None => true | Some _ => false end)
    then failed OpenValueError   (* must be specified together *)
    else skip);;
   match comparator with
   | ComparatorNone => skip
   | ComparatorOther => failed OpenTypeError     (* not callable *)
   | ComparatorCallable cmp =>
       match comparator_name with
       | Some name => on_resources (set_comparator (Some (Callback name cmp)))
       | None => skip                            (* excluded by the check *)
       end
   end)%open.



(** ** Vocabulary of the properties of the constructor *)

(** The compression argument names no compression or snappy. *)
Definition names_compression (decode : bytes → option unicode)
    (compression : py_compression) : bool :=
  match compression with
  | CompressionNone => true
  | CompressionBytes b => bool_decide (decode b = Some snappy)
  | CompressionUnicode u => bool_decide (u = snappy)
  | CompressionOther => false
  end.

(** Neither a comparator nor a name, or a callable and its name. *)
Definition comparator_with_name (comparator : py_comparator)
    (comparator_name : option bytes) : bool :=
  match comparator, comparator_name with
  | ComparatorNone, None => true
  | ComparatorCallable _, Some _ => true
  | _, _ => false
  end.

(** The engine-side resources [parse_options] leaves in the options when
    it returns. *)
Definition parsed_resources (lru_cache_size : option Z) (bloom_filter_bits : Z)
    (comparator : py_comparator) (comparator_name : option bytes)
    (o : Options.t) : Options.t :=
  {| Options.block_cache :=
       match lru_cache_size with
       | Some z => Some (z mod 2 ^ 64)
       | None => Options.block_cache o
       end;
     Options.filter_policy :=
       if 0 <? bloom_filter_bits then Some bloom_filter_bits
       else Options.filter_policy o;
     Options.comparator :=
       match comparator, comparator_name with
       | ComparatorCallable cmp, Some name => Some (Callback name cmp)
       | _, _ => Options.comparator o
       end |}.



(** * Theorems *)

(** ** Facts about [bytes_increment] *)

Lemma byte_iadd1_to_N (x : byte) :
  x ≠ xff → Byte.to_N (byte_iadd1 x) = (Byte.to_N x + 1)%N.
Proof.
  intros Hx. unfold byte_iadd1.
  destruct (Byte.of_N (Byte.to_N x + 1)) as [y|] eqn:E.
  - by apply Byte.to_of_N in E.
  - exfalso. destruct x; try discriminate E. by apply Hx.
Qed.

Lemma bytes_increment_loop_app (b e : bytes) (n : nat) :
  (n ≤ length b)%nat →
  bytes_increment_loop (b ++ e) n = bytes_increment_loop b n.
Proof.
  induction n as [|i IH]; intros Hn; [done|].
  cbn [bytes_increment_loop].
  rewrite lookup_app_l by lia.
  destruct (b !! i) as [y|] eqn:Ey; [|done].
  destruct (decide (y = xff)); [apply IH; lia|].
  f_equal. rewrite insert_app_l by lia.
  rewrite take_app_le; [done|]. rewrite length_insert. lia.
Qed.

Lemma bytes_increment_loop_skip (l t : bytes) :
  Forall (λ x, x = xff) t →
  bytes_increment_loop (l ++ t) (length l + length t)
  = bytes_increment_loop (l ++ t) (length l).
Proof.
  revert l. induction t as [|x t IH]; intros l Ht.
  - by rewrite Nat.add_0_r.
  - apply Forall_cons in Ht as [-> Ht].
    rewrite (cons_middle xff l t), (assoc_L (++) l [xff] t).
    replace (length l + length (xff :: t))%nat
      with (length (l ++ [xff]) + length t)%nat
      by (rewrite length_app; simpl; lia).
    rewrite IH by done.
    rewrite length_app, Nat.add_comm. cbn [length Nat.add bytes_increment_loop].
    rewrite <- (assoc_L (++) l [xff] t).
    by rewrite lookup_app_r, Nat.sub_diag.
Qed.

Lemma bytes_increment_last_non_ff (p t : bytes) (x : byte) :
  x ≠ xff → Forall (λ y, y = xff) t →
  bytes_increment (p ++ x :: t) = Some (p ++ [byte_iadd1 x]).
Proof.
  intros Hx Ht. unfold bytes_increment.
  rewrite (cons_middle x p t), (assoc_L (++) p [x] t).
  rewrite length_app, bytes_increment_loop_skip by done.
  rewrite bytes_increment_loop_app by done.
  rewrite length_app, Nat.add_comm. cbn [length Nat.add bytes_increment_loop].
  rewrite lookup_app_r, Nat.sub_diag by done. simpl.
  rewrite decide_False by done. f_equal.
  rewrite insert_app_r_alt, Nat.sub_diag by done. simpl.
  apply take_ge. rewrite length_app. simpl. lia.
Qed.

Lemma bytes_increment_all_ff (k : bytes) :
  Forall (λ y, y = xff) k → bytes_increment k = None.
Proof.
  intros Hk. unfold bytes_increment.
  exact (bytes_increment_loop_skip [] k Hk).
Qed.

Lemma last_non_ff_split (k : bytes) :
  ¬ Forall (λ y, y = xff) k →
  ∃ p x t, k = p ++ x :: t ∧ x ≠ xff ∧ Forall (λ y, y = xff) t.
Proof.
  induction k as [|x k IH] using rev_ind; intros Hk.
  - destruct Hk. constructor.
  - destruct (decide (x = xff)) as [->|Hx].
    + destruct IH as (p & y & t & -> & Hy & Ht).
      { intros Hall. apply Hk. apply Forall_app. split; [done|].
        by apply Forall_singleton. }
      exists p, y, (t ++ [xff]). split_and!; [|done|].
      * by rewrite <- (assoc_L (++)).
      * apply Forall_app. split; [done|]. by apply Forall_singleton.
    + exists k, x, []. split_and!; [done..|constructor].
Qed.

(** C5. [bytes_increment k] is [None] exactly when every byte of [k] is
    [0xff]; otherwise it is [k] cut after its last byte different from
    [0xff], with that byte raised by one.  In particular
    [bytes_increment(b"\xff\xff")] is [None] and [bytes_increment(b"a\xff")]
    is [b"b"]. *)
Theorem bytes_increment_spec (k : bytes) :
  (bytes_increment k = None ↔ Forall (λ y, y = xff) k) ∧
  (∀ p x t, k = p ++ x :: t → x ≠ xff → Forall (λ y, y = xff) t →
     ∃ x', Byte.to_N x' = (Byte.to_N x + 1)%N ∧
           bytes_increment k = Some (p ++ [x'])) ∧
  bytes_increment [xff; xff] = None ∧
  bytes_increment ["a"%byte; xff] = Some ["b"%byte].
Proof.
  split_and!; [split|..|done|done].
  - intros Hnone. destruct (decide (Forall (λ y, y = xff) k)) as [|Hk]; [done|].
    apply last_non_ff_split in Hk as (p & x & t & -> & Hx & Ht).
    by rewrite bytes_increment_last_non_ff in Hnone.
  - apply bytes_increment_all_ff.
  - intros p x t -> Hx Ht. exists (byte_iadd1 x). split.
    + by apply byte_iadd1_to_N.
    + by apply bytes_increment_last_non_ff.
Qed.

(** ** The order a comparator induces *)

Section comparator_order.
Variable cmp : Comparator.

Lemma Compare_refl a : Compare cmp a a = 0.
Proof. pose proof (Compare_antisym cmp a a). lia. Qed.

Lemma Compare_lt_le_trans a b c :
  Compare cmp a b < 0 → Compare cmp b c <= 0 → Compare cmp a c < 0.
Proof.
  intros Hab Hbc.
  destruct (Z.lt_ge_cases (Compare cmp a c) 0) as [|Hac]; [done|].
  assert (Compare cmp c a <= 0) as Hca
    by (pose proof (Compare_antisym cmp a c); lia).
  pose proof (Compare_trans cmp b c a Hbc Hca).
  pose proof (Compare_antisym cmp a b). lia.
Qed.

Lemma Compare_lt_trans a b c :
  Compare cmp a b < 0 → Compare cmp b c < 0 → Compare cmp a c < 0.
Proof. intros Hab Hbc. apply (Compare_lt_le_trans a b c); lia. Qed.
End comparator_order.

(** All the order facts about three keys, for [lia] to combine. *)
Ltac order_facts cmp a b c :=
  pose proof (Compare_antisym cmp a b);
  pose proof (Compare_antisym cmp a c);
  pose proof (Compare_antisym cmp b c);
  pose proof (Compare_trans cmp a b c);
  pose proof (Compare_trans cmp a c b);
  pose proof (Compare_trans cmp b a c);
  pose proof (Compare_trans cmp b c a);
  pose proof (Compare_trans cmp c a b);
  pose proof (Compare_trans cmp c b a).

Ltac run_method :=
  cbv [bind ret raise get modify pass iter_do iter_Valid iter_entry iter_key
       iter_value iter_status check_status slice_from stop_unless_valid
       lift_result check_open emit].

(** ** Seek *)

Lemma clamp_above_stop cmp st s' target :
  0 < Compare cmp target s' →
  clamp_into_window cmp st (Some s') target = s'.
Proof.
  intros Habove. unfold clamp_into_window, key_min, key_max.
  destruct st as [s|]; simpl; [|by rewrite (proj2 (Z.ltb_lt _ _))].
  destruct (Z.ltb_spec (Compare cmp target s) 0) as [Hlt|Hge].
  - rewrite (proj2 (Z.ltb_lt 0 (Compare cmp s s'))); [done|].
    order_facts cmp target s s'. lia.
  - by rewrite (proj2 (Z.ltb_lt _ _)).
Qed.

(** C9, as stated, fails on a window whose [start] is above its [stop],
    which [db.iterator(start=b"c", stop=b"a")] makes: the target [b"b"] is
    below [start], and [seek] puts the cursor on [b"a"], the stop key, not
    on the start key [b"c"]. *)
Lemma seek_inverted_window_counterexample :
  let it := sample_iterator sample_entries false (Some key_c) (Some key_a)
              true false in
  Compare (comparator it) key_b key_c < 0 ∧
  clamp_into_window (comparator it) (start it) (stop it) key_b = key_a ∧
  seek key_b it
  = (Return tt, moved IN_BETWEEN_ALREADY_POSITIONED sample_entries (Some 0%nat) it) ∧
  cur_entry {| entries := sample_entries; pos := Some 0%nat; status := StatusOK |}
  = Some (key_a, val_1) ∧
  first_at_or_past (comparator it) key_c sample_entries = Some 2%nat.
Proof. split_and!; reflexivity. Qed.

(** C9 (amended). On a live iterator [seek] clamps the target: a target
    inside the window is kept; a target below [start] is replaced by
    [start], and then by [stop] when [start] is above [stop]; a target above
    [stop] is replaced by [stop].  It positions the cursor at the clamped
    target and sets the state to [IN_BETWEEN_ALREADY_POSITIONED] if the
    cursor is valid and to [AFTER_STOP] otherwise.  No target makes it
    raise: it returns, unless the cursor is valid and has an error status,
    which it raises. *)
Theorem seek_clamps_and_positions (it : Iterator) (c : leveldb_Iterator)
    (target : bytes) :
  _iter it = Some c →
  let cmp := comparator it in
  let t := clamp_into_window cmp (start it) (stop it) target in
  let c' := Seek cmp t c in
  seek target it =
    (if Valid c' then raise_for_status (status c) else Return tt,
     set_state (if Valid c' then IN_BETWEEN_ALREADY_POSITIONED else AFTER_STOP)
               (set_iter (Some c') it)) ∧
  ((∀ s, start it = Some s → 0 <= Compare cmp target s) →
   (∀ s', stop it = Some s' → Compare cmp target s' <= 0) → t = target) ∧
  (∀ s, start it = Some s → Compare cmp target s < 0 →
        t = match stop it with
            | Some s' => if 0 <? Compare cmp s s' then s' else s
            | None => s
            end) ∧
  (∀ s', stop it = Some s' → 0 < Compare cmp target s' → t = s').
Proof.
  intros Hlive cmp t c'. split_and!.
  - subst cmp t c'. destruct it as [ci dir st cmp s s' i1 i2 ik iv sk].
    simpl in *. subst ci. unfold seek. run_method. simpl.
    unfold clamp_into_window, key_max, key_min.
    destruct s as [s|], s' as [s'|]; simpl;
      by destruct (first_at_or_past _ _ _ ≫= _).
  - intros Hstart Hstop. unfold t, clamp_into_window, key_max, key_min.
    destruct (start it) as [s|]; simpl.
    + specialize (Hstart s eq_refl).
      rewrite (proj2 (Z.ltb_ge _ _)) by done.
      destruct (stop it) as [s'|]; simpl; [|done].
      specialize (Hstop s' eq_refl). by rewrite (proj2 (Z.ltb_ge _ _)).
    + destruct (stop it) as [s'|]; simpl; [|done].
      specialize (Hstop s' eq_refl). by rewrite (proj2 (Z.ltb_ge _ _)).
  - intros s Hs Hbelow. unfold t, clamp_into_window, key_max, key_min.
    rewrite Hs. simpl. by rewrite (proj2 (Z.ltb_lt _ _)) by done.
  - intros s' Hs' Habove. unfold t. rewrite Hs'.
    by apply clamp_above_stop.
Qed.

Lemma seek_clamps_and_positions_witness :
  _iter seek_sample
  = Some {| entries := sample_entries; pos := None; status := StatusOK |} ∧
  seek key_c seek_sample =
    (Return tt,
     set_state IN_BETWEEN_ALREADY_POSITIONED
       (set_iter (Some {| entries := sample_entries; pos := Some 1%nat;
                          status := StatusOK |})
                 seek_sample)).
Proof.
  split; [reflexivity|].
  exact (proj1 (seek_clamps_and_positions seek_sample
                  {| entries := sample_entries; pos := None; status := StatusOK |}
                  key_c eq_refl)).
Defined.

(** ** Bound derivation at construction *)

Lemma Iterator__init___closed self_id key_prefix reverse start_arg stop_arg
    include_start_arg include_stop_arg prefix_arg include_key_arg
    include_value_arg verify_checksums fill_cache snapshot db :
  _db db = None →
  Iterator__init__ self_id key_prefix reverse start_arg stop_arg
    include_start_arg include_stop_arg prefix_arg include_key_arg
    include_value_arg verify_checksums fill_cache snapshot db
  = (Raise RuntimeError, db).
Proof.
  intros Hclosed. unfold Iterator__init__. run_method. by rewrite Hclosed.
Qed.

(** Construction succeeds on an open handle when no [prefix] is given, and
    registers the new iterator. *)
Lemma Iterator__init___no_prefix_returns self_id key_prefix reverse start_arg
    stop_arg include_start_arg include_stop_arg include_key_arg
    include_value_arg verify_checksums fill_cache snapshot db e reg :
  _db db = Some e → iterators db = Some reg →
  ∃ it,
    Iterator__init__ self_id key_prefix reverse start_arg stop_arg
      include_start_arg include_stop_arg None include_key_arg
      include_value_arg verify_checksums fill_cache snapshot db
    = (Return it, set_iterators (Some ({[self_id]} ∪ reg)) db).
Proof.
  intros Hopen Hreg. unfold Iterator__init__, _register_iterator. run_method.
  rewrite Hopen.
  destruct key_prefix as [P|], start_arg as [s|], stop_arg as [s'|];
    simpl; rewrite Hreg; eauto.
Qed.

(** C6. Construction with a namespace key prefix [P] and no [prefix]
    argument raises [RuntimeError] on a closed handle and returns a
    registered iterator on an open one, and every iterator it returns has
    these effective bounds: [start] is [P + start] if a start key was
    given, else [P] itself with [include_start] true; [stop] is [P + stop]
    if a stop key was given, else [bytes_increment(P)] with [include_stop]
    false. *)
Theorem namespace_bounds self_id (P : bytes) reverse start_arg stop_arg
    include_start_arg include_stop_arg include_key_arg include_value_arg
    verify_checksums fill_cache snapshot db :
  let construct :=
    Iterator__init__ self_id (Some P) reverse start_arg stop_arg
      include_start_arg include_stop_arg None include_key_arg
      include_value_arg verify_checksums fill_cache snapshot db in
  (∀ it db', construct = (Return it, db') →
     start it = Some (match start_arg with Some s => P ++ s | None => P end) ∧
     include_start it =
       match start_arg with Some _ => include_start_arg | None => true end ∧
     stop it =
       match stop_arg with Some s => Some (P ++ s) | None => bytes_increment P end ∧
     include_stop it =
       match stop_arg with Some _ => include_stop_arg | None => false end) ∧
  (∀ e reg, _db db = Some e → iterators db = Some reg →
     ∃ it, construct = (Return it, set_iterators (Some ({[self_id]} ∪ reg)) db)) ∧
  (_db db = None → construct = (Raise RuntimeError, db)).
Proof.
  intros construct. subst construct. split_and!.
  - intros it db'. unfold Iterator__init__, _register_iterator. run_method.
    destruct (_db db) as [e|]; [|done].
    destruct start_arg as [s|], stop_arg as [s'|]; simpl;
      destruct (iterators db); intros [= <- _]; done.
  - intros e reg Hopen Hreg. by apply Iterator__init___no_prefix_returns with e.
  - apply Iterator__init___closed.
Qed.

(** The bounds of C6 on the sample store, for each choice of giving a start
    and a stop key. *)
Lemma namespace_bounds_examples :
  let bounds start_arg stop_arg :=
    match (Iterator__init__ 1 (Some key_a) false start_arg stop_arg false true
             None true true false false None (open_db sample_entries)).1 with
    | Return it => Some (start it, include_start it, stop it, include_stop it)
    | Raise _ => None
    end in
  bounds None None = Some (Some key_a, true, Some key_b, false) ∧
  bounds (Some key_b) None = Some (Some (key_a ++ key_b), false, Some key_b, false) ∧
  bounds None (Some key_c) = Some (Some key_a, true, Some (key_a ++ key_c), true) ∧
  bounds (Some key_b) (Some key_c)
  = Some (Some (key_a ++ key_b), false, Some (key_a ++ key_c), true) ∧
  Iterator__init__ 1 (Some key_a) false None (Some key_c) false true None
    true true false false None (open_db sample_entries)
  = (Return namespace_sample,
     set_iterators (Some ({[1%nat]} ∪ ∅)) (open_db sample_entries)).
Proof. split_and!; reflexivity. Qed.

(** C7. When a [prefix] argument is given (the namespace prefix, if any,
    prepended to it): if a start or stop key is also given, construction
    fails with a usage error, [TypeError] on an open handle and the
    closed-handle [RuntimeError] otherwise; if neither is given, every
    iterator that construction returns has [start = prefix] with
    [include_start] true and [stop = bytes_increment(prefix)] with
    [include_stop] false, whatever [include_start] and [include_stop] the
    caller passed, and construction does return one on an open handle. *)
Theorem prefix_bounds self_id key_prefix reverse start_arg stop_arg
    include_start_arg include_stop_arg (p : bytes) include_key_arg
    include_value_arg verify_checksums fill_cache snapshot db :
  let prefix' := match key_prefix with Some P => P ++ p | None => p end in
  let construct :=
    Iterator__init__ self_id key_prefix reverse start_arg stop_arg
      include_start_arg include_stop_arg (Some p) include_key_arg
      include_value_arg verify_checksums fill_cache snapshot db in
  (is_Some start_arg ∨ is_Some stop_arg →
     construct =
       (Raise (match _db db with Some _ => TypeError | None => RuntimeError end),
        db)) ∧
  (start_arg = None → stop_arg = None →
     (∀ it db', construct = (Return it, db') →
        start it = Some prefix' ∧ include_start it = true ∧
        stop it = bytes_increment prefix' ∧ include_stop it = false) ∧
     (∀ e reg, _db db = Some e → iterators db = Some reg →
        ∃ it, construct
              = (Return it, set_iterators (Some ({[self_id]} ∪ reg)) db))).
Proof.
  intros prefix' construct. subst prefix' construct. split.
  - intros Hgiven. unfold Iterator__init__. run_method.
    destruct (_db db) as [e|]; [|done].
    destruct key_prefix as [P|], start_arg as [s|], stop_arg as [s'|];
      simpl; try done.
    all: destruct Hgiven as [[? [=]]|[? [=]]].
  - intros -> ->. split.
    + intros it db'. unfold Iterator__init__, _register_iterator. run_method.
      destruct (_db db) as [e|]; [|done].
      destruct key_prefix as [P|]; simpl;
        destruct (iterators db); intros [= <- _]; done.
    + intros e reg Hopen Hreg.
      unfold Iterator__init__, _register_iterator. run_method.
      rewrite Hopen. destruct key_prefix as [P|]; simpl; rewrite Hreg;
        by eexists.
Qed.

(** The two outcomes of C7 on the sample store. *)
Lemma prefix_bounds_examples :
  Iterator__init__ 1 None false (Some key_a) None true false (Some key_b)
    true true false false None (open_db sample_entries)
  = (Raise TypeError, open_db sample_entries) ∧
  (Iterator__init__ 1 (Some key_a) true None None false true (Some key_b)
     true true false false None (open_db sample_entries)).1
  = Return {| _iter := Some {| entries := sample_entries; pos := None;
                                status := StatusOK |};
              direction := REVERSE; state := AFTER_STOP;
              comparator := BytewiseComparator;
              start := Some (key_a ++ key_b);
              stop := Some (key_a ++ key_c);
              include_start := true; include_stop := false;
              include_key := true; include_value := true;
              skip_key_bytes := 1 |}.
Proof. split; reflexivity. Qed.

(** ** Write batch as a scope *)

Lemma WriteBatch__exit___closed exc wb db :
  _db db = None →
  WriteBatch__exit__ exc (wb, db) = (Raise RuntimeError, (wb, db)).
Proof.
  destruct db as [e o r]. simpl. intros ->.
  unfold WriteBatch__exit__. by run_method; cbv [fst snd].
Qed.

(** [__exit__] on a normal exit, and on any exit of a batch that is not a
    transaction, is [write()] followed by [clear()]. *)
Lemma WriteBatch__exit___commits exc wb db :
  transaction wb && bool_decide (is_Some exc) = false →
  WriteBatch__exit__ exc (wb, db)
  = (WriteBatch_write;; WriteBatch_clear)%method (wb, db).
Proof.
  destruct db as [[e|] o r], wb as [ops p tx]; simpl; intros Hcommit;
    unfold WriteBatch__exit__, WriteBatch_write; run_method; cbv [fst snd]; simpl; [|done].
  by rewrite Hcommit.
Qed.

Lemma WriteBatch__exit___rolls_back exc wb db :
  transaction wb = true →
  WriteBatch__exit__ (Some exc) (wb, db) = WriteBatch_clear (wb, db).
Proof.
  destruct db as [[e|] o r], wb as [ops p tx]; simpl; intros ->;
    unfold WriteBatch__exit__, WriteBatch_clear; by run_method; cbv [fst snd].
Qed.

(** [write()] on an open handle: the engine's verdict decides. *)
Lemma WriteBatch_write_open wb db e :
  _db db = Some e →
  WriteBatch_write (wb, db)
  = (raise_for_status (write_status e),
     (wb,
      match write_status e with
      | StatusOK =>
          set_db (Some (set_contents
            (leveldb_Write (DB_comparator db) (_write_batch wb) (contents e)) e)) db
      | _ => db
      end)).
Proof.
  destruct db as [e' o r], wb as [ops p tx]. simpl. intros ->.
  unfold WriteBatch_write, leveldb_DB_Write, write_outcome. run_method.
  cbv [fst snd]. simpl. by destruct (write_status e).
Qed.

Lemma raise_for_status_refused st :
  st ≠ StatusOK → ∃ x, raise_for_status st = Raise x.
Proof. destruct st; [done|by eexists..]. Qed.

Lemma with_exit_commits exc wb db e :
  _db db = Some e → write_status e = StatusOK →
  transaction wb && bool_decide (is_Some exc) = false →
  scope_commits exc wb db.
Proof.
  intros Hopen Hok Hcommit. exists e. split; [done|].
  unfold with_exit. unfold bind at 1.
  rewrite (WriteBatch__exit___commits exc wb db Hcommit).
  unfold bind at 1. rewrite (WriteBatch_write_open wb db e Hopen), Hok. simpl.
  destruct db as [e' o r], wb as [ops p tx]. simpl in *. subst e'.
  unfold WriteBatch_clear. run_method. cbv [fst snd]. simpl. by destruct exc.
Qed.

Lemma with_exit_fails_to_write exc wb db e :
  _db db = Some e → write_status e ≠ StatusOK →
  transaction wb && bool_decide (is_Some exc) = false →
  scope_fails_to_write exc wb db.
Proof.
  intros Hopen Hbad Hcommit.
  destruct (raise_for_status_refused _ Hbad) as [x Hx].
  exists e, x. split_and!; [done..|].
  unfold with_exit. unfold bind at 1.
  rewrite (WriteBatch__exit___commits exc wb db Hcommit).
  unfold bind at 1. rewrite (WriteBatch_write_open wb db e Hopen), Hx.
  by destruct (write_status e).
Qed.

(** C8, as stated, fails in two ways.  When the handle was closed inside
    the scope, a transaction batch leaving the scope on a failure raises
    [RuntimeError] in place of that failure, and its staged operation is not
    cleared.  When the engine refuses the write, a normal exit raises the
    engine's error and [clear()] does not run: the staged operation stays
    in the batch. *)
Lemma scope_exit_closed_handle_counterexample :
  with_exit (Some Error) (sample_batch true, closed_db)
  = (Raise RuntimeError, (sample_batch true, closed_db)) ∧
  ¬ scope_rolls_back Error (sample_batch true) closed_db ∧
  ¬ scope_commits None (sample_batch true) closed_db ∧
  with_exit None (sample_batch true, refusing_db sample_entries)
  = (Raise Error_IOError, (sample_batch true, refusing_db sample_entries)) ∧
  ¬ scope_commits None (sample_batch true) (refusing_db sample_entries).
Proof.
  split_and!; [reflexivity|discriminate| |reflexivity|].
  - intros (e & Hopen & _). discriminate Hopen.
  - intros (e & _ & Hexit). discriminate Hexit.
Qed.

(** C8 (amended). For a batch whose handle is open when the scope ends: on a
    normal exit [__exit__] is [write()] then [clear()]; when the engine
    accepts the write the staged operations are applied to the store and
    the batch is emptied, and when it refuses the write its error is
    raised, [clear()] does not run, and the store and the batch stay as
    they were.  On an exit by a failure of a transaction batch [__exit__]
    is [clear()] alone, so the store is unchanged and the batch is emptied,
    and that failure is raised again unchanged. *)
Theorem scope_exit_open_handle (wb : WriteBatch) (db : DB) (e : leveldb_DB) :
  _db db = Some e →
  (WriteBatch__exit__ None (wb, db)
     = (WriteBatch_write;; WriteBatch_clear)%method (wb, db) ∧
   (write_status e = StatusOK → scope_commits None wb db) ∧
   (write_status e ≠ StatusOK → scope_fails_to_write None wb db)) ∧
  (transaction wb = true → ∀ exc,
     WriteBatch__exit__ (Some exc) (wb, db) = WriteBatch_clear (wb, db) ∧
     scope_rolls_back exc wb db).
Proof.
  intros Hopen. split_and!.
  - apply WriteBatch__exit___commits. by rewrite andb_false_r.
  - intros Hok. apply (with_exit_commits None wb db e); [done..|].
    by rewrite andb_false_r.
  - intros Hbad. apply (with_exit_fails_to_write None wb db e); [done..|].
    by rewrite andb_false_r.
  - intros Htx exc. split; [by apply WriteBatch__exit___rolls_back|].
    destruct db as [e' o r], wb as [ops p tx]. simpl in *. subst e' tx.
    unfold scope_rolls_back, with_exit, WriteBatch__exit__, WriteBatch_clear.
    by run_method; cbv [fst snd].
Qed.

Lemma scope_exit_open_handle_witness :
  _db (open_db sample_entries)
  = Some {| contents := sample_entries; write_status := StatusOK |} ∧
  scope_commits None (sample_batch true) (open_db sample_entries).
Proof.
  split; [reflexivity|].
  exact (proj1 (proj2 (proj1 (scope_exit_open_handle (sample_batch true)
                         (open_db sample_entries)
                         {| contents := sample_entries; write_status := StatusOK |}
                         eq_refl))) eq_refl).
Defined.

(** C10, as stated, fails in two ways.  When the handle was closed inside
    the scope, the staged put is neither applied nor cleared, and
    [RuntimeError] is raised in place of the failure that ended the scope.
    When the engine refuses the write, the staged put is neither applied
    nor cleared, and the engine's error is raised in place of the failure
    that ended the scope. *)
Lemma plain_batch_closed_handle_counterexample :
  with_exit (Some Error) (sample_batch false, closed_db)
  = (Raise RuntimeError, (sample_batch false, closed_db)) ∧
  ¬ scope_commits (Some Error) (sample_batch false) closed_db ∧
  with_exit (Some TypeError) (sample_batch false, refusing_db sample_entries)
  = (Raise Error_IOError, (sample_batch false, refusing_db sample_entries)) ∧
  ¬ scope_commits (Some TypeError) (sample_batch false)
      (refusing_db sample_entries).
Proof.
  split_and!; [reflexivity| |reflexivity|].
  - intros (e & Hopen & _). discriminate Hopen.
  - intros (e & _ & Hexit). discriminate Hexit.
Qed.

(** C10 (amended). For a batch created with transaction mode disabled whose
    handle is open when the scope ends, an exit by a failure still runs
    [write()] then [clear()].  When the engine accepts the write, the
    staged operations are applied to the store, the batch is emptied, and
    then the failure is raised again.  When the engine refuses the write,
    its error is raised in place of that failure, [clear()] does not run,
    and the store and the batch stay as they were. *)
Theorem plain_batch_commits_on_failure (wb : WriteBatch) (db : DB)
    (e : leveldb_DB) (exc : exn) :
  _db db = Some e → transaction wb = false →
  WriteBatch__exit__ (Some exc) (wb, db)
    = (WriteBatch_write;; WriteBatch_clear)%method (wb, db) ∧
  (write_status e = StatusOK → scope_commits (Some exc) wb db) ∧
  (write_status e ≠ StatusOK → scope_fails_to_write (Some exc) wb db).
Proof.
  intros Hopen Hplain. split_and!.
  - apply WriteBatch__exit___commits. by rewrite Hplain.
  - intros Hok. apply (with_exit_commits (Some exc) wb db e); [done..|].
    by rewrite Hplain.
  - intros Hbad. apply (with_exit_fails_to_write (Some exc) wb db e); [done..|].
    by rewrite Hplain.
Qed.

Lemma plain_batch_commits_on_failure_witness :
  _db (open_db sample_entries)
  = Some {| contents := sample_entries; write_status := StatusOK |} ∧
  transaction (sample_batch false) = false ∧
  scope_commits (Some Error) (sample_batch false) (open_db sample_entries).
Proof.
  split_and!; [reflexivity..|].
  exact (proj1 (proj2 (plain_batch_commits_on_failure (sample_batch false)
                  (open_db sample_entries)
                  {| contents := sample_entries; write_status := StatusOK |}
                  Error eq_refl eq_refl)) eq_refl).
Defined.

(** A transaction scope on the sample store: a put and a delete are staged;
    leaving the scope normally applies both, leaving it on a failure
    applies neither. *)
Lemma batch_scope_scenario :
  let staged :=
    (WriteBatch__enter__;; WriteBatch_put key_b val_3;;
     WriteBatch_delete key_a)%method
      ({| _write_batch := []; prefix := None; transaction := true |},
       open_db sample_entries) in
  staged.1 = Return tt ∧
  (_db (with_exit None staged.2).2.2)
    = Some {| contents := [(key_b, val_3); (key_c, val_3)];
              write_status := StatusOK |} ∧
  (with_exit (Some Error) staged.2).1 = Raise Error ∧
  (_db (with_exit (Some Error) staged.2).2.2)
    = Some {| contents := sample_entries; write_status := StatusOK |}.
Proof. split_and!; by vm_compute. Qed.

(** ** Closing the handle *)

Lemma all_before_app3 (P Q R : event → bool) (l1 l2 l3 : list event) :
  Forall (λ e, P e = true ∧ Q e = false ∧ R e = false) l1 →
  Forall (λ e, P e = false ∧ Q e = true ∧ R e = false) l2 →
  Forall (λ e, P e = false ∧ Q e = false ∧ R e = true) l3 →
  all_before P Q (l1 ++ l2 ++ l3) ∧ all_before Q R (l1 ++ l2 ++ l3).
Proof.
  intros H1 H2 H3.
  assert (∀ i e, (l1 ++ l2 ++ l3) !! i = Some e →
            (P e = true → (i < length l1)%nat) ∧
            (Q e = true → (length l1 ≤ i < length l1 + length l2)%nat) ∧
            (R e = true → (length l1 + length l2 ≤ i)%nat)) as Hpos.
  { intros i e Hi.
    apply lookup_app_Some in Hi as [Hi|[Hge Hi]].
    - pose proof (lookup_lt_Some _ _ _ Hi).
      eapply Forall_lookup_1 in H1 as (? & ? & ?); [|done].
      split_and!; [done|congruence..].
    - apply lookup_app_Some in Hi as [Hi|[Hge' Hi]].
      + pose proof (lookup_lt_Some _ _ _ Hi).
        eapply Forall_lookup_1 in H2 as (? & ? & ?); [|done].
        split_and!; [congruence|lia|congruence].
      + eapply Forall_lookup_1 in H3 as (? & ? & ?); [|done].
        split_and!; [congruence..|lia]. }
  split; intros i j e1 e2 Hi Hj He1 He2;
    apply Hpos in Hi as (HP1 & HQ1 & HR1); apply Hpos in Hj as (HP2 & HQ2 & HR2).
  - specialize (HP1 He1). specialize (HQ2 He2). lia.
  - specialize (HQ1 He1). specialize (HR2 He2). lia.
Qed.

Lemma set_iter_None_closed it : _iter it = None → set_iter None it = it.
Proof. destruct it. simpl. by intros ->. Qed.

Lemma Iterator_close_effect id w :
  Iterator_close id w
  = (Return tt,
     {| the_db := the_db w;
        heap := if open_cursor (heap w) id
                then alter (set_iter None) id (heap w) else heap w;
        trace := trace w ++
                 (if open_cursor (heap w) id then [DeleteIterator id] else []) |}).
Proof.
  unfold Iterator_close, open_cursor. run_method. destruct w as [d h tr]. simpl.
  destruct (h !! id) as [it|] eqn:Hid; [|by rewrite app_nil_r].
  destruct (_iter it) eqn:Hit; [|by rewrite app_nil_r].
  unfold on_heap. simpl. do 3 f_equal.
  apply map_eq. intros j. rewrite lookup_insert, lookup_alter.
  case_decide; subst; by rewrite ?Hid.
Qed.

(** The loop of [DB.close] over ids without repetition: it releases the
    open cursors among them, in the order of the ids, and unsets them. *)
Lemma for_each_Iterator_close_effect (ids : list nat) (w : World) :
  NoDup ids →
  ∃ h,
    for_each ids Iterator_close w
    = (Return tt,
       {| the_db := the_db w; heap := h;
          trace := trace w ++
                   (DeleteIterator <$> List.filter (open_cursor (heap w)) ids) |}) ∧
    ∀ id, h !! id
          = (λ it, if decide (id ∈ ids) then set_iter None it else it)
              <$> heap w !! id.
Proof.
  revert w. induction ids as [|id ids IH]; intros w Hnd.
  - exists (heap w). simpl. unfold pass, ret. rewrite app_nil_r. destruct w.
    split; [done|]. intros id. simpl.
    by destruct (_ !! id).
  - apply NoDup_cons in Hnd as [Hid Hnd]. simpl. unfold bind at 1.
    rewrite Iterator_close_effect.
    destruct (IH {| the_db := the_db w;
                    heap := if open_cursor (heap w) id
                            then alter (set_iter None) id (heap w) else heap w;
                    trace := trace w ++
                             (if open_cursor (heap w) id
                              then [DeleteIterator id] else []) |} Hnd)
      as (h & -> & Hh).
    exists h. simpl. split.
    + do 2 f_equal. rewrite <- (assoc_L (++)). f_equal.
      assert (List.filter
                (open_cursor (if open_cursor (heap w) id
                              then alter (set_iter None) id (heap w)
                              else heap w)) ids
              = List.filter (open_cursor (heap w)) ids) as ->.
      { apply List.filter_ext_in. intros j Hj.
        apply list_elem_of_In in Hj.
        destruct (open_cursor (heap w) id); [|done].
        unfold open_cursor. rewrite lookup_alter_ne; [done|]. by intros ->. }
      by destruct (open_cursor (heap w) id).
    + intros j. rewrite Hh. cbn [heap].
      destruct (decide (j = id)) as [->|Hne].
      * assert (id ∈ id :: ids) as Hhere by apply list_elem_of_here.
        unfold open_cursor. destruct (heap w !! id) as [it|] eqn:Hit.
        -- destruct (_iter it) eqn:Hc.
           ++ rewrite lookup_alter_eq, Hit. cbn [fmap option_fmap option_map].
              by repeat case_decide.
           ++ rewrite Hit. cbn [fmap option_fmap option_map].
              repeat case_decide; try done. by rewrite set_iter_None_closed.
        -- by rewrite Hit.
      * assert ((if open_cursor (heap w) id
                 then alter (set_iter None) id (heap w) else heap w) !! j
                = heap w !! j) as ->.
        { destruct (open_cursor (heap w) id); [|done].
          by rewrite lookup_alter_ne. }
        destruct (heap w !! j); [|done]. cbn [fmap option_fmap option_map].
        repeat case_decide; try done; exfalso;
          match goal with
          | Hn : _ ∉ _ :: _ |- _ => apply Hn; by apply list_elem_of_further
          | Hin : _ ∈ _ :: _ |- _ => by apply elem_of_cons in Hin as [?|?]
          end.
Qed.

(** The world [DB.close] leaves and the releases it makes, in full. *)
Lemma DB_close_effect (w : World) :
  let o := options (the_db w) in
  ∃ h,
    DB_close w
    = (Return tt,
       {| the_db :=
            {| _db := None;
               options :=
                 {| Options.block_cache := None;
                    Options.filter_policy := None;
                    Options.comparator :=
                      match Options.comparator o with
                      | Some Builtin => Some Builtin
                      | _ => None
                      end |};
               iterators := match iterators (the_db w) with
                            | Some _ => Some ∅
                            | None => None
                            end |};
          heap := h;
          trace := trace w ++
            (DeleteIterator
               <$> List.filter (open_cursor (heap w))
                     (elements (registered (the_db w)))) ++
            match _db (the_db w) with Some _ => [DeleteDB] | None => [] end ++
            match Options.block_cache o with
            | Some _ => [DeleteBlockCache] | None => [] end ++
            match Options.filter_policy o with
            | Some _ => [DeleteFilterPolicy] | None => [] end ++
            match Options.comparator o with
            | Some (Callback _ _) => [DeleteComparator] | _ => [] end |}) ∧
    ∀ id, h !! id
          = (λ it, if decide (id ∈ registered (the_db w))
                   then set_iter None it else it) <$> heap w !! id.
Proof.
  destruct w as [[e [bc fp cp] r] h tr]. unfold registered. simpl.
  destruct r as [reg|].
  - destruct (for_each_Iterator_close_effect (elements reg)
      {| the_db := {| _db := e;
                      options := {| Options.block_cache := bc;
                                    Options.filter_policy := fp;
                                    Options.comparator := cp |};
                      iterators := Some reg |};
         heap := h; trace := tr |} (NoDup_elements reg)) as (h' & Hloop & Hh').
    exists h'. split.
    + unfold DB_close. run_method. simpl. rewrite Hloop. simpl.
      destruct e as [e|], bc as [bc|], fp as [fp|], cp as [[|name cmp]|]; simpl;
        unfold on_db, set_db, set_options, set_iterators; simpl;
        rewrite <- ?(assoc_L (++)); simpl; by rewrite ?app_nil_r.
    + intros id. rewrite Hh'. cbn [heap]. destruct (h !! id); [|done].
      cbn [fmap option_fmap option_map].
      repeat case_decide; try done; exfalso;
        match goal with
        | Hn : _ ∉ elements _ |- _ => by apply Hn, elem_of_elements
        | Hin : _ ∈ elements _ |- _ => by apply elem_of_elements in Hin
        end.
  - exists h. split.
    + unfold DB_close. run_method. simpl. rewrite elements_empty. simpl.
      destruct e as [e|], bc as [bc|], fp as [fp|], cp as [[|name cmp]|]; simpl;
        unfold on_db, set_db, set_options, set_iterators; simpl;
        rewrite <- ?(assoc_L (++)); simpl; by rewrite ?app_nil_r.
    + intros id. destruct (h !! id); [|done].
      cbn [fmap option_fmap option_map].
      case_decide as Hin; [by apply not_elem_of_empty in Hin|done].
Qed.

Lemma close_events_effect (w : World) :
  close_events w
  = (DeleteIterator
       <$> List.filter (open_cursor (heap w)) (elements (registered (the_db w)))) ++
    match _db (the_db w) with Some _ => [DeleteDB] | None => [] end ++
    match Options.block_cache (options (the_db w)) with
    | Some _ => [DeleteBlockCache] | None => [] end ++
    match Options.filter_policy (options (the_db w)) with
    | Some _ => [DeleteFilterPolicy] | None => [] end ++
    match Options.comparator (options (the_db w)) with
    | Some (Callback _ _) => [DeleteComparator] | _ => [] end.
Proof.
  destruct (DB_close_effect w) as (h & Hclose & _).
  unfold close_events. rewrite Hclose. simpl. by rewrite drop_app_length.
Qed.

Ltac not_in_list H :=
  repeat (apply elem_of_cons in H as [H|H]; [discriminate H|]);
  by apply elem_of_nil in H.

(** C4, as stated, fails: on a handle with a block cache the engine
    connection is closed before the cache is released. *)
Lemma close_order_counterexample :
  close_events sample_world
  = [DeleteIterator 7; DeleteDB; DeleteBlockCache; DeleteFilterPolicy;
     DeleteComparator] ∧
  ¬ all_before is_option_release is_engine_close (close_events sample_world).
Proof.
  assert (close_events sample_world
          = [DeleteIterator 7; DeleteDB; DeleteBlockCache; DeleteFilterPolicy;
             DeleteComparator]) as Hev by (vm_compute; reflexivity).
  split; [done|]. rewrite Hev. intros Hbefore.
  specialize (Hbefore 2%nat 1%nat DeleteBlockCache DeleteDB
                eq_refl eq_refl eq_refl eq_refl).
  lia.
Qed.

(** C4 (amended). [DB.close] never raises and makes exactly these
    releases, in this order: first the cursor of every registered iterator
    that is alive and open, then the engine connection if there is one, and
    only then the option resources that are set (block cache, filter
    policy, callback comparator).  Afterwards every registered iterator is
    closed, the connection and the cache and filter pointers are [NULL], a
    callback comparator is unset, and the shared built-in comparator is
    neither released nor unset. *)
Theorem DB_close_order (w : World) :
  ∃ w',
    DB_close w = (Return tt, w') ∧
    trace w' = trace w ++ close_events w ∧
    close_events w
    = (DeleteIterator
         <$> List.filter (open_cursor (heap w))
               (elements (registered (the_db w)))) ++
      match _db (the_db w) with Some _ => [DeleteDB] | None => [] end ++
      match Options.block_cache (options (the_db w)) with
      | Some _ => [DeleteBlockCache] | None => [] end ++
      match Options.filter_policy (options (the_db w)) with
      | Some _ => [DeleteFilterPolicy] | None => [] end ++
      match Options.comparator (options (the_db w)) with
      | Some (Callback _ _) => [DeleteComparator] | _ => [] end ∧
    all_before is_iterator_release is_engine_close (close_events w) ∧
    all_before is_engine_close is_option_release (close_events w) ∧
    (∀ reg id it', iterators (the_db w) = Some reg → id ∈ reg →
                   heap w' !! id = Some it' → _iter it' = None) ∧
    _db (the_db w') = None ∧
    Options.block_cache (options (the_db w')) = None ∧
    Options.filter_policy (options (the_db w')) = None ∧
    Options.comparator (options (the_db w'))
    = match Options.comparator (options (the_db w)) with
      | Some Builtin => Some Builtin
      | _ => None
      end ∧
    (Options.comparator (options (the_db w)) = Some Builtin →
       (DeleteComparator ∉ close_events w) ∧
       Options.comparator (options (the_db w')) = Some Builtin).
Proof.
  destruct (DB_close_effect w) as (h & Hclose & Hheap).
  eexists. split; [exact Hclose|].
  pose proof (close_events_effect w) as Hev.
  set (evs := DeleteIterator
                <$> List.filter (open_cursor (heap w))
                      (elements (registered (the_db w)))) in *.
  assert (Forall (λ e, is_iterator_release e = true ∧ is_engine_close e = false
                       ∧ is_option_release e = false) evs) as Hevs.
  { apply Forall_forall. intros ev (id & -> & _)%list_elem_of_fmap. done. }
  rewrite Hev. simpl.
  edestruct (all_before_app3 is_iterator_release is_engine_close
               is_option_release evs) as [Hord1 Hord2]; [exact Hevs|..].
  3: split_and!; [done|done|exact Hord1|exact Hord2| |done..|].
  - destruct (_db (the_db w)); by repeat constructor.
  - destruct (Options.block_cache _), (Options.filter_policy _),
      (Options.comparator _) as [[|]|]; by repeat constructor.
  - intros reg id it' Hreg Hin. rewrite Hheap. unfold registered. rewrite Hreg.
    destruct (heap w !! id) as [it|]; [|done]. simpl.
    rewrite decide_True by done. by intros [= <-].
  - intros ->. split; [|done]. rewrite !elem_of_app.
    intros [Hin|[Hin|[Hin|[Hin|Hin]]]].
    + eapply Forall_forall in Hevs as (_ & _ & Hno); [|exact Hin]. done.
    + destruct (_db (the_db w)); not_in_list Hin.
    + destruct (Options.block_cache _); not_in_list Hin.
    + destruct (Options.filter_policy _); not_in_list Hin.
    + not_in_list Hin.
Qed.

(** ** Ascending entries *)

Lemma strictly_ascending_tail cmp e l :
  strictly_ascending cmp (e :: l) = true → strictly_ascending cmp l = true.
Proof.
  simpl. destruct l as [|e' l]; [done|].
  by intros [_ ?]%andb_true_iff.
Qed.

Lemma ascending_head_lt cmp e l j e' :
  strictly_ascending cmp (e :: l) = true →
  l !! j = Some e' → Compare cmp e.1 e'.1 < 0.
Proof.
  revert e j. induction l as [|e1 l IH]; intros e j Hasc Hj; [done|].
  simpl in Hasc. apply andb_true_iff in Hasc as [Hlt Hasc].
  apply Z.ltb_lt in Hlt.
  destruct j as [|j]; simpl in Hj.
  - by injection Hj as <-.
  - eapply Compare_lt_trans; [exact Hlt|]. by eapply IH.
Qed.

Lemma ascending_lookup_lt cmp l i j e e' :
  strictly_ascending cmp l = true → (i < j)%nat →
  l !! i = Some e → l !! j = Some e' → Compare cmp e.1 e'.1 < 0.
Proof.
  revert i j. induction l as [|e0 l IH]; intros i j Hasc Hij Hi Hj; [done|].
  destruct j as [|j]; [lia|]. destruct i as [|i]; simpl in *.
  - injection Hi as <-. by eapply ascending_head_lt.
  - eapply IH; [by eapply strictly_ascending_tail| |done..]. lia.
Qed.

Lemma ascending_lookup_le cmp l i j e e' :
  strictly_ascending cmp l = true → (i ≤ j)%nat →
  l !! i = Some e → l !! j = Some e' → Compare cmp e.1 e'.1 <= 0.
Proof.
  intros Hasc Hij Hi Hj. destruct (decide (i = j)) as [->|Hne].
  - rewrite Hi in Hj. injection Hj as <-. by rewrite Compare_refl.
  - apply Z.lt_le_incl. eapply ascending_lookup_lt; [done| |done..]. lia.
Qed.

(** ** First and last index with a property *)

Lemma find_first_Some P l j :
  find_first P l = Some j →
  ∃ e, l !! j = Some e ∧ P e = true ∧
       ∀ i e', (i < j)%nat → l !! i = Some e' → P e' = false.
Proof.
  revert j. induction l as [|e0 l IH]; intros j; [done|]. simpl.
  destruct (P e0) eqn:HP.
  - intros [= <-]. exists e0. split_and!; [done..|]. intros; lia.
  - destruct (find_first P l) as [j'|] eqn:Hf; [|done]. intros [= <-].
    destruct (IH j' eq_refl) as (e & Hj & HPe & Hmin).
    exists e. split_and!; [done..|].
    intros [|i] e' Hi Hi'; simpl in Hi'; [congruence|].
    eapply Hmin; [|done]. lia.
Qed.

Lemma find_first_None P l :
  find_first P l = None → ∀ i e, l !! i = Some e → P e = false.
Proof.
  induction l as [|e0 l IH]; [done|]. simpl.
  destruct (P e0) eqn:HP; [done|].
  destruct (find_first P l); [done|]. intros _ [|i] e Hi; simpl in Hi.
  - congruence.
  - by eapply IH.
Qed.

Lemma find_first_is_Some P l j e :
  l !! j = Some e → P e = true →
  (∀ i e', (i < j)%nat → l !! i = Some e' → P e' = false) →
  find_first P l = Some j.
Proof.
  intros Hj HP Hmin. destruct (find_first P l) as [j'|] eqn:Hf.
  - apply find_first_Some in Hf as (e' & Hj' & HP' & Hmin').
    destruct (Nat.lt_trichotomy j j') as [Hlt|[->|Hgt]]; [|done|].
    + rewrite (Hmin' j e Hlt Hj) in HP. done.
    + rewrite (Hmin j' e' Hgt Hj') in HP'. done.
  - rewrite (find_first_None P l Hf j e Hj) in HP. done.
Qed.

Lemma find_first_is_None P l :
  (∀ i e, l !! i = Some e → P e = false) → find_first P l = None.
Proof.
  intros Hall. destruct (find_first P l) as [j|] eqn:Hf; [|done].
  apply find_first_Some in Hf as (e & Hj & HP & _).
  rewrite (Hall j e Hj) in HP. done.
Qed.

Lemma find_last_None P l :
  find_last P l = None → ∀ i e, l !! i = Some e → P e = false.
Proof.
  induction l as [|e0 l IH]; [done|]. simpl.
  destruct (find_last P l); [done|].
  destruct (P e0) eqn:HP; [done|]. intros _ [|i] e Hi; simpl in Hi.
  - congruence.
  - by eapply IH.
Qed.

Lemma find_last_Some P l j :
  find_last P l = Some j →
  ∃ e, l !! j = Some e ∧ P e = true ∧
       ∀ i e', (j < i)%nat → l !! i = Some e' → P e' = false.
Proof.
  revert j. induction l as [|e0 l IH]; intros j; [done|]. simpl.
  destruct (find_last P l) as [j'|] eqn:Hf.
  - intros [= <-]. destruct (IH j' eq_refl) as (e & Hj & HPe & Hmax).
    exists e. split_and!; [done..|].
    intros [|i] e' Hi Hi'; [lia|]. simpl in Hi'. eapply Hmax; [|done]. lia.
  - destruct (P e0) eqn:HP; [|done]. intros [= <-].
    exists e0. split_and!; [done..|].
    intros [|i] e' Hi Hi'; [lia|]. simpl in Hi'.
    by eapply find_last_None.
Qed.

Lemma find_last_is_Some P l j e :
  l !! j = Some e → P e = true →
  (∀ i e', (j < i)%nat → l !! i = Some e' → P e' = false) →
  find_last P l = Some j.
Proof.
  intros Hj HP Hmax. destruct (find_last P l) as [j'|] eqn:Hf.
  - apply find_last_Some in Hf as (e' & Hj' & HP' & Hmax').
    destruct (Nat.lt_trichotomy j j') as [Hlt|[->|Hgt]]; [|done|].
    + rewrite (Hmax j' e' Hlt Hj') in HP'. done.
    + rewrite (Hmax' j e Hgt Hj) in HP. done.
  - rewrite (find_last_None P l Hf j e Hj) in HP. done.
Qed.

Lemma find_last_is_None P l :
  (∀ i e, l !! i = Some e → P e = false) → find_last P l = None.
Proof.
  intros Hall. destruct (find_last P l) as [j|] eqn:Hf; [|done].
  apply find_last_Some in Hf as (e & Hj & HP & _).
  rewrite (Hall j e Hj) in HP. done.
Qed.

Lemma first_at_or_past_find cmp target l :
  first_at_or_past cmp target l
  = find_first (λ e, 0 <=? Compare cmp e.1 target) l.
Proof. induction l as [|e l IH]; [done|]. simpl. by rewrite IH. Qed.

(** ** The bound predicate along ascending keys *)

Lemma within_start_mono it a b :
  Compare (comparator it) a b <= 0 →
  within_start it a = true → within_start it b = true.
Proof.
  unfold within_start. destruct (start it) as [s|]; [|done].
  intros Hab. order_facts (comparator it) a b s.
  destruct (include_start it); rewrite ?Z.leb_le, ?Z.ltb_lt; lia.
Qed.

Lemma within_stop_anti it a b :
  Compare (comparator it) a b <= 0 →
  within_stop it b = true → within_stop it a = true.
Proof.
  unfold within_stop. destruct (stop it) as [s|]; [|done].
  intros Hab. order_facts (comparator it) a b s.
  destruct (include_stop it); rewrite ?Z.leb_le, ?Z.ltb_lt; lia.
Qed.

(** ** The steps of the iterator, by position *)

Ltac exec_step :=
  unfold real_next, real_prev, seek, current; run_method;
  unfold next_from, prev_from_stop, yield_or_stop, check_and_step_back,
    yield_and_step_back, current_of, key_too_short, status_check,
    cursor_status, format_entry, state_before, pos_before, within_start,
    within_stop, at_or_before_start, moved.

(** Split on one integer test of the goal, keeping what it says as a
    hypothesis for [lia]. *)
Ltac split_test :=
  let T := fresh "Htest" in
  match goal with
  | |- context [?a <=? ?b] =>
      destruct (a <=? b) eqn:T; [apply Z.leb_le in T|apply Z.leb_gt in T]
  | |- context [?a <? ?b] =>
      destruct (a <? b) eqn:T; [apply Z.ltb_lt in T|apply Z.ltb_ge in T]
  | |- context [?a =? ?b] =>
      destruct (a =? b) eqn:T; [apply Z.eqb_eq in T|apply Z.eqb_neq in T]
  end.

(** Split on the length test of [current()]. *)
Ltac split_length :=
  match goal with
  | |- context [(?a <? ?b)%nat] => destruct (a <? b)%nat eqn:?
  end.

(** Run a method on an iterator whose fields are known: simplify, rewrite
    the known lookups with [t], split on the comparisons met on the way. *)
Tactic Notation "exec" "with" tactic3(t) :=
  exec_step;
  repeat (progress (simpl; t));
  repeat (first [split_length|split_test]; repeat (progress (simpl; t)));
  try done; try lia.

Lemma real_prev_IN_BETWEEN it l i e cs :
  _iter it = Some {| entries := l; pos := Some i; status := cs |} →
  state it = IN_BETWEEN → l !! i = Some e →
  real_prev it = yield_and_step_back it IN_BETWEEN l i e.
Proof.
  destruct it as [ci dir st cmp s s' i1 i2 ik iv sk]. simpl.
  intros -> -> Hi.
  destruct i as [|j].
  - destruct (raise_for_status cs) as [[]|] eqn:Hcs, ik, iv; exec with rewrite ?Hcs, ?Hi.
  - destruct (l !! j) as [e'|] eqn:Hj.
    2: { apply lookup_ge_None in Hj. apply lookup_lt_Some in Hi. lia. }
    destruct (raise_for_status cs) as [[]|] eqn:Hcs, s as [s|], i1, ik, iv; exec with rewrite ?Hcs, ?Hi, ?Hj.
Qed.

Lemma real_prev_BEFORE_START it c :
  _iter it = Some c → state it = BEFORE_START →
  real_prev it = (Raise StopIteration, it).
Proof.
  destruct it as [ci dir st cmp s s' i1 i2 ik iv sk]. simpl.
  intros -> ->. exec with idtac.
Qed.

Lemma real_next_AFTER_STOP it c :
  _iter it = Some c → state it = AFTER_STOP →
  real_next it = (Raise StopIteration, it).
Proof.
  destruct it as [ci dir st cmp s s' i1 i2 ik iv sk]. simpl.
  intros -> ->. exec with idtac.
Qed.

Lemma real_next_closed it : _iter it = None → real_next it = (Raise RuntimeError, it).
Proof.
  destruct it as [ci dir st cmp s s' i1 i2 ik iv sk]. simpl.
  intros ->. exec with idtac.
Qed.

Lemma real_prev_closed it : _iter it = None → real_prev it = (Raise RuntimeError, it).
Proof.
  destruct it as [ci dir st cmp s s' i1 i2 ik iv sk]. simpl.
  intros ->. exec with idtac.
Qed.

Lemma real_next_IN_BETWEEN it l i cs :
  _iter it = Some {| entries := l; pos := Some i; status := cs |} →
  state it = IN_BETWEEN →
  real_next it = next_from it l (Some (S i)) AFTER_STOP.
Proof.
  destruct it as [ci dir st cmp s s' i1 i2 ik iv sk]. simpl.
  intros -> ->.
  destruct (l !! S i) as [e|] eqn:Hi; simpl.
  - destruct (raise_for_status cs) as [[]|] eqn:Hcs, s' as [s'|], i2, ik, iv; exec with rewrite ?Hcs, ?Hi.
  - exec with rewrite ?Hi.
Qed.

Lemma real_next_ALREADY_POSITIONED it l i e cs :
  _iter it = Some {| entries := l; pos := Some i; status := cs |} →
  state it = IN_BETWEEN_ALREADY_POSITIONED → l !! i = Some e →
  real_next it = yield_or_stop it l i e.
Proof.
  destruct it as [ci dir st cmp s s' i1 i2 ik iv sk]. simpl.
  intros -> -> Hi.
  destruct (raise_for_status cs) as [[]|] eqn:Hcs, s' as [s'|], i2, ik, iv; exec with rewrite ?Hcs, ?Hi.
Qed.

(** ** Where the two repositionings land *)

Lemma find_first_ext P Q l :
  (∀ e, P e = Q e) → find_first P l = find_first Q l.
Proof. intros HPQ. induction l as [|e l IH]; [done|]. simpl. by rewrite HPQ, IH. Qed.

Lemma find_last_ext P Q l :
  (∀ e, P e = Q e) → find_last P l = find_last Q l.
Proof. intros HPQ. induction l as [|e l IH]; [done|]. simpl. by rewrite HPQ, IH. Qed.

Lemma find_first_true l :
  find_first (λ _, true) l = match l with [] => None | _ :: _ => Some 0%nat end.
Proof. by destruct l. Qed.

Lemma find_last_true l : find_last (λ _, true) l = pos_before (length l).
Proof.
  induction l as [|e l IH]; [done|]. simpl. rewrite IH. by destruct (length l).
Qed.

(** Skipping an entry equal to an exclusive [start]: the first entry at or
    past [s], or the one after it when that entry is [s] itself, is the
    first entry strictly past [s]. *)
Lemma find_first_past cmp s l :
  strictly_ascending cmp l = true →
  find_first (λ e, 0 <? Compare cmp e.1 s) l
  = match find_first (λ e, 0 <=? Compare cmp e.1 s) l with
    | Some j0 =>
        match l !! j0 with
        | Some e0 =>
            if Compare cmp e0.1 s =? 0
            then match l !! S j0 with Some _ => Some (S j0) | None => None end
            else Some j0
        | None => None
        end
    | None => None
    end.
Proof.
  intros Hasc.
  destruct (find_first (λ e, 0 <=? Compare cmp e.1 s) l) as [j0|] eqn:H0.
  - apply find_first_Some in H0 as (e0 & Hj0 & He0 & Hmin0). rewrite Hj0.
    apply Z.leb_le in He0.
    assert (∀ i e', (i < j0)%nat → l !! i = Some e' → Compare cmp e'.1 s < 0)
      as Hbefore.
    { intros i e' Hi Hi'. specialize (Hmin0 i e' Hi Hi').
      by apply Z.leb_gt in Hmin0. }
    destruct (Z.eqb_spec (Compare cmp e0.1 s) 0) as [Heq|Hne].
    + destruct (l !! S j0) as [e1|] eqn:Hj1.
      * apply (find_first_is_Some _ l (S j0) e1); [done| |].
        -- apply Z.ltb_lt.
           pose proof (ascending_lookup_lt cmp l j0 (S j0) e0 e1 Hasc
                         ltac:(lia) Hj0 Hj1).
           order_facts cmp e0.1 e1.1 s. lia.
        -- intros i e' Hi Hi'. apply Z.ltb_ge.
           destruct (decide (i = j0)) as [->|Hne].
           ++ rewrite Hj0 in Hi'. injection Hi' as <-. lia.
           ++ pose proof (Hbefore i e' ltac:(lia) Hi'). lia.
      * apply find_first_is_None. intros i e' Hi'. apply Z.ltb_ge.
        destruct (Nat.lt_trichotomy i j0) as [Hlt|[->|Hgt]].
        -- pose proof (Hbefore i e' Hlt Hi'). lia.
        -- rewrite Hj0 in Hi'. injection Hi' as <-. lia.
        -- apply lookup_ge_None in Hj1. apply lookup_lt_Some in Hi'. lia.
    + apply (find_first_is_Some _ l j0 e0); [done| |].
      * apply Z.ltb_lt. lia.
      * intros i e' Hi Hi'. apply Z.ltb_ge.
        pose proof (Hbefore i e' Hi Hi'). lia.
  - apply find_first_is_None. intros i e' Hi'. apply Z.ltb_ge.
    pose proof (find_first_None _ l H0 i e' Hi') as Hlt.
    apply Z.leb_gt in Hlt. lia.
Qed.

Lemma pos_before_lookup (l : list entry) j :
  pos_before (length l) = Some j → is_Some (l !! j).
Proof.
  destruct l as [|e l] using rev_ind; [done|].
  rewrite length_app. simpl. rewrite Nat.add_comm. simpl. intros [= <-].
  rewrite lookup_app_r, Nat.sub_diag by done. by eexists.
Qed.

(** The last entry strictly before [s] is the one before the first entry
    at or past [s], or the last entry of all when there is none. *)
Lemma find_last_before cmp s l :
  strictly_ascending cmp l = true →
  find_last (λ e, Compare cmp e.1 s <? 0) l
  = match find_first (λ e, 0 <=? Compare cmp e.1 s) l with
    | Some j0 => pos_before j0
    | None => pos_before (length l)
    end.
Proof.
  intros Hasc.
  destruct (find_first (λ e, 0 <=? Compare cmp e.1 s) l) as [j0|] eqn:H0.
  - apply find_first_Some in H0 as (e0 & Hj0 & He0 & Hmin0).
    apply Z.leb_le in He0.
    assert (∀ i e', (j0 ≤ i)%nat → l !! i = Some e' →
                    (Compare cmp e'.1 s <? 0) = false) as Hafter.
    { intros i e' Hi Hi'. apply Z.ltb_ge.
      pose proof (ascending_lookup_le cmp l j0 i e0 e' Hasc Hi Hj0 Hi').
      order_facts cmp e0.1 e'.1 s. lia. }
    destruct j0 as [|j]; simpl.
    + apply find_last_is_None. intros i e' Hi'. apply (Hafter i); [lia|done].
    + destruct (l !! j) as [e|] eqn:Hj.
      2: { apply lookup_ge_None in Hj. apply lookup_lt_Some in Hj0. lia. }
      apply (find_last_is_Some _ l j e); [done| |].
      * specialize (Hmin0 j e ltac:(lia) Hj). apply Z.leb_gt in Hmin0.
        by apply Z.ltb_lt.
      * intros i e' Hi Hi'. apply (Hafter i); [lia|done].
  - pose proof (find_first_None _ l H0) as Hall.
    destruct (pos_before (length l)) as [j|] eqn:Hlast.
    + destruct (pos_before_lookup l j Hlast) as [e Hj].
      apply (find_last_is_Some _ l j e); [done| |].
      * specialize (Hall j e Hj). apply Z.leb_gt in Hall. by apply Z.ltb_lt.
      * intros i e' Hi Hi'. apply lookup_lt_Some in Hi'.
        destruct (length l); simpl in Hlast; [done|]. injection Hlast as <-. lia.
    + destruct l; [done|]. done.
Qed.

(** The last entry at or before [s]: the first entry at or past [s] when it
    is [s] itself, the one before it otherwise. *)
Lemma find_last_at_or_before cmp s l :
  strictly_ascending cmp l = true →
  find_last (λ e, Compare cmp e.1 s <=? 0) l
  = match find_first (λ e, 0 <=? Compare cmp e.1 s) l with
    | Some j0 =>
        match l !! j0 with
        | Some e0 => if 0 <? Compare cmp e0.1 s then pos_before j0 else Some j0
        | None => None
        end
    | None => pos_before (length l)
    end.
Proof.
  intros Hasc.
  destruct (find_first (λ e, 0 <=? Compare cmp e.1 s) l) as [j0|] eqn:H0.
  - pose proof H0 as H0'.
    apply find_first_Some in H0 as (e0 & Hj0 & He0 & Hmin0). rewrite Hj0.
    apply Z.leb_le in He0.
    assert (∀ i e', (j0 < i)%nat → l !! i = Some e' →
                    (Compare cmp e'.1 s <=? 0) = false) as Hafter.
    { intros i e' Hi Hi'. apply Z.leb_gt.
      pose proof (ascending_lookup_lt cmp l j0 i e0 e' Hasc Hi Hj0 Hi').
      order_facts cmp e0.1 e'.1 s. lia. }
    destruct (Z.ltb_spec 0 (Compare cmp e0.1 s)) as [Hgt|Hle].
    + destruct j0 as [|j]; simpl.
      * apply find_last_is_None. intros i e' Hi'.
        destruct i as [|i]; [|apply (Hafter (S i)); [lia|done]].
        rewrite Hj0 in Hi'. injection Hi' as <-. by apply Z.leb_gt.
      * destruct (l !! j) as [e|] eqn:Hj.
        2: { apply lookup_ge_None in Hj. apply lookup_lt_Some in Hj0. lia. }
        apply (find_last_is_Some _ l j e); [done| |].
        -- specialize (Hmin0 j e ltac:(lia) Hj). apply Z.leb_gt in Hmin0.
           apply Z.leb_le. lia.
        -- intros i e' Hi Hi'. destruct (decide (i = S j)) as [->|Hne].
           ++ rewrite Hj0 in Hi'. injection Hi' as <-. by apply Z.leb_gt.
           ++ apply (Hafter i); [lia|done].
    + apply (find_last_is_Some _ l j0 e0); [done| |done].
      apply Z.leb_le. lia.
  - pose proof (find_first_None _ l H0) as Hall.
    destruct (pos_before (length l)) as [j|] eqn:Hlast.
    + destruct (pos_before_lookup l j Hlast) as [e Hj].
      apply (find_last_is_Some _ l j e); [done| |].
      * specialize (Hall j e Hj). apply Z.leb_gt in Hall. apply Z.leb_le. lia.
      * intros i e' Hi Hi'. apply lookup_lt_Some in Hi'.
        destruct (length l); simpl in Hlast; [done|]. injection Hlast as <-. lia.
    + destruct l; [done|]. done.
Qed.

(** [real_next] from [BEFORE_START] heads for the first entry within the
    start bound. *)
Lemma real_next_BEFORE_START it l p cs :
  _iter it = Some {| entries := l; pos := p; status := cs |} →
  state it = BEFORE_START →
  strictly_ascending (comparator it) l = true →
  real_next it
  = next_from it l (find_first (λ e, within_start it e.1) l) BEFORE_START.
Proof.
  destruct it as [ci dir st cmp s s' i1 i2 ik iv sk]. simpl.
  intros -> -> Hasc.
  destruct s as [s|]; [destruct i1|].
  - (* inclusive start *)
    rewrite (find_first_ext _ (λ e, 0 <=? Compare cmp e.1 s)) by done.
    pose proof (first_at_or_past_find cmp s l) as Hseek.
    destruct (find_first (λ e, 0 <=? Compare cmp e.1 s) l) as [j|] eqn:Hj.
    + apply find_first_Some in Hj as (e & Hj & _).
      destruct (raise_for_status cs) as [[]|] eqn:Hcs, s' as [s'|], i2, ik, iv; exec with rewrite ?Hcs, ?Hseek, ?Hj.
    + exec with rewrite ?Hseek.
  - (* exclusive start *)
    rewrite (find_first_ext _ (λ e, 0 <? Compare cmp e.1 s)) by done.
    rewrite (find_first_past cmp s l Hasc).
    pose proof (first_at_or_past_find cmp s l) as Hseek.
    destruct (find_first (λ e, 0 <=? Compare cmp e.1 s) l) as [j|] eqn:Hj.
    + apply find_first_Some in Hj as (e & Hj & _).
      destruct (l !! S j) as [e1|] eqn:Hj1;
        destruct (raise_for_status cs) as [[]|] eqn:Hcs, s' as [s'|], i2, ik, iv;
        exec with rewrite ?Hcs, ?Hseek, ?Hj, ?Hj1.
    + exec with rewrite ?Hseek.
  - (* no start *)
    rewrite (find_first_ext _ (λ _, true)) by done.
    rewrite find_first_true.
    destruct l as [|e l]; [exec with idtac|].
    destruct (raise_for_status cs) as [[]|] eqn:Hcs, s' as [s'|], i2, ik, iv; exec with rewrite ?Hcs.
Qed.

(** The entry before a known one. *)
Ltac pred_lookup l j H :=
  let e := fresh "e" in
  let Hj := fresh "Hj" in
  destruct (l !! j) as [e|] eqn:Hj;
  [|apply lookup_ge_None in Hj; apply lookup_lt_Some in H; lia].

(** [real_prev] from [AFTER_STOP] repositions to the last entry within the
    stop bound. *)
Lemma real_prev_AFTER_STOP it l p cs :
  _iter it = Some {| entries := l; pos := p; status := cs |} →
  state it = AFTER_STOP →
  strictly_ascending (comparator it) l = true →
  real_prev it
  = prev_from_stop it l (find_last (λ e, within_stop it e.1) l).
Proof.
  destruct it as [ci dir st cmp s s' i1 i2 ik iv sk]. simpl.
  intros -> -> Hasc.
  destruct s' as [s'|]; [destruct i2|].
  - (* inclusive stop *)
    rewrite (find_last_ext _ (λ e, Compare cmp e.1 s' <=? 0)) by done.
    rewrite (find_last_at_or_before cmp s' l Hasc).
    pose proof (first_at_or_past_find cmp s' l) as Hseek.
    destruct (find_first (λ e, 0 <=? Compare cmp e.1 s') l) as [j0|] eqn:H0.
    + apply find_first_Some in H0 as (e0 & Hj0 & _ & Hmin0).
      destruct j0 as [|j1].
      { destruct (raise_for_status cs) as [[]|] eqn:Hcs, s as [s|], i1, ik, iv; exec with rewrite ?Hcs, ?Hseek, ?Hj0. }
      pred_lookup l j1 Hj0.
      pose proof (Hmin0 j1 _ ltac:(lia) Hj) as Hlt. apply Z.leb_gt in Hlt.
      destruct j1 as [|j2].
      { destruct (raise_for_status cs) as [[]|] eqn:Hcs, s as [s|], i1, ik, iv; exec with rewrite ?Hcs, ?Hseek, ?Hj0, ?Hj. }
      pred_lookup l j2 Hj.
      destruct (raise_for_status cs) as [[]|] eqn:Hcs, s as [s|], i1, ik, iv;
        exec with rewrite ?Hcs, ?Hseek, ?Hj0, ?Hj, ?Hj1.
    + pose proof (find_first_None _ l H0) as Hall.
      destruct (length l) as [|n] eqn:Hlen;
        [destruct (raise_for_status cs) as [[]|] eqn:Hcs, s as [s|], i1, ik, iv; exec with rewrite ?Hcs, ?Hseek, ?Hlen|].
      destruct (lookup_lt_is_Some_2 l n ltac:(lia)) as [e Hn].
      pose proof (Hall n e Hn) as Hlt. apply Z.leb_gt in Hlt.
      destruct n as [|n1].
      { destruct (raise_for_status cs) as [[]|] eqn:Hcs, s as [s|], i1, ik, iv; exec with rewrite ?Hcs, ?Hseek, ?Hlen, ?Hn. }
      pred_lookup l n1 Hn.
      destruct (raise_for_status cs) as [[]|] eqn:Hcs, s as [s|], i1, ik, iv;
        exec with rewrite ?Hcs, ?Hseek, ?Hlen, ?Hn, ?Hj.
  - (* exclusive stop *)
    rewrite (find_last_ext _ (λ e, Compare cmp e.1 s' <? 0)) by done.
    rewrite (find_last_before cmp s' l Hasc).
    pose proof (first_at_or_past_find cmp s' l) as Hseek.
    destruct (find_first (λ e, 0 <=? Compare cmp e.1 s') l) as [j0|] eqn:H0.
    + apply find_first_Some in H0 as (e0 & Hj0 & _ & Hmin0).
      destruct j0 as [|j1].
      { destruct (raise_for_status cs) as [[]|] eqn:Hcs, s as [s|], i1, ik, iv; exec with rewrite ?Hcs, ?Hseek, ?Hj0. }
      pred_lookup l j1 Hj0.
      pose proof (Hmin0 j1 _ ltac:(lia) Hj) as Hlt. apply Z.leb_gt in Hlt.
      destruct j1 as [|j2].
      { destruct (raise_for_status cs) as [[]|] eqn:Hcs, s as [s|], i1, ik, iv; exec with rewrite ?Hcs, ?Hseek, ?Hj0, ?Hj. }
      pred_lookup l j2 Hj.
      destruct (raise_for_status cs) as [[]|] eqn:Hcs, s as [s|], i1, ik, iv;
        exec with rewrite ?Hcs, ?Hseek, ?Hj0, ?Hj, ?Hj1.
    + pose proof (find_first_None _ l H0) as Hall.
      destruct (length l) as [|n] eqn:Hlen;
        [destruct (raise_for_status cs) as [[]|] eqn:Hcs, s as [s|], i1, ik, iv; exec with rewrite ?Hcs, ?Hseek, ?Hlen|].
      destruct (lookup_lt_is_Some_2 l n ltac:(lia)) as [e Hn].
      pose proof (Hall n e Hn) as Hlt. apply Z.leb_gt in Hlt.
      destruct n as [|n1].
      { destruct (raise_for_status cs) as [[]|] eqn:Hcs, s as [s|], i1, ik, iv; exec with rewrite ?Hcs, ?Hseek, ?Hlen, ?Hn. }
      pred_lookup l n1 Hn.
      destruct (raise_for_status cs) as [[]|] eqn:Hcs, s as [s|], i1, ik, iv;
        exec with rewrite ?Hcs, ?Hseek, ?Hlen, ?Hn, ?Hj.
  - (* no stop *)
    rewrite (find_last_ext _ (λ _, true)) by done.
    rewrite find_last_true.
    destruct (length l) as [|n] eqn:Hlen;
      [destruct (raise_for_status cs) as [[]|] eqn:Hcs, s as [s|], i1, ik, iv; exec with rewrite ?Hcs, ?Hlen|].
    destruct (lookup_lt_is_Some_2 l n ltac:(lia)) as [e Hn].
    destruct n as [|n1].
    { destruct (raise_for_status cs) as [[]|] eqn:Hcs, s as [s|], i1, ik, iv; exec with rewrite ?Hcs, ?Hlen, ?Hn. }
    pred_lookup l n1 Hn.
    destruct (raise_for_status cs) as [[]|] eqn:Hcs, s as [s|], i1, ik, iv; exec with rewrite ?Hcs, ?Hlen, ?Hn, ?Hj.
Qed.

Lemma real_prev_ALREADY_POSITIONED it l i e cs :
  _iter it = Some {| entries := l; pos := Some i; status := cs |} →
  state it = IN_BETWEEN_ALREADY_POSITIONED → l !! i = Some e →
  real_prev it
  = match i with
    | O => (Raise StopIteration, moved BEFORE_START l None it)
    | S j =>
        match l !! j with
        | Some e' =>
            check_and_step_back it IN_BETWEEN_ALREADY_POSITIONED l j e'
        | None => (Raise StopIteration, moved BEFORE_START l None it)
        end
    end.
Proof.
  destruct it as [ci dir st cmp s s' i1 i2 ik iv sk]. simpl.
  intros -> -> Hi.
  destruct i as [|j]; [exec with rewrite ?Hi|].
  pred_lookup l j Hi.
  destruct j as [|j1].
  { destruct (raise_for_status cs) as [[]|] eqn:Hcs, s as [s|], i1, ik, iv; exec with rewrite ?Hcs, ?Hi, ?Hj. }
  pred_lookup l j1 Hj.
  destruct (raise_for_status cs) as [[]|] eqn:Hcs, s as [s|], i1, ik, iv; exec with rewrite ?Hcs, ?Hi, ?Hj, ?Hj0.
Qed.

(** ** The iterator on sample stores *)

(** [sample_iterator] is what construction on an open handle returns. *)
Lemma sample_iterator_constructed l reverse start_arg stop_arg
    include_start_arg include_stop_arg :
  Iterator__init__ 1 None reverse start_arg stop_arg include_start_arg
    include_stop_arg None true true false false None (open_db l)
  = (Return (sample_iterator l reverse start_arg stop_arg include_start_arg
               include_stop_arg),
     set_iterators (Some ({[1%nat]} ∪ ∅)) (open_db l)).
Proof. reflexivity. Qed.

(** The scenario of the specification: the store holds [a], [b], [c]. *)
Lemma spec_scenario :
  iterate 4 (sample_iterator sample_entries false (Some key_a) (Some key_c) true true)
    = [OutPair key_a val_1; OutPair key_b val_2; OutPair key_c val_3] ∧
  iterate 4 (sample_iterator sample_entries false (Some key_a) (Some key_c) true false)
    = [OutPair key_a val_1; OutPair key_b val_2] ∧
  iterate 4 (sample_iterator sample_entries true (Some key_a) (Some key_c) true true)
    = [OutPair key_c val_3; OutPair key_b val_2; OutPair key_a val_1].
Proof. by vm_compute. Qed.

(** C1, at the failing input.  The store holds the single key [a] and the
    bounds are [start = a], inclusive, with no stop: the key satisfies the
    bound predicate and the forward iterator yields it, but the reverse
    iterator yields nothing. *)
Theorem reverse_iteration_drops_inclusive_start :
  in_bounds forward_from_a key_a = true ∧
  (∀ fuel, iterate (S fuel) forward_from_a = [OutPair key_a val_1]) ∧
  (∀ fuel, iterate fuel reverse_from_a = []).
Proof.
  split_and!; [done| |].
  - intros [|fuel]; by vm_compute.
  - intros [|fuel]; by vm_compute.
Qed.

(** C3, at the failing input.  The store holds the single key [a]; a
    physical-prev step from [AFTER_STOP] with [start = a] inclusive
    repositions the cursor on [a], which is valid and not strictly before
    start, and still ends the sequence: the test made is
    [Compare(start, key) >= 0] whatever [include_start] is. *)
Theorem real_prev_from_stop_drops_inclusive_start :
  state reverse_from_a = AFTER_STOP ∧
  include_start reverse_from_a = true ∧
  real_prev reverse_from_a
    = (Raise StopIteration, moved AFTER_STOP only_a (Some 0%nat) reverse_from_a) ∧
  cur_entry {| entries := only_a; pos := Some 0%nat; status := StatusOK |}
  = Some (key_a, val_1) ∧
  Compare (comparator reverse_from_a) key_a key_a = 0 ∧
  within_start reverse_from_a key_a = true.
Proof.
  split_and!; [reflexivity|reflexivity| |reflexivity..].
  rewrite (real_prev_AFTER_STOP reverse_from_a only_a None StatusOK)
    by reflexivity.
  reflexivity.
Qed.

(** C2, at the failing input.  The store holds [a] and [b] and the
    iterator excludes its start key [a]: iterating it yields [b] alone.
    [seek(a)] puts the cursor on [a], and the [next()] after it yields the
    entry of [a], the excluded start key.  From that point [prev()] yields
    the entry of [a] again and the [next()] after it yields the entry of
    [b]: [prev()] then [next()] does not come back to the entry [prev()]
    returned. *)
Theorem seek_breaks_round_trip :
  include_start past_a = false ∧ start past_a = Some key_a ∧
  in_bounds past_a key_a = false ∧
  iterate 3 past_a = [OutPair key_b val_2] ∧
  (Iterator__next__ (after_calls [CallSeek key_a] past_a)).1
    = Return (OutPair key_a val_1) ∧
  (Iterator_prev (after_calls [CallSeek key_a; CallNext] past_a)).1
    = Return (OutPair key_a val_1) ∧
  (Iterator__next__ (after_calls [CallSeek key_a; CallNext; CallPrev] past_a)).1
    = Return (OutPair key_b val_2) ∧
  ¬ round_trip (after_calls [CallSeek key_a; CallNext] past_a).
Proof.
  split_and!; [by vm_compute..|].
  intros [_ Hpn].
  destruct (Iterator_prev (after_calls [CallSeek key_a; CallNext] past_a))
    as [r it1] eqn:Hprev.
  vm_compute in Hprev. injection Hprev as <- <-.
  edestruct Hpn as [it2 Hnext]; [reflexivity|].
  vm_compute in Hnext. discriminate Hnext.
Qed.
(** ** Traversals that do not seek *)

Lemma moved_same it l p cs :
  _iter it = Some {| entries := l; pos := p; status := cs |} →
  moved (state it) l p it = it.
Proof. destruct it. simpl. by intros ->. Qed.

Lemma status_check_ok it l p :
  _iter it = Some {| entries := l; pos := p; status := StatusOK |} →
  status_check it = Return tt.
Proof. unfold status_check, cursor_status. by intros ->. Qed.

Lemma in_bounds_split it k :
  in_bounds it k = true ↔ within_start it k = true ∧ within_stop it k = true.
Proof. unfold in_bounds. apply andb_true_iff. Qed.

Lemma past_start_within it k :
  at_or_before_start it k = false → within_start it k = true.
Proof.
  unfold at_or_before_start, within_start.
  destruct (start it) as [s|]; [|done]. intros Hpast%Z.leb_gt.
  pose proof (Compare_antisym (comparator it) s k).
  destruct (include_start it); [apply Z.leb_le|apply Z.ltb_lt]; lia.
Qed.

(** What one [real_next] does to an iterator in an in-range position: it
    hands an entry within the bounds to [current()] and stays on it, or it
    ends the sequence at one of the two ends. *)
Lemma real_next_in_range it l p :
  _iter it = Some {| entries := l; pos := p; status := StatusOK |} →
  strictly_ascending (comparator it) l = true →
  state it ≠ IN_BETWEEN_ALREADY_POSITIONED →
  (state it = IN_BETWEEN →
   ∃ i e, p = Some i ∧ l !! i = Some e ∧ in_bounds it e.1 = true) →
  (∃ j e, l !! j = Some e ∧ in_bounds it e.1 = true ∧
          real_next it = (current_of it e, moved IN_BETWEEN l (Some j) it)) ∨
  (∃ st p', (st = BEFORE_START ∨ st = AFTER_STOP) ∧
            real_next it = (Raise StopIteration, moved st l p' it)).
Proof.
  intros Hlive Hasc Hnoseek Hpos.
  assert (∀ j e, l !! j = Some e → within_start it e.1 = true →
    (∃ j' e', l !! j' = Some e' ∧ in_bounds it e'.1 = true ∧
              yield_or_stop it l j e
              = (current_of it e', moved IN_BETWEEN l (Some j') it)) ∨
    (∃ st p', (st = BEFORE_START ∨ st = AFTER_STOP) ∧
              yield_or_stop it l j e
              = (Raise StopIteration, moved st l p' it))) as Hyield.
  { intros j e Hj Hstart. unfold yield_or_stop.
    rewrite (status_check_ok it l p Hlive).
    destruct (within_stop it e.1) eqn:Hstop.
    - left. exists j, e. split_and!; [done| |done].
      by apply in_bounds_split.
    - right. exists AFTER_STOP, (Some j). eauto. }
  destruct (state it) eqn:Hst; [| | |done].
  - rewrite (real_next_BEFORE_START it l p StatusOK) by done. unfold next_from.
    destruct (find_first _ l) as [j|] eqn:Hfirst; simpl.
    + apply find_first_Some in Hfirst as (e & Hj & Hstart & _).
      rewrite Hj. simpl. by apply Hyield.
    + right. exists BEFORE_START, None. eauto.
  - rewrite (real_next_AFTER_STOP it _ Hlive Hst).
    right. exists AFTER_STOP, p. split; [by right|].
    by rewrite <- Hst, (moved_same it l p StatusOK).
  - destruct (Hpos eq_refl) as (i & e & -> & Hi & Hin).
    rewrite (real_next_IN_BETWEEN it l i StatusOK) by done.
    unfold next_from. simpl.
    destruct (l !! S i) as [e'|] eqn:Hi'; simpl.
    + apply (Hyield (S i)); [done|].
      apply in_bounds_split in Hin as [Hin _].
      eapply within_start_mono; [|exact Hin].
      eapply ascending_lookup_le; [exact Hasc| |exact Hi|exact Hi']. lia.
    + right. exists AFTER_STOP, None. eauto.
Qed.

(** What one [real_prev] does to an iterator in an in-range position: it
    hands an entry within the bounds to [current()] and steps back from it,
    or it ends the sequence at one of the two ends. *)
Lemma real_prev_in_range it l p :
  _iter it = Some {| entries := l; pos := p; status := StatusOK |} →
  strictly_ascending (comparator it) l = true →
  state it ≠ IN_BETWEEN_ALREADY_POSITIONED →
  (state it = IN_BETWEEN →
   ∃ i e, p = Some i ∧ l !! i = Some e ∧ in_bounds it e.1 = true) →
  (∃ j e, l !! j = Some e ∧ in_bounds it e.1 = true ∧
          (state it = IN_BETWEEN → p = Some j) ∧
          real_prev it = yield_and_step_back it (state it) l j e) ∨
  (∃ st p', (st = BEFORE_START ∨ st = AFTER_STOP) ∧
            real_prev it = (Raise StopIteration, moved st l p' it)).
Proof.
  intros Hlive Hasc Hnoseek Hpos.
  destruct (state it) eqn:Hst; [| | |done].
  - rewrite (real_prev_BEFORE_START it _ Hlive Hst).
    right. exists BEFORE_START, p. split; [by left|].
    by rewrite <- Hst, (moved_same it l p StatusOK).
  - rewrite (real_prev_AFTER_STOP it l p StatusOK) by done.
    unfold prev_from_stop.
    destruct (find_last _ l) as [j|] eqn:Hlast; simpl.
    + apply find_last_Some in Hlast as (e & Hj & Hstop & _).
      rewrite Hj. simpl.
      destruct (at_or_before_start it e.1) eqn:Hstart.
      * right. exists AFTER_STOP, (Some j). eauto.
      * left. exists j, e. split_and!; [done| |done|].
        -- apply in_bounds_split. split; [|done]. by apply past_start_within.
        -- unfold check_and_step_back.
           by rewrite (status_check_ok it l p Hlive).
    + right. exists AFTER_STOP, None. eauto.
  - destruct (Hpos eq_refl) as (i & e & -> & Hi & Hin).
    left. exists i, e. split_and!; [done..|].
    by apply (real_prev_IN_BETWEEN it l i e StatusOK).
Qed.

(** Stepping back from an entry within the bounds leaves an in-range
    position. *)
Lemma in_range_step_back it l p j e st :
  _iter it = Some {| entries := l; pos := p; status := StatusOK |} →
  strictly_ascending (comparator it) l = true →
  l !! j = Some e → in_bounds it e.1 = true →
  in_range_position (moved (state_before it l j) l (pos_before j) it) ∧
  in_range_position (moved IN_BETWEEN l (Some j) it) ∧
  (st = BEFORE_START ∨ st = AFTER_STOP →
   ∀ p', in_range_position (moved st l p' it)).
Proof.
  intros Hlive Hasc Hj Hin.
  assert (cursor_status it = StatusOK) as Hcs
    by (unfold cursor_status; by rewrite Hlive).
  split_and!.
  - exists l, (pos_before j). unfold moved. rewrite Hcs.
    split_and!; [done..| |].
    + unfold state_before. simpl. destruct j as [|j']; [done|].
      destruct (l !! j') as [e'|]; [|done]. by destruct (within_start it e'.1).
    + simpl. unfold state_before. destruct j as [|j']; [done|].
      destruct (l !! j') as [e'|] eqn:Hj'; [|done].
      destruct (within_start it e'.1) eqn:Hstart; [|done]. intros _.
      exists j', e'. split_and!; [done..|].
      apply in_bounds_split. split; [done|].
      apply in_bounds_split in Hin as [_ Hin].
      eapply within_stop_anti; [|exact Hin].
      eapply ascending_lookup_le; [exact Hasc| |exact Hj'|exact Hj]. lia.
  - exists l, (Some j). unfold moved. rewrite Hcs.
    split_and!; [done..|]. intros _. by exists j, e.
  - intros Hend p'. exists l, p'. unfold moved. rewrite Hcs.
    split_and!; [done| |by destruct Hend as [->| ->]..].
    done.
Qed.

Lemma in_range_end it l p st p' :
  _iter it = Some {| entries := l; pos := p; status := StatusOK |} →
  strictly_ascending (comparator it) l = true →
  st = BEFORE_START ∨ st = AFTER_STOP →
  in_range_position (moved st l p' it).
Proof.
  intros Hlive Hasc Hend. exists l, p'. unfold moved, cursor_status.
  rewrite Hlive.
  split_and!; [done..| |]; by destruct Hend as [->| ->].
Qed.

Lemma in_range_real_next it :
  in_range_position it → in_range_position (real_next it).2.
Proof.
  intros (l & p & Hlive & Hasc & Hnoseek & Hpos).
  destruct (real_next_in_range it l p Hlive Hasc Hnoseek Hpos)
    as [(j & e & Hj & Hin & ->)|(st & p' & Hend & ->)]; simpl.
  - by apply (in_range_step_back it l p j e BEFORE_START).
  - by apply (in_range_end it l p).
Qed.

Lemma in_range_real_prev it :
  in_range_position it → in_range_position (real_prev it).2.
Proof.
  intros Hrange. pose proof Hrange as (l & p & Hlive & Hasc & Hnoseek & Hpos).
  destruct (real_prev_in_range it l p Hlive Hasc Hnoseek Hpos)
    as [(j & e & Hj & Hin & Hat & ->)|(st & p' & Hend & ->)]; simpl.
  - unfold yield_and_step_back. destruct (current_of it e); simpl.
    + by apply (in_range_step_back it l p j e BEFORE_START).
    + destruct (state it) eqn:Hst; [| | |done].
      * by apply (in_range_end it l p); [..|left].
      * by apply (in_range_end it l p); [..|right].
      * rewrite <- (Hat eq_refl), <- Hst, (moved_same it l p StatusOK) by done.
        exact Hrange.
  - by apply (in_range_end it l p).
Qed.

Lemma Iterator__next___direction it :
  Iterator__next__ it
  = match direction it with FORWARD => real_next it | REVERSE => real_prev it end.
Proof. unfold Iterator__next__. run_method. by destruct (direction it). Qed.

Lemma Iterator_prev_direction it :
  Iterator_prev it
  = match direction it with FORWARD => real_prev it | REVERSE => real_next it end.
Proof. unfold Iterator_prev. run_method. by destruct (direction it). Qed.

(** Preserve: a call other than [seek] keeps an in-range position. *)
Lemma in_range_do_call c it :
  is_seek c = false → in_range_position it → in_range_position (do_call c it).
Proof.
  intros Hc Hin. destruct c; simpl in *; [| |done| |].
  - rewrite Iterator__next___direction.
    destruct (direction it); [by apply in_range_real_next|by apply in_range_real_prev].
  - rewrite Iterator_prev_direction.
    destruct (direction it); [by apply in_range_real_prev|by apply in_range_real_next].
  - destruct Hin as (l & p & Hlive & Hasc & _).
    unfold seek_to_start. run_method. rewrite Hlive. simpl.
    exists l, p. by split_and!.
  - destruct Hin as (l & p & Hlive & Hasc & _).
    unfold seek_to_stop. run_method. rewrite Hlive. simpl.
    exists l, p. by split_and!.
Qed.

Lemma in_range_after_calls cs it :
  Forall (λ c, is_seek c = false) cs →
  in_range_position it → in_range_position (after_calls cs it).
Proof.
  unfold after_calls. revert it.
  induction cs as [|c cs IH]; intros it Hcs Hin; [done|].
  apply Forall_cons in Hcs as [Hc Hcs]. simpl.
  apply IH; [done|]. by apply in_range_do_call.
Qed.

(** Establish: a new iterator over ascending entries is in an in-range
    position. *)
Lemma in_range_constructed self_id key_prefix reverse start_arg stop_arg
    include_start_arg include_stop_arg prefix_arg include_key_arg
    include_value_arg verify_checksums fill_cache snapshot db it db' :
  Iterator__init__ self_id key_prefix reverse start_arg stop_arg
    include_start_arg include_stop_arg prefix_arg include_key_arg
    include_value_arg verify_checksums fill_cache snapshot db
  = (Return it, db') →
  (∀ c, _iter it = Some c →
        strictly_ascending (comparator it) (entries c) = true) →
  in_range_position it.
Proof.
  unfold Iterator__init__, _register_iterator. run_method.
  destruct (_db db) as [e|]; [|done].
  destruct key_prefix as [P|], prefix_arg as [q|], start_arg as [s|],
    stop_arg as [s'|]; simpl; try done;
    destruct (iterators db); try done; intros [= <- _] Hasc;
    exists (entries (NewIterator e snapshot)), None;
    (split_and!; [reflexivity|exact (Hasc _ eq_refl)| |]);
    simpl; by destruct reverse.
Qed.

(** Use: in an in-range position the two motions undo each other. *)
Lemma next_then_prev it o it1 :
  in_range_position it → real_next it = (Return o, it1) →
  ∃ it2, real_prev it1 = (Return o, it2).
Proof.
  intros (l & p & Hlive & Hasc & Hnoseek & Hpos) Hnext.
  destruct (real_next_in_range it l p Hlive Hasc Hnoseek Hpos)
    as [(j & e & Hj & Hin & Hyield)|(st & p' & Hend & Hraise)];
    [|congruence].
  rewrite Hyield in Hnext. injection Hnext as Hcur <-.
  rewrite (real_prev_IN_BETWEEN _ l j e (cursor_status it)) by done.
  unfold yield_and_step_back.
  change (current_of (moved IN_BETWEEN l (Some j) it) e) with (current_of it e).
  rewrite Hcur.
  change (status_check (moved IN_BETWEEN l (Some j) it)) with (status_check it).
  rewrite (status_check_ok it l p Hlive). by eexists.
Qed.

Lemma prev_then_next it o it1 :
  in_range_position it → real_prev it = (Return o, it1) →
  ∃ it2, real_next it1 = (Return o, it2).
Proof.
  intros (l & p & Hlive & Hasc & Hnoseek & Hpos) Hprev.
  destruct (real_prev_in_range it l p Hlive Hasc Hnoseek Hpos)
    as [(j & e & Hj & Hin & _ & Hyield)|(st & p' & Hend & Hraise)];
    [|congruence].
  rewrite Hyield in Hprev. unfold yield_and_step_back in Hprev.
  rewrite (status_check_ok it l p Hlive) in Hprev.
  destruct (current_of it e) as [o'|x] eqn:Hcur; [|done].
  injection Hprev as <- <-.
  apply in_bounds_split in Hin as [Hstart Hstop].
  assert (∀ it', within_stop it' = within_stop it →
                 current_of it' e = current_of it e →
                 status_check it' = Return tt →
                 ∃ it2, yield_or_stop it' l j e = (Return o', it2))
    as Hyields.
  { intros it' Hw Hf Hs. unfold yield_or_stop. rewrite Hs, Hw, Hstop, Hf, Hcur.
    by eexists. }
  assert (∀ st p', status_check (moved st l p' it) = Return tt) as Hok.
  { intros st p'. unfold status_check, moved, cursor_status. simpl.
    by rewrite Hlive. }
  assert (∀ p',
    (∀ i e', (i < j)%nat → l !! i = Some e' → within_start it e'.1 = false) →
    ∃ it2, real_next (moved BEFORE_START l p' it) = (Return o', it2))
    as Hrestart.
  { intros p' Hmin.
    rewrite (real_next_BEFORE_START _ l p' (cursor_status it)) by done.
    rewrite (find_first_is_Some (λ e0, within_start (moved BEFORE_START l p' it) e0.1)
               l j e Hj Hstart Hmin).
    unfold next_from. simpl. rewrite Hj. simpl. by apply Hyields. }
  unfold state_before. destruct j as [|j']; simpl.
  - apply Hrestart. intros; lia.
  - pred_lookup l j' Hj.
    destruct (within_start it e0.1) eqn:Hstart'.
    + rewrite (real_next_IN_BETWEEN _ l j' (cursor_status it)) by done.
      unfold next_from. simpl. rewrite Hj. simpl. by apply Hyields.
    + apply Hrestart. intros i e' Hi Hi'.
      destruct (within_start it e'.1) eqn:Hstart''; [|done].
      rewrite <- Hstart'. symmetry.
      eapply within_start_mono; [|exact Hstart''].
      eapply ascending_lookup_le; [exact Hasc| |exact Hi'|exact Hj0]. lia.
Qed.

(** A step leaves the declared direction as it is. *)
Lemma in_range_next_direction it :
  in_range_position it → direction (real_next it).2 = direction it.
Proof.
  intros (l & p & Hlive & Hasc & Hnoseek & Hpos).
  destruct (real_next_in_range it l p Hlive Hasc Hnoseek Hpos)
    as [(? & ? & _ & _ & ->)|(? & ? & _ & ->)]; done.
Qed.

Lemma in_range_prev_direction it :
  in_range_position it → direction (real_prev it).2 = direction it.
Proof.
  intros (l & p & Hlive & Hasc & Hnoseek & Hpos).
  destruct (real_prev_in_range it l p Hlive Hasc Hnoseek Hpos)
    as [(? & e & _ & _ & _ & ->)|(? & ? & _ & ->)]; [|done].
  unfold yield_and_step_back. by destruct (current_of it e).
Qed.

Lemma in_range_round_trip it : in_range_position it → round_trip it.
Proof.
  intros Hin. split; intros o it1;
    rewrite Iterator__next___direction, Iterator_prev_direction.
  - destruct (direction it) eqn:Hdir; intros Hcall.
    + assert (direction it1 = FORWARD) as ->.
      { replace it1 with (real_next it).2 by (by rewrite Hcall).
        by rewrite in_range_next_direction. }
      by eapply next_then_prev.
    + assert (direction it1 = REVERSE) as ->.
      { replace it1 with (real_prev it).2 by (by rewrite Hcall).
        by rewrite in_range_prev_direction. }
      by eapply prev_then_next.
  - destruct (direction it) eqn:Hdir; intros Hcall.
    + assert (direction it1 = FORWARD) as ->.
      { replace it1 with (real_prev it).2 by (by rewrite Hcall).
        by rewrite in_range_prev_direction. }
      by eapply prev_then_next.
    + assert (direction it1 = REVERSE) as ->.
      { replace it1 with (real_next it).2 by (by rewrite Hcall).
        by rewrite in_range_next_direction. }
      by eapply next_then_prev.
Qed.

(** Where C2 holds whatever the bounds are.  Take an iterator over entries
    in ascending order under the handle's comparator and any point of a
    traversal made of [next()],
    [prev()], [seek_to_start()] and [seek_to_stop()] calls, without
    [seek(target)].  If [next()] yields an entry there, the [prev()] after
    it yields the same entry; if [prev()] yields an entry there, the
    [next()] after it yields the same entry. *)
Theorem round_trip_without_seek self_id key_prefix reverse start_arg stop_arg
    include_start_arg include_stop_arg prefix_arg include_key_arg
    include_value_arg verify_checksums fill_cache snapshot db it db'
    (cs : list call) :
  Iterator__init__ self_id key_prefix reverse start_arg stop_arg
    include_start_arg include_stop_arg prefix_arg include_key_arg
    include_value_arg verify_checksums fill_cache snapshot db
  = (Return it, db') →
  (∀ c, _iter it = Some c →
        strictly_ascending (comparator it) (entries c) = true) →
  Forall (λ c, is_seek c = false) cs →
  round_trip (after_calls cs it).
Proof.
  intros Hinit Hasc Hcs. apply in_range_round_trip.
  apply in_range_after_calls; [done|].
  by eapply in_range_constructed.
Qed.

Lemma round_trip_without_seek_witness :
  Forall (λ c, is_seek c = false) [CallNext; CallNext; CallPrev; CallSeekToStop] ∧
  round_trip
    (after_calls [CallNext; CallNext; CallPrev; CallSeekToStop]
       (sample_iterator sample_entries false (Some key_a) (Some key_c) false false)).
Proof.
  assert (Forall (λ c, is_seek c = false)
            [CallNext; CallNext; CallPrev; CallSeekToStop]) as Hcs
    by (repeat constructor).
  split; [exact Hcs|].
  refine (round_trip_without_seek 1 None false (Some key_a) (Some key_c)
            false false None true true false false None
            (open_db sample_entries) _ _ _ eq_refl _ Hcs).
  intros c [= <-]. reflexivity.
Defined.

(** ** Whole iterations *)

Lemma strictly_ascending_head_all cmp e l :
  strictly_ascending cmp (e :: l) = true →
  Forall (λ e', Compare cmp e.1 e'.1 < 0) l.
Proof.
  intros Hasc. apply Forall_lookup_2. intros j e' Hj.
  by eapply ascending_head_lt.
Qed.

(** Along ascending entries, once the stop bound fails it fails for good,
    and once the start bound holds it holds for good. *)
Lemma filter_bounds_past_start it l :
  strictly_ascending (comparator it) l = true →
  Forall (λ e, within_start it e.1 = true) l →
  bounded_entries it l = take_while (λ e, within_stop it e.1) l.
Proof.
  unfold bounded_entries, in_bounds.
  induction l as [|e l IH]; intros Hasc Hstart; [done|].
  apply Forall_cons in Hstart as [He Hl]. simpl. rewrite He. simpl.
  destruct (within_stop it e.1) eqn:Hstop.
  - f_equal. apply IH; [by eapply strictly_ascending_tail|done].
  - pose proof (strictly_ascending_head_all _ e l Hasc) as Hlt.
    clear IH Hasc Hl He. induction l as [|e' l IH]; [done|].
    apply Forall_cons in Hlt as [Hlt Hl]. simpl.
    assert (within_stop it e'.1 = false) as ->.
    { destruct (within_stop it e'.1) eqn:Hstop'; [|done].
      rewrite <- Hstop. symmetry.
      eapply within_stop_anti; [|exact Hstop']. lia. }
    rewrite andb_false_r. by apply IH.
Qed.

Lemma bounded_entries_from_first it l :
  strictly_ascending (comparator it) l = true →
  bounded_entries it l
  = match find_first (λ e, within_start it e.1) l with
    | Some j => take_while (λ e, within_stop it e.1) (drop j l)
    | None => []
    end.
Proof.
  induction l as [|e l IH]; intros Hasc; [done|].
  simpl find_first. destruct (within_start it e.1) eqn:Hstart.
  - simpl drop. apply filter_bounds_past_start; [done|].
    constructor; [done|].
    eapply Forall_impl;
      [exact (strictly_ascending_head_all (comparator it) e l Hasc)|].
    intros e' Hlt. eapply within_start_mono; [|exact Hstart]. simpl in Hlt. lia.
  - unfold bounded_entries, in_bounds in *. simpl. rewrite Hstart. simpl.
    rewrite IH by (by eapply strictly_ascending_tail).
    by destruct (find_first _ l).
Qed.

Lemma drop_lookup_cons (l : list entry) j e :
  l !! j = Some e → drop j l = e :: drop (S j) l.
Proof.
  revert j. induction l as [|e0 l IH]; intros [|j] Hj; try done.
  - by injection Hj as <-.
  - simpl in *. by apply IH.
Qed.

Lemma current_of_long it e :
  key_too_short it e = false → current_of it e = Return (format_entry it e).
Proof. unfold current_of. by intros ->. Qed.

Lemma take_while_elem (P : entry → bool) l e :
  e ∈ take_while P l → e ∈ l ∧ P e = true.
Proof.
  induction l as [|e0 l IH]; simpl; [by intros ?%elem_of_nil|].
  destruct (P e0) eqn:HP; [|by intros ?%elem_of_nil].
  intros [->|Hin]%elem_of_cons.
  - split; [apply list_elem_of_here|done].
  - destruct (IH Hin). split; [by apply list_elem_of_further|done].
Qed.

(** A forward iterator standing on position [j] yields what follows up to
    the stop bound. *)
Lemma iterate_forward_from it l :
  direction it = FORWARD → cursor_status it = StatusOK →
  ∀ fuel j, (length l ≤ fuel + S j)%nat →
    (∀ e, e ∈ drop (S j) l → within_stop it e.1 = true →
          key_too_short it e = false) →
    iterate fuel (moved IN_BETWEEN l (Some j) it)
    = format_entry it <$> take_while (λ e, within_stop it e.1) (drop (S j) l).
Proof.
  intros Hdir Hcs fuel. induction fuel as [|fuel IH]; intros j Hfuel Hlong.
  - rewrite drop_ge by lia. done.
  - simpl iterate. rewrite Iterator__next___direction. simpl direction.
    rewrite Hdir. rewrite (real_next_IN_BETWEEN _ l j (cursor_status it)) by done.
    unfold next_from. simpl.
    destruct (l !! S j) as [e|] eqn:Hj; simpl.
    + rewrite (drop_lookup_cons l (S j) e Hj) in Hlong |- *. simpl.
      unfold yield_or_stop.
      change (status_check (moved IN_BETWEEN l (Some j) it))
        with (status_check it).
      unfold status_check. rewrite Hcs. simpl.
      change (within_stop (moved IN_BETWEEN l (Some j) it) e.1)
        with (within_stop it e.1).
      destruct (within_stop it e.1) eqn:Hstop; [|done].
      change (current_of (moved IN_BETWEEN l (Some j) it) e)
        with (current_of it e).
      rewrite current_of_long by (apply Hlong; [apply list_elem_of_here|done]).
      change (moved IN_BETWEEN l (Some (S j)) (moved IN_BETWEEN l (Some j) it))
        with (moved IN_BETWEEN l (Some (S j)) it).
      rewrite IH; [done|lia|].
      intros e' Hin. apply Hlong. by apply list_elem_of_further.
    + apply lookup_ge_None in Hj. rewrite drop_ge by lia. done.
Qed.

(** Forward iteration: over entries in ascending order a forward iterator
    whose cursor has no error yields exactly the entries whose keys satisfy
    the bound predicate, in ascending order, when none of those keys is
    shorter than the bytes [current()] cuts off. *)
Theorem forward_iteration_yields_bounded it l p fuel :
  _iter it = Some {| entries := l; pos := p; status := StatusOK |} →
  strictly_ascending (comparator it) l = true →
  direction it = FORWARD → state it = BEFORE_START →
  (∀ e, e ∈ l → in_bounds it e.1 = true → key_too_short it e = false) →
  (length l < fuel)%nat →
  iterate fuel it = format_entry it <$> bounded_entries it l.
Proof.
  intros Hlive Hasc Hdir Hst Hlong Hfuel.
  assert (cursor_status it = StatusOK) as Hcs
    by (unfold cursor_status; by rewrite Hlive).
  destruct fuel as [|fuel]; [lia|].
  rewrite (bounded_entries_from_first it l Hasc).
  simpl iterate. rewrite Iterator__next___direction, Hdir.
  rewrite (real_next_BEFORE_START it l p StatusOK) by done. unfold next_from.
  destruct (find_first _ l) as [j|] eqn:Hfirst; simpl; [|done].
  apply find_first_Some in Hfirst as (e & Hj & Hstart & _). rewrite Hj. simpl.
  rewrite (drop_lookup_cons l j e Hj). simpl.
  unfold yield_or_stop, status_check. rewrite Hcs. simpl.
  destruct (within_stop it e.1) eqn:Hstop; [|done].
  rewrite current_of_long.
  2: { apply Hlong; [by eapply list_elem_of_lookup_2|].
       apply in_bounds_split. by split. }
  rewrite (iterate_forward_from it l Hdir Hcs); [done|lia|].
  intros e' Hin Hstop'. apply Hlong.
  - apply list_elem_of_lookup in Hin as [i Hi]. rewrite lookup_drop in Hi.
    by eapply list_elem_of_lookup_2.
  - apply in_bounds_split. split; [|done].
    apply list_elem_of_lookup in Hin as [i Hi]. rewrite lookup_drop in Hi.
    eapply within_start_mono; [|exact Hstart].
    eapply ascending_lookup_le; [exact Hasc| |exact Hj|exact Hi]. lia.
Qed.

Lemma filter_none_lookup (P : entry → bool) l :
  (∀ i e, l !! i = Some e → P e = false) → List.filter P l = [].
Proof.
  induction l as [|e l IH]; intros Hall; [done|]. simpl.
  rewrite (Hall 0%nat e eq_refl). apply IH. intros i e' Hi.
  by apply (Hall (S i)).
Qed.

Lemma filter_all_lookup (P Q : entry → bool) l :
  (∀ i e, l !! i = Some e → Q e = true) →
  List.filter (λ e, P e && Q e) l = List.filter P l.
Proof.
  induction l as [|e l IH]; intros Hall; [done|]. simpl.
  rewrite (Hall 0%nat e eq_refl), andb_true_r.
  rewrite IH; [done|]. intros i e' Hi. by apply (Hall (S i)).
Qed.

(** Walking back from an entry within the start bound collects the entries
    up to it that are within the start bound, last first. *)
Lemma walk_back_filter it l j e :
  strictly_ascending (comparator it) l = true →
  l !! j = Some e → within_start it e.1 = true →
  walk_back it l j
  = reverse (List.filter (λ e, within_start it e.1) (take (S j) l)).
Proof.
  intros Hasc. revert e. induction j as [|j IH]; intros e Hj Hstart.
  - simpl walk_back. rewrite Hj. destruct l as [|e0 l]; [done|].
    injection Hj as ->. simpl. by rewrite Hstart.
  - pred_lookup l j Hj.
    simpl walk_back. rewrite Hj, Hj0.
    rewrite (take_S_r l (S j) e Hj), List.filter_app, reverse_app. simpl.
    rewrite Hstart. simpl. f_equal.
    destruct (within_start it e0.1) eqn:Hstart0.
    + by apply (IH e0).
    + rewrite filter_none_lookup; [done|]. intros i e' Hi.
      apply lookup_take_Some in Hi as [Hi Hlt].
      destruct (within_start it e'.1) eqn:Hstart'; [|done].
      rewrite <- Hstart0. symmetry.
      eapply within_start_mono; [|exact Hstart'].
      eapply ascending_lookup_le; [exact Hasc| |exact Hi|exact Hj0]. lia.
Qed.

(** The entries within the bounds are those within the start bound among
    the entries up to the last one within the stop bound. *)
Lemma bounded_entries_up_to_last it l j :
  strictly_ascending (comparator it) l = true →
  find_last (λ e, within_stop it e.1) l = Some j →
  bounded_entries it l
  = List.filter (λ e, within_start it e.1) (take (S j) l).
Proof.
  intros Hasc Hlast.
  apply find_last_Some in Hlast as (e & Hj & Hstop & Hmax).
  unfold bounded_entries, in_bounds.
  rewrite <- (take_drop (S j) l) at 1. rewrite List.filter_app.
  rewrite (filter_none_lookup _ (drop (S j) l)).
  - rewrite app_nil_r. apply filter_all_lookup. intros i e' Hi.
    apply lookup_take_Some in Hi as [Hi Hlt].
    eapply within_stop_anti; [|exact Hstop].
    eapply ascending_lookup_le; [exact Hasc| |exact Hi|exact Hj]. lia.
  - intros i e' Hi. rewrite lookup_drop in Hi.
    rewrite (Hmax (S j + i)%nat e' ltac:(lia) Hi). apply andb_false_r.
Qed.

Lemma iterate_reverse_at_start it l p fuel :
  direction it = REVERSE →
  iterate fuel (moved BEFORE_START l p it) = [].
Proof.
  intros Hdir. destruct fuel as [|fuel]; [done|]. simpl iterate.
  rewrite Iterator__next___direction. simpl direction. rewrite Hdir.
  by rewrite (real_prev_BEFORE_START _
                {| entries := l; pos := p; status := cursor_status it |}).
Qed.

(** A reverse iterator standing on position [j] yields the entries it
    walks back over. *)
Lemma iterate_reverse_from it l :
  direction it = REVERSE → cursor_status it = StatusOK →
  ∀ fuel j e, l !! j = Some e → (j < fuel)%nat →
    key_too_short it e = false →
    (∀ i e', (i < j)%nat → l !! i = Some e' → within_start it e'.1 = true →
             key_too_short it e' = false) →
    iterate fuel (moved IN_BETWEEN l (Some j) it)
    = format_entry it <$> walk_back it l j.
Proof.
  intros Hdir Hcs fuel.
  induction fuel as [|fuel IH]; intros j e Hj Hfuel Hlong Hlongs; [lia|].
  simpl iterate. rewrite Iterator__next___direction. simpl direction.
  rewrite Hdir. rewrite (real_prev_IN_BETWEEN _ l j e (cursor_status it)) by done.
  unfold yield_and_step_back.
  change (current_of (moved IN_BETWEEN l (Some j) it) e) with (current_of it e).
  rewrite (current_of_long it e Hlong).
  change (status_check (moved IN_BETWEEN l (Some j) it)) with (status_check it).
  unfold status_check. rewrite Hcs. simpl.
  destruct j as [|j].
  - simpl. rewrite Hj. simpl. f_equal.
    by apply (iterate_reverse_at_start it l None fuel).
  - pred_lookup l j Hj.
    simpl walk_back. rewrite Hj, Hj0. simpl.
    unfold state_before. rewrite Hj0.
    change (within_start (moved IN_BETWEEN l (Some (S j)) it) e0.1)
      with (within_start it e0.1).
    destruct (within_start it e0.1) eqn:Hstart0.
    + f_equal. apply (IH j e0 Hj0); [lia| |].
      * by apply (Hlongs j); [lia|..].
      * intros i e' Hi. apply Hlongs. lia.
    + f_equal. by apply (iterate_reverse_at_start it l (Some j) fuel).
Qed.

(** Reverse iteration: over entries in ascending order a reverse iterator
    whose cursor has no error yields the entries whose keys satisfy the
    bound predicate, in descending order, unless the last entry within the
    stop bound is the inclusive start key itself: then it yields nothing.
    None of those keys is to be shorter than the bytes [current()] cuts
    off. *)
Theorem reverse_iteration_yields_bounded it l p fuel :
  _iter it = Some {| entries := l; pos := p; status := StatusOK |} →
  strictly_ascending (comparator it) l = true →
  direction it = REVERSE → state it = AFTER_STOP →
  (∀ e, e ∈ l → in_bounds it e.1 = true → key_too_short it e = false) →
  (length l < fuel)%nat →
  iterate fuel it
  = if stop_lands_on_start it l then []
    else format_entry it <$> reverse (bounded_entries it l).
Proof.
  intros Hlive Hasc Hdir Hst Hlong Hfuel. unfold stop_lands_on_start.
  assert (cursor_status it = StatusOK) as Hcs
    by (unfold cursor_status; by rewrite Hlive).
  destruct fuel as [|fuel]; [lia|].
  assert (iterate (S fuel) it
          = match (prev_from_stop it l (find_last (λ e, within_stop it e.1) l)).1 with
            | Return o =>
                o :: iterate fuel
                  (prev_from_stop it l (find_last (λ e, within_stop it e.1) l)).2
            | Raise _ => []
            end) as ->.
  { simpl iterate. rewrite Iterator__next___direction, Hdir.
    rewrite (real_prev_AFTER_STOP it l p StatusOK) by done.
    by destruct (prev_from_stop _ _ _) as [[o|x] it1]. }
  unfold prev_from_stop.
  destruct (find_last _ l) as [j|] eqn:Hlast; simpl.
  - rewrite (bounded_entries_up_to_last it l j Hasc Hlast).
    apply find_last_Some in Hlast as (e & Hj & Hstop & Hmax).
    rewrite Hj. simpl.
    destruct (at_or_before_start it e.1) eqn:Hpast; simpl.
    + destruct (within_start it e.1) eqn:Hstart; [done|].
      rewrite filter_none_lookup; [done|]. intros i e' Hi.
      apply lookup_take_Some in Hi as [Hi Hlt].
      destruct (within_start it e'.1) eqn:Hstart'; [|done].
      rewrite <- Hstart. symmetry.
      eapply within_start_mono; [|exact Hstart'].
      eapply ascending_lookup_le; [exact Hasc| |exact Hi|exact Hj]. lia.
    + pose proof (past_start_within it e.1 Hpast) as Hstart.
      assert (∀ i e', (i ≤ j)%nat → l !! i = Some e' →
                      within_start it e'.1 = true →
                      key_too_short it e' = false) as Hlongs.
      { intros i e' Hi Hi' Hstart'. apply Hlong; [by eapply list_elem_of_lookup_2|].
        apply in_bounds_split. split; [done|].
        eapply within_stop_anti; [|exact Hstop].
        eapply ascending_lookup_le; [exact Hasc| |exact Hi'|exact Hj]. done. }
      rewrite <- (walk_back_filter it l j e Hasc Hj Hstart).
      pose proof (iterate_reverse_from it l Hdir Hcs (S fuel) j e Hj) as Hwalk.
      apply lookup_lt_Some in Hj as Hlt.
      rewrite <- Hwalk; [|lia|by apply (Hlongs j)|].
      2: { intros i e' Hi. apply Hlongs. lia. }
      simpl iterate. rewrite Iterator__next___direction. simpl direction.
      rewrite Hdir.
      rewrite (real_prev_IN_BETWEEN _ l j e (cursor_status it)) by done.
      unfold check_and_step_back, yield_and_step_back, status_check.
      rewrite Hcs. simpl.
      change (current_of (moved IN_BETWEEN l (Some j) it) e)
        with (current_of it e).
      rewrite (current_of_long it e) by (by apply (Hlongs j)).
      unfold cursor_status at 1. simpl. rewrite Hcs. done.
  - unfold bounded_entries. rewrite filter_none_lookup; [done|].
    intros i e Hi. unfold in_bounds.
    rewrite (find_last_None _ l Hlast i e Hi). apply andb_false_r.
Qed.

(** ** The store stays in ascending order *)

Lemma strictly_ascending_cons cmp e l :
  strictly_ascending cmp (e :: l) = true ↔
  match l with
  | [] => True
  | e' :: _ => Compare cmp e.1 e'.1 < 0
  end ∧ strictly_ascending cmp l = true.
Proof.
  simpl. destruct l as [|e' l]; [by intuition|].
  rewrite andb_true_iff, Z.ltb_lt. done.
Qed.

Lemma store_put_head cmp k v l :
  ∃ l', store_put cmp k v l = (k, v) :: l' ∨
        ∃ e, l = e :: drop 1 l ∧ Compare cmp e.1 k < 0 ∧
             store_put cmp k v l = e :: l'.
Proof.
  destruct l as [|e l]; simpl; [by eexists; left|].
  destruct (Z.ltb_spec (Compare cmp k e.1) 0) as [Hlt|Hge]; [by eexists; left|].
  destruct (Z.eqb_spec (Compare cmp k e.1) 0) as [Heq|Hne]; [by eexists; left|].
  eexists. right. exists e. split_and!; [done| |done].
  pose proof (Compare_antisym cmp k e.1). lia.
Qed.

Lemma store_put_ascending cmp k v l :
  strictly_ascending cmp l = true →
  strictly_ascending cmp (store_put cmp k v l) = true.
Proof.
  induction l as [|e l IH]; intros Hasc; [done|].
  pose proof Hasc as Hasc'.
  apply strictly_ascending_cons in Hasc' as [Hhead Htail].
  simpl store_put.
  destruct (Z.ltb_spec (Compare cmp k e.1) 0) as [Hlt|Hge].
  - apply strictly_ascending_cons. by split.
  - destruct (Z.eqb_spec (Compare cmp k e.1) 0) as [Heq|Hne].
    + apply strictly_ascending_cons. split; [|done].
      destruct l as [|e' l]; [done|]. simpl.
      order_facts cmp k e.1 e'.1. lia.
    + apply strictly_ascending_cons. split; [|by apply IH].
      destruct (store_put_head cmp k v l) as [l' [->|(e' & Hl & Hlt & ->)]].
      * simpl. pose proof (Compare_antisym cmp k e.1). lia.
      * rewrite Hl in Hhead. done.
Qed.

Lemma store_delete_ascending cmp k l :
  strictly_ascending cmp l = true →
  strictly_ascending cmp (store_delete cmp k l) = true.
Proof.
  induction l as [|e l IH]; intros Hasc; [done|].
  pose proof Hasc as Hasc'.
  apply strictly_ascending_cons in Hasc' as [Hhead Htail].
  simpl store_delete.
  destruct (Z.ltb_spec (Compare cmp k e.1) 0) as [Hlt|Hge]; [done|].
  destruct (Z.eqb_spec (Compare cmp k e.1) 0) as [Heq|Hne]; [done|].
  apply strictly_ascending_cons. split; [|by apply IH].
  destruct l as [|e' l]; [done|]. simpl.
  destruct (Z.ltb_spec (Compare cmp k e'.1) 0); [done|].
  destruct (Z.eqb_spec (Compare cmp k e'.1) 0).
  - pose proof (strictly_ascending_head_all cmp e (e' :: l) Hasc) as Hall.
    destruct l as [|e'' l]; [done|].
    apply Forall_cons in Hall as [_ Hall].
    by apply Forall_cons in Hall as [Hall _].
  - done.
Qed.

(** Applying a batch keeps the store in ascending order, so the entries a
    later iterator runs over are in ascending order too. *)
Lemma leveldb_Write_ascending cmp ops l :
  strictly_ascending cmp l = true →
  strictly_ascending cmp (leveldb_Write cmp ops l) = true.
Proof.
  unfold leveldb_Write. revert l.
  induction ops as [|op ops IH]; intros l Hasc; [done|]. simpl.
  apply IH. destruct op; [by apply store_put_ascending|].
  by apply store_delete_ascending.
Qed.
(** ** Keys with a common prefix, in bytewise order *)

Lemma has_prefix_app (p k : bytes) :
  has_prefix p k = true ↔ ∃ t, k = p ++ t.
Proof.
  revert k. induction p as [|x p IH]; intros k; simpl.
  - split; [by exists k|done].
  - destruct k as [|y k]; [split; [done|by intros [t Ht]]|].
    rewrite andb_true_iff, bool_decide_eq_true, IH. split.
    + intros [-> [t ->]]. by exists t.
    + intros [t [= -> ->]]. split; [done|by exists t].
Qed.

Lemma has_prefix_drop (p k : bytes) :
  has_prefix p k = true → p ++ drop (length p) k = k.
Proof.
  intros [t ->]%has_prefix_app. by rewrite drop_app_length.
Qed.

Lemma bytes_increment_cons (x : byte) (p : bytes) :
  bytes_increment (x :: p)
  = match bytes_increment p with
    | Some q => Some (x :: q)
    | None => if decide (x = xff) then None else Some [byte_iadd1 x]
    end.
Proof.
  destruct (decide (Forall (λ y, y = xff) p)) as [Hp|Hp].
  - rewrite (bytes_increment_all_ff p Hp).
    destruct (decide (x = xff)) as [->|Hx].
    + apply bytes_increment_all_ff. by constructor.
    + exact (bytes_increment_last_non_ff [] p x Hx Hp).
  - apply last_non_ff_split in Hp as (h & y & t & -> & Hy & Ht).
    rewrite (bytes_increment_last_non_ff h t y Hy Ht).
    exact (bytes_increment_last_non_ff (x :: h) t y Hy Ht).
Qed.

Lemma byte_to_N_inj (x y : byte) : Byte.to_N x = Byte.to_N y → x = y.
Proof.
  intros Heq. pose proof (Byte.of_to_N x) as Hx. rewrite Heq, Byte.of_to_N in Hx.
  congruence.
Qed.

Lemma byte_below_ff (x : byte) : x ≠ xff → (Byte.to_N x < 255)%N.
Proof.
  intros Hx. pose proof (Byte.to_N_bounded x).
  assert (Byte.to_N x ≠ 255%N); [|lia].
  intros Heq. apply Hx. by apply byte_to_N_inj.
Qed.

Lemma bytewise_compare_nil_r (k : bytes) : 0 <= bytewise_compare k [].
Proof. by destruct k. Qed.

Lemma has_prefix_range (p k : bytes) :
  has_prefix p k = true ↔
  0 <= bytewise_compare k p ∧
  match bytes_increment p with
  | Some q => bytewise_compare k q < 0
  | None => True
  end.
Proof.
  revert k. induction p as [|x p IH]; intros k.
  - simpl. split; [|done]. intros _. split; [apply bytewise_compare_nil_r|done].
  - rewrite bytes_increment_cons. destruct k as [|y k]; simpl.
    { split; [done|]. intros [? _]. lia. }
    destruct (Byte.to_N y ?= Byte.to_N x)%N eqn:Eyx.
    + apply N.compare_eq in Eyx. apply byte_to_N_inj in Eyx as ->.
      rewrite bool_decide_eq_true_2 by done. simpl. rewrite IH.
      destruct (bytes_increment p) as [q|]; simpl.
      * by rewrite N.compare_refl.
      * destruct (decide (x = xff)) as [->|Hx]; [done|]. simpl.
        rewrite byte_iadd1_to_N by done.
        assert ((Byte.to_N x ?= Byte.to_N x + 1)%N = Lt) as ->
          by (apply N.compare_lt_iff; lia).
        split; [intros [? _]; split; [done|lia]|intros [? _]; by split].
    + rewrite bool_decide_eq_false_2.
      2: { intros ->. by rewrite N.compare_refl in Eyx. }
      simpl. split; [done|]. intros [? _]. lia.
    + rewrite bool_decide_eq_false_2.
      2: { intros ->. by rewrite N.compare_refl in Eyx. }
      simpl. split; [done|]. intros [_ Hq]. exfalso.
      apply N.compare_gt_iff in Eyx.
      destruct (bytes_increment p) as [q|]; simpl in Hq.
      * assert ((Byte.to_N y ?= Byte.to_N x)%N = Gt) as Hgt
          by (apply N.compare_gt_iff; lia).
        rewrite Hgt in Hq. lia.
      * destruct (decide (x = xff)) as [->|Hx].
        { pose proof (Byte.to_N_bounded y). simpl in Eyx. lia. }
        simpl in Hq. rewrite byte_iadd1_to_N in Hq by done.
        destruct (Byte.to_N y ?= Byte.to_N x + 1)%N eqn:E.
        -- pose proof (bytewise_compare_nil_r k). lia.
        -- rewrite N.compare_lt_iff in E. lia.
        -- lia.
Qed.

(** X1. The keys that start with [p] are the keys of the half-open range
    from [p] to [bytes_increment p] in bytewise order; when [bytes_increment
    p] is [None] the range has no upper end. *)
Theorem prefix_keys_form_range (p k : bytes) :
  has_prefix p k = true ↔
  0 <= bytewise_compare k p ∧
  match bytes_increment p with
  | Some q => bytewise_compare k q < 0
  | None => True
  end.
Proof. apply has_prefix_range. Qed.
(** ** Range iteration, from [DB.iterator] to the last entry *)

Lemma format_entry_render it :
  format_entry it = render (include_key it) (include_value it) (skip_key_bytes it).
Proof. done. Qed.

Lemma bounded_entries_range it l :
  bounded_entries it l
  = range_entries (comparator it) (start it) (stop it) (include_start it)
      (include_stop it) l.
Proof. done. Qed.

Lemma stop_lands_on_start_range it l :
  stop_lands_on_start it l
  = ends_on_inclusive_start (comparator it) (start it) (stop it)
      (include_start it) (include_stop it) l.
Proof.
  unfold stop_lands_on_start, ends_on_inclusive_start.
  rewrite (find_last_ext (λ e, within_stop it e.1)
             (λ e, key_in_range (comparator it) None (stop it) true
                     (include_stop it) e.1)) by done.
  destruct (find_last _ l ≫= _) as [e|]; [|by destruct (start it)].
  unfold at_or_before_start, within_start.
  destruct (start it) as [s|]; [|done].
  pose proof (Compare_antisym (comparator it) e.1 s).
  destruct (include_start it); simpl;
    repeat split_test; try done; lia.
Qed.

Lemma key_too_short_no_skip it e :
  skip_key_bytes it = 0%nat → key_too_short it e = false.
Proof.
  unfold key_too_short. intros ->.
  rewrite (proj2 (Nat.ltb_ge _ _)) by lia. apply andb_false_r.
Qed.

(** The iterator [Iterator.__init__] builds on an open handle when neither
    a view prefix nor [prefix] is given. *)
Lemma Iterator__init___plain self_id reverse start_arg stop_arg include_start_arg
    include_stop_arg include_key_arg include_value_arg verify_checksums
    fill_cache snapshot db e reg :
  _db db = Some e → iterators db = Some reg →
  Iterator__init__ self_id None reverse start_arg stop_arg include_start_arg
    include_stop_arg None include_key_arg include_value_arg verify_checksums
    fill_cache snapshot db
  = (Return {| _iter := Some (NewIterator e snapshot);
               direction := if reverse then REVERSE else FORWARD;
               state := if reverse then AFTER_STOP else BEFORE_START;
               comparator := DB_comparator db;
               start := start_arg; stop := stop_arg;
               include_start := include_start_arg;
               include_stop := include_stop_arg;
               include_key := include_key_arg;
               include_value := include_value_arg;
               skip_key_bytes := 0 |},
     set_iterators (Some ({[self_id]} ∪ reg)) db).
Proof.
  intros He Hreg. unfold Iterator__init__, _register_iterator. run_method.
  by rewrite He, Hreg.
Qed.

Lemma DB_iterator_plain self_id start_arg stop_arg include_start_arg
    include_stop_arg include_key_arg include_value_arg verify_checksums
    fill_cache db e reg fuel :
  _db db = Some e → iterators db = Some reg →
  strictly_ascending (DB_comparator db) (contents e) = true →
  (length (contents e) < fuel)%nat →
  ∃ it,
    DB_iterator self_id false start_arg stop_arg include_start_arg
      include_stop_arg None include_key_arg include_value_arg
      verify_checksums fill_cache db
    = (Return it, set_iterators (Some ({[self_id]} ∪ reg)) db) ∧
    iterate fuel it
    = render include_key_arg include_value_arg 0
        <$> range_entries (DB_comparator db) start_arg stop_arg
              include_start_arg include_stop_arg (contents e).
Proof.
  intros He Hreg Hasc Hfuel. eexists. split.
  - unfold DB_iterator. by apply Iterator__init___plain.
  - rewrite (forward_iteration_yields_bounded _ (contents e) None); try done.
    intros e' _ _. by apply key_too_short_no_skip.
Qed.

(** X2. Forward iteration from [DB.iterator]: on an open handle the new
    iterator hands back, in ascending key order, exactly the stored entries
    whose key is in the range. *)
Theorem DB_iterator_yields_range self_id start_arg stop_arg include_start_arg
    include_stop_arg include_key_arg include_value_arg verify_checksums
    fill_cache db e reg fuel :
  _db db = Some e → iterators db = Some reg →
  strictly_ascending (DB_comparator db) (contents e) = true →
  (length (contents e) < fuel)%nat →
  ∃ it,
    DB_iterator self_id false start_arg stop_arg include_start_arg
      include_stop_arg None include_key_arg include_value_arg
      verify_checksums fill_cache db
    = (Return it, set_iterators (Some ({[self_id]} ∪ reg)) db) ∧
    iterate fuel it
    = render include_key_arg include_value_arg 0
        <$> range_entries (DB_comparator db) start_arg stop_arg
              include_start_arg include_stop_arg (contents e).
Proof. apply DB_iterator_plain. Qed.

Lemma DB_iterator_yields_range_witness :
  ∃ it,
    DB_iterator 1 false (Some key_a) (Some key_c) false true None true true
      None None (open_db sample_entries)
    = (Return it, set_iterators (Some ({[1%nat]} ∪ ∅)) (open_db sample_entries)) ∧
    iterate 4 it = [OutPair key_b val_2; OutPair key_c val_3].
Proof.
  exact (DB_iterator_yields_range 1 (Some key_a) (Some key_c) false true true
           true None None (open_db sample_entries)
           {| contents := sample_entries; write_status := StatusOK |} ∅ 4 eq_refl eq_refl eq_refl
           ltac:(simpl; lia)).
Defined.

(** X3. Reverse iteration from [DB.iterator]: the entries in the range in
    descending key order, unless the greatest stored key within the stop
    bound equals an inclusive [start]: then nothing is handed back. *)
Theorem DB_iterator_reverse_yields_range self_id start_arg stop_arg
    include_start_arg include_stop_arg include_key_arg include_value_arg
    verify_checksums fill_cache db e reg fuel :
  _db db = Some e → iterators db = Some reg →
  strictly_ascending (DB_comparator db) (contents e) = true →
  (length (contents e) < fuel)%nat →
  ∃ it,
    DB_iterator self_id true start_arg stop_arg include_start_arg
      include_stop_arg None include_key_arg include_value_arg
      verify_checksums fill_cache db
    = (Return it, set_iterators (Some ({[self_id]} ∪ reg)) db) ∧
    iterate fuel it
    = if ends_on_inclusive_start (DB_comparator db) start_arg stop_arg
           include_start_arg include_stop_arg (contents e)
      then []
      else render include_key_arg include_value_arg 0
             <$> reverse (range_entries (DB_comparator db) start_arg stop_arg
                            include_start_arg include_stop_arg (contents e)).
Proof.
  intros He Hreg Hasc Hfuel. eexists. split.
  - unfold DB_iterator. by apply Iterator__init___plain.
  - rewrite (reverse_iteration_yields_bounded _ (contents e) None); try done.
    + by rewrite stop_lands_on_start_range.
    + intros e' _ _. by apply key_too_short_no_skip.
Qed.

Lemma DB_iterator_reverse_yields_range_witness :
  ∃ it,
    DB_iterator 1 true (Some key_a) (Some key_c) false true None true true
      None None (open_db sample_entries)
    = (Return it, set_iterators (Some ({[1%nat]} ∪ ∅)) (open_db sample_entries)) ∧
    iterate 4 it = [OutPair key_c val_3; OutPair key_b val_2].
Proof.
  exact (DB_iterator_reverse_yields_range 1 (Some key_a) (Some key_c) false true
           true true None None (open_db sample_entries)
           {| contents := sample_entries; write_status := StatusOK |} ∅ 4 eq_refl eq_refl eq_refl
           ltac:(simpl; lia)).
Defined.
(** ** Bytewise order and prefixes *)

Lemma bytewise_compare_app (P a b : bytes) :
  bytewise_compare (P ++ a) (P ++ b) = bytewise_compare a b.
Proof.
  induction P as [|x P IH]; simpl; [done|]. by rewrite N.compare_refl.
Qed.

Lemma bytewise_compare_eq (a b : bytes) : bytewise_compare a b = 0 ↔ a = b.
Proof.
  revert b. induction a as [|x a IH]; intros [|y b]; simpl; try done.
  destruct (Byte.to_N x ?= Byte.to_N y)%N eqn:E.
  - apply N.compare_eq in E. apply byte_to_N_inj in E as ->.
    rewrite IH. split; [by intros ->|by intros [= ->]].
  - split; [lia|]. intros [= -> ->]. by rewrite N.compare_refl in E.
  - split; [lia|]. intros [= -> ->]. by rewrite N.compare_refl in E.
Qed.

Lemma has_prefix_app_l (P p k : bytes) :
  has_prefix (P ++ p) k = has_prefix P k && has_prefix p (drop (length P) k).
Proof.
  revert k. induction P as [|x P IH]; intros k; simpl; [done|].
  destruct k as [|y k]; simpl; [done|].
  by rewrite IH, andb_assoc.
Qed.

Lemma has_prefix_self_app (P t : bytes) : has_prefix P (P ++ t) = true.
Proof. apply has_prefix_app. by exists t. Qed.

(** The range test of a prefix, as a boolean. *)
Lemma key_in_range_prefix (p k : bytes) :
  key_in_range BytewiseComparator (Some p) (bytes_increment p) true false k
  = has_prefix p k.
Proof.
  apply eq_true_iff_eq. rewrite has_prefix_range.
  unfold key_in_range. rewrite andb_true_iff, Z.leb_le. simpl.
  destruct (bytes_increment p); [by rewrite Z.ltb_lt|]. tauto.
Qed.

(** The bounds [Iterator.__init__] derives for a view with prefix [P] from
    the caller's range select the keys of the view whose stripped key is in
    that range. *)
Lemma key_in_range_view (P : bytes) start_arg stop_arg include_start_arg
    include_stop_arg (k : bytes) :
  key_in_range BytewiseComparator
    (Some (match start_arg with Some s => P ++ s | None => P end))
    (match stop_arg with Some s => Some (P ++ s) | None => bytes_increment P end)
    (match start_arg with Some _ => include_start_arg | None => true end)
    (match stop_arg with Some _ => include_stop_arg | None => false end) k
  = has_prefix P k &&
    key_in_range BytewiseComparator start_arg stop_arg include_start_arg
      include_stop_arg (drop (length P) k).
Proof.
  destruct (has_prefix P k) eqn:HP.
  - apply has_prefix_app in HP as [k' ->]. rewrite drop_app_length. simpl.
    unfold key_in_range. simpl. f_equal.
    + destruct start_arg as [s|].
      * by rewrite bytewise_compare_app.
      * apply Z.leb_le.
        apply (proj1 (has_prefix_range P (P ++ k')) (has_prefix_self_app P k')).
    + destruct stop_arg as [s|].
      * by rewrite bytewise_compare_app.
      * pose proof (proj1 (has_prefix_range P (P ++ k'))
                      (has_prefix_self_app P k')) as [_ Hq].
        destruct (bytes_increment P); [by apply Z.ltb_lt|done].
  - simpl. apply not_true_is_false. intros Hin. apply not_true_iff_false in HP.
    apply HP. apply has_prefix_range.
    unfold key_in_range in Hin. apply andb_true_iff in Hin as [Hlo Hhi].
    simpl in Hlo, Hhi. split.
    + destruct start_arg as [s|]; [|by apply Z.leb_le].
      pose proof (proj1 (has_prefix_range P (P ++ s)) (has_prefix_self_app P s))
        as [HPs _].
      order_facts BytewiseComparator P (P ++ s) k. simpl in *.
      destruct include_start_arg;
        [apply Z.leb_le in Hlo|apply Z.ltb_lt in Hlo]; lia.
    + destruct stop_arg as [s|].
      * pose proof (proj1 (has_prefix_range P (P ++ s)) (has_prefix_self_app P s))
          as [_ HPs].
        destruct (bytes_increment P) as [q|]; [|done].
        order_facts BytewiseComparator k (P ++ s) q. simpl in *.
        destruct include_stop_arg;
          [apply Z.leb_le in Hhi|apply Z.ltb_lt in Hhi]; lia.
      * destruct (bytes_increment P) as [q|]; [by apply Z.ltb_lt in Hhi|done].
Qed.

Lemma filter_view (A B C : entry → bool) (f g : entry → output)
    (strip : entry → entry) (l : list entry) :
  (∀ e, A e = B e && C (strip e)) →
  (∀ e, f e = g (strip e)) →
  f <$> List.filter A l = g <$> List.filter C (strip <$> List.filter B l).
Proof.
  intros HA Hf. induction l as [|e l IH]; [done|].
  cbn [List.filter]. rewrite HA.
  destruct (B e); cbn [andb List.filter]; [|exact IH].
  rewrite fmap_cons. cbn [List.filter].
  destruct (C (strip e)); [|exact IH].
  rewrite !fmap_cons, Hf. by f_equal.
Qed.
(** ** Iterating through a prefix *)

(** A key that starts with [P] is at least as long as [P], so [current()]
    can cut [P] off it. *)
Lemma has_prefix_long it (P : bytes) (e : entry) :
  skip_key_bytes it = length P → has_prefix P e.1 = true →
  key_too_short it e = false.
Proof.
  intros Hskip [t Ht]%has_prefix_app. unfold key_too_short.
  rewrite Hskip, Ht, length_app, (proj2 (Nat.ltb_ge _ _)) by lia.
  apply andb_false_r.
Qed.

(** The iterator [Iterator.__init__] builds for a view with prefix [P]
    when no [prefix] is given. *)
Lemma Iterator__init___view self_id (P : bytes) reverse start_arg stop_arg
    include_start_arg include_stop_arg include_key_arg include_value_arg
    verify_checksums fill_cache snapshot db e reg :
  _db db = Some e → iterators db = Some reg →
  Iterator__init__ self_id (Some P) reverse start_arg stop_arg include_start_arg
    include_stop_arg None include_key_arg include_value_arg verify_checksums
    fill_cache snapshot db
  = (Return {| _iter := Some (NewIterator e snapshot);
               direction := if reverse then REVERSE else FORWARD;
               state := if reverse then AFTER_STOP else BEFORE_START;
               comparator := DB_comparator db;
               start := Some (match start_arg with
                              | Some s => P ++ s
                              | None => P
                              end);
               stop := match stop_arg with
                       | Some s => Some (P ++ s)
                       | None => bytes_increment P
                       end;
               include_start := match start_arg with
                                | Some _ => include_start_arg
                                | None => true
                                end;
               include_stop := match stop_arg with
                               | Some _ => include_stop_arg
                               | None => false
                               end;
               include_key := include_key_arg;
               include_value := include_value_arg;
               skip_key_bytes := length P |},
     set_iterators (Some ({[self_id]} ∪ reg)) db).
Proof.
  intros He Hreg. unfold Iterator__init__, _register_iterator. run_method.
  rewrite He. destruct start_arg, stop_arg; simpl; by rewrite Hreg.
Qed.

(** The iterator it builds when [prefix] is given and [start] and [stop]
    are not. *)
Lemma Iterator__init___prefixed self_id key_prefix reverse include_start_arg
    include_stop_arg (p : bytes) include_key_arg include_value_arg
    verify_checksums fill_cache snapshot db e reg :
  _db db = Some e → iterators db = Some reg →
  let prefix' := match key_prefix with Some P => P ++ p | None => p end in
  Iterator__init__ self_id key_prefix reverse None None include_start_arg
    include_stop_arg (Some p) include_key_arg include_value_arg verify_checksums
    fill_cache snapshot db
  = (Return {| _iter := Some (NewIterator e snapshot);
               direction := if reverse then REVERSE else FORWARD;
               state := if reverse then AFTER_STOP else BEFORE_START;
               comparator := DB_comparator db;
               start := Some prefix';
               stop := bytes_increment prefix';
               include_start := true;
               include_stop := false;
               include_key := include_key_arg;
               include_value := include_value_arg;
               skip_key_bytes := match key_prefix with
                                 | Some P => length P
                                 | None => 0%nat
                                 end |},
     set_iterators (Some ({[self_id]} ∪ reg)) db).
Proof.
  intros He Hreg. unfold Iterator__init__, _register_iterator. run_method.
  rewrite He. destruct key_prefix; simpl; by rewrite Hreg.
Qed.

(** X4. [db.iterator(prefix=p)] under the built-in comparator: the new
    iterator hands back, in ascending key order, exactly the stored entries
    whose key starts with [p]. *)
Theorem DB_iterator_prefix_yields_prefixed self_id (p : bytes) include_start_arg
    include_stop_arg include_key_arg include_value_arg verify_checksums
    fill_cache db e reg fuel :
  _db db = Some e → iterators db = Some reg →
  DB_comparator db = BytewiseComparator →
  strictly_ascending BytewiseComparator (contents e) = true →
  (length (contents e) < fuel)%nat →
  ∃ it,
    DB_iterator self_id false None None include_start_arg include_stop_arg
      (Some p) include_key_arg include_value_arg verify_checksums fill_cache db
    = (Return it, set_iterators (Some ({[self_id]} ∪ reg)) db) ∧
    iterate fuel it
    = render include_key_arg include_value_arg 0
        <$> List.filter (λ e, has_prefix p e.1) (contents e).
Proof.
  intros He Hreg Hcmp Hasc Hfuel. eexists. split.
  - unfold DB_iterator.
    by apply (Iterator__init___prefixed self_id None).
  - rewrite (forward_iteration_yields_bounded _ (contents e) None);
      [|done|by rewrite Hcmp|done..| |done].
    2: { intros e' _ _. by apply key_too_short_no_skip. }
    rewrite bounded_entries_range. simpl. rewrite Hcmp. f_equal.
    unfold range_entries. apply List.filter_ext. intros e'.
    apply key_in_range_prefix.
Qed.

Lemma DB_iterator_prefix_yields_prefixed_witness :
  ∃ it,
    DB_iterator 1 false None None false true (Some key_b) true true None None
      (open_db sample_entries)
    = (Return it, set_iterators (Some ({[1%nat]} ∪ ∅)) (open_db sample_entries)) ∧
    iterate 4 it = [OutPair key_b val_2].
Proof.
  exact (DB_iterator_prefix_yields_prefixed 1 key_b false true true true None
           None (open_db sample_entries) {| contents := sample_entries; write_status := StatusOK |} ∅ 4
           eq_refl eq_refl eq_refl eq_refl ltac:(simpl; lia)).
Defined.

(** X5. Iterating a view with prefix [P] under the built-in comparator is
    iterating the range over what the view shows: the entries whose key
    starts with [P], with [P] taken off the keys handed back and the
    caller's [start] and [stop] read as keys of the view. *)
Theorem PrefixedDB_iterator_as_view (self : PrefixedDB.t) self_id start_arg
    stop_arg include_start_arg include_stop_arg include_key_arg
    include_value_arg verify_checksums fill_cache db e reg fuel :
  _db db = Some e → iterators db = Some reg →
  DB_comparator db = BytewiseComparator →
  strictly_ascending BytewiseComparator (contents e) = true →
  (length (contents e) < fuel)%nat →
  ∃ it,
    PrefixedDB_iterator self self_id false start_arg stop_arg include_start_arg
      include_stop_arg None include_key_arg include_value_arg verify_checksums
      fill_cache db
    = (Return it, set_iterators (Some ({[self_id]} ∪ reg)) db) ∧
    iterate fuel it
    = render include_key_arg include_value_arg 0
        <$> range_entries BytewiseComparator start_arg stop_arg
              include_start_arg include_stop_arg
              (view_contents (PrefixedDB.prefix self) (contents e)).
Proof.
  intros He Hreg Hcmp Hasc Hfuel. eexists. split.
  - unfold PrefixedDB_iterator. by apply Iterator__init___view.
  - rewrite (forward_iteration_yields_bounded _ (contents e) None);
      [|done|by rewrite Hcmp|done..| |done].
    2: { intros e' _ Hin.
         apply (has_prefix_long _ (PrefixedDB.prefix self)); [done|].
         change (key_in_range (DB_comparator db)
                   (Some (match start_arg with
                          | Some s => PrefixedDB.prefix self ++ s
                          | None => PrefixedDB.prefix self
                          end))
                   (match stop_arg with
                    | Some s => Some (PrefixedDB.prefix self ++ s)
                    | None => bytes_increment (PrefixedDB.prefix self)
                    end)
                   (match start_arg with
                    | Some _ => include_start_arg | None => true end)
                   (match stop_arg with
                    | Some _ => include_stop_arg | None => false end)
                   e'.1 = true) in Hin.
         rewrite Hcmp, key_in_range_view in Hin.
         by apply andb_true_iff in Hin as [? _]. }
    rewrite bounded_entries_range. simpl. rewrite Hcmp.
    unfold range_entries, view_contents.
    apply (filter_view _ (λ e, has_prefix (PrefixedDB.prefix self) e.1)
             (λ e, key_in_range BytewiseComparator start_arg stop_arg
                     include_start_arg include_stop_arg e.1)).
    + intros e'. apply key_in_range_view.
    + intros e'. unfold format_entry, render. simpl.
      by destruct include_key_arg, include_value_arg.
Qed.

Lemma PrefixedDB_iterator_as_view_witness :
  ∃ it,
    PrefixedDB_iterator (DB_prefixed_db key_b) 1 false None None true false None
      true true None None (open_db sample_entries)
    = (Return it, set_iterators (Some ({[1%nat]} ∪ ∅)) (open_db sample_entries)) ∧
    iterate 4 it = [OutPair [] val_2].
Proof.
  exact (PrefixedDB_iterator_as_view (DB_prefixed_db key_b) 1 None None true
           false true true None None (open_db sample_entries)
           {| contents := sample_entries; write_status := StatusOK |} ∅ 4
           eq_refl eq_refl eq_refl eq_refl ltac:(simpl; lia)).
Defined.

(** X6. [prefix=p] on a view with prefix [P]: the entries of the view whose
    key, as the view shows it, starts with [p]. *)
Theorem PrefixedDB_iterator_prefix_yields_prefixed (self : PrefixedDB.t) self_id
    (p : bytes) include_start_arg include_stop_arg include_key_arg
    include_value_arg verify_checksums fill_cache db e reg fuel :
  _db db = Some e → iterators db = Some reg →
  DB_comparator db = BytewiseComparator →
  strictly_ascending BytewiseComparator (contents e) = true →
  (length (contents e) < fuel)%nat →
  ∃ it,
    PrefixedDB_iterator self self_id false None None include_start_arg
      include_stop_arg (Some p) include_key_arg include_value_arg
      verify_checksums fill_cache db
    = (Return it, set_iterators (Some ({[self_id]} ∪ reg)) db) ∧
    iterate fuel it
    = render include_key_arg include_value_arg 0
        <$> List.filter (λ e, has_prefix p e.1)
              (view_contents (PrefixedDB.prefix self) (contents e)).
Proof.
  intros He Hreg Hcmp Hasc Hfuel. eexists. split.
  - unfold PrefixedDB_iterator.
    by apply (Iterator__init___prefixed self_id (Some (PrefixedDB.prefix self))).
  - rewrite (forward_iteration_yields_bounded _ (contents e) None);
      [|done|by rewrite Hcmp|done..| |done].
    2: { intros e' _ Hin.
         apply (has_prefix_long _ (PrefixedDB.prefix self)); [done|].
         change (key_in_range (DB_comparator db)
                   (Some (PrefixedDB.prefix self ++ p))
                   (bytes_increment (PrefixedDB.prefix self ++ p)) true false
                   e'.1 = true) in Hin.
         rewrite Hcmp, key_in_range_prefix, has_prefix_app_l in Hin.
         by apply andb_true_iff in Hin as [? _]. }
    rewrite bounded_entries_range. simpl. rewrite Hcmp.
    unfold range_entries, view_contents.
    apply (filter_view _ (λ e, has_prefix (PrefixedDB.prefix self) e.1)
             (λ e, has_prefix p e.1)).
    + intros e'. rewrite key_in_range_prefix. apply has_prefix_app_l.
    + intros e'. unfold format_entry, render. simpl.
      by destruct include_key_arg, include_value_arg.
Qed.

Lemma PrefixedDB_iterator_prefix_yields_prefixed_witness :
  ∃ it,
    PrefixedDB_iterator (DB_prefixed_db []) 1 false None None true false
      (Some key_c) true true None None (open_db sample_entries)
    = (Return it, set_iterators (Some ({[1%nat]} ∪ ∅)) (open_db sample_entries)) ∧
    iterate 4 it = [OutPair key_c val_3].
Proof.
  exact (PrefixedDB_iterator_prefix_yields_prefixed (DB_prefixed_db []) 1 key_c
           true false true true None None (open_db sample_entries)
           {| contents := sample_entries; write_status := StatusOK |} ∅ 4
           eq_refl eq_refl eq_refl eq_refl ltac:(simpl; lia)).
Defined.
(** ** Reading what was written *)

Lemma store_get_put_same cmp k v l :
  store_get cmp k (store_put cmp k v l) = Some v.
Proof.
  induction l as [|e l IH]; simpl.
  - by rewrite Compare_refl.
  - destruct (Compare cmp k e.1 <? 0) eqn:T1; simpl;
      [by rewrite Compare_refl|].
    destruct (Compare cmp k e.1 =? 0) eqn:T2; simpl;
      [by rewrite Compare_refl|].
    by rewrite T1, T2.
Qed.

Lemma store_get_put_other cmp k k' v l :
  Compare cmp k' k ≠ 0 →
  store_get cmp k' (store_put cmp k v l) = store_get cmp k' l.
Proof.
  intros Hne. induction l as [|e l IH]; simpl.
  - repeat split_test; done.
  - order_facts cmp k' k e.1.
    destruct (Compare cmp k e.1 <? 0) eqn:T1;
      [apply Z.ltb_lt in T1|apply Z.ltb_ge in T1].
    + simpl. repeat split_test; try done; lia.
    + destruct (Compare cmp k e.1 =? 0) eqn:T2;
        [apply Z.eqb_eq in T2|apply Z.eqb_neq in T2]; simpl.
      * repeat split_test; try done; lia.
      * by rewrite IH.
Qed.

Lemma store_get_above cmp k l :
  strictly_ascending cmp l = true →
  match l with [] => True | e :: _ => Compare cmp k e.1 < 0 end →
  store_get cmp k l = None.
Proof.
  destruct l as [|e l]; [done|]. intros _ Hlt. simpl.
  by rewrite (proj2 (Z.ltb_lt _ _)).
Qed.

Lemma store_get_delete_same cmp k l :
  strictly_ascending cmp l = true →
  store_get cmp k (store_delete cmp k l) = None.
Proof.
  induction l as [|e l IH]; intros Hasc; simpl; [done|].
  destruct (Compare cmp k e.1 <? 0) eqn:T1.
  - simpl. by rewrite T1.
  - destruct (Compare cmp k e.1 =? 0) eqn:T2.
    + apply strictly_ascending_cons in Hasc as [Hhd Hasc].
      apply store_get_above; [done|].
      destruct l as [|e' l]; [done|].
      apply Z.eqb_eq in T2. order_facts cmp k e.1 e'.1. lia.
    + simpl. rewrite T1, T2. apply IH.
      by apply strictly_ascending_tail in Hasc.
Qed.

Lemma store_get_delete_other cmp k k' l :
  strictly_ascending cmp l = true →
  Compare cmp k' k ≠ 0 →
  store_get cmp k' (store_delete cmp k l) = store_get cmp k' l.
Proof.
  intros Hasc Hne. induction l as [|e l IH]; simpl; [done|].
  destruct (Compare cmp k e.1 <? 0) eqn:T1; [done|].
  apply Z.ltb_ge in T1.
  pose proof Hasc as [Hhd Hasc']%strictly_ascending_cons.
  destruct (Compare cmp k e.1 =? 0) eqn:T2;
    [apply Z.eqb_eq in T2|apply Z.eqb_neq in T2]; simpl.
  - order_facts cmp k' k e.1.
    destruct (Compare cmp k' e.1 <? 0) eqn:T3;
      [apply Z.ltb_lt in T3|apply Z.ltb_ge in T3].
    + apply store_get_above; [done|].
      destruct l as [|e' l]; [done|].
      pose proof (Compare_lt_trans cmp k' e.1 e'.1). lia.
    + rewrite (proj2 (Z.eqb_neq _ _)) by lia. done.
  - by rewrite IH.
Qed.

(** Running the read and write methods of the handle. *)
Ltac run_store :=
  unfold PrefixedDB_get, PrefixedDB_put, PrefixedDB_delete, Snapshot_get,
    DB_get, DB_put, DB_delete, db_get, leveldb_Get, leveldb_Put, leveldb_Delete,
    unless_None;
  run_method; simpl.

Lemma DB_get_open {D} k (d : D) verify_checksums fill_cache db e :
  _db db = Some e →
  DB_get k d verify_checksums fill_cache db
  = (Return (match store_get (DB_comparator db) k (contents e) with
             | Some v => GotValue v
             | None => GotDefault d
             end), db).
Proof.
  intros He. run_store. rewrite He.
  destruct verify_checksums, fill_cache; simpl; rewrite He;
    by destruct (store_get _ _ _).
Qed.

(** A write on an open handle: the engine's verdict decides. *)
Lemma write_outcome_run (e : leveldb_DB) (l : list entry) (db : DB) :
  _db db = Some e →
  (let '(st, e') := write_outcome e l in
   bind (modify (set_db (Some e'))) (λ _, lift_result (raise_for_status st))) db
  = (raise_for_status (write_status e),
     match write_status e with
     | StatusOK => set_db (Some (set_contents l e)) db
     | _ => db
     end).
Proof.
  destruct db as [e' o r]. simpl. intros ->.
  unfold write_outcome. run_method. by destruct (write_status e).
Qed.

Lemma DB_put_open k v sync db e :
  _db db = Some e →
  DB_put k v sync db
  = (raise_for_status (write_status e),
     match write_status e with
     | StatusOK =>
         set_db (Some (set_contents
           (store_put (DB_comparator db) k v (contents e)) e)) db
     | _ => db
     end).
Proof.
  intros He. unfold DB_put, leveldb_Put. unfold bind at 1, get. rewrite He.
  by apply write_outcome_run.
Qed.

Lemma DB_delete_open k sync db e :
  _db db = Some e →
  DB_delete k sync db
  = (raise_for_status (write_status e),
     match write_status e with
     | StatusOK =>
         set_db (Some (set_contents
           (store_delete (DB_comparator db) k (contents e)) e)) db
     | _ => db
     end).
Proof.
  intros He. unfold DB_delete, leveldb_Delete. unfold bind at 1, get. rewrite He.
  by apply write_outcome_run.
Qed.

(** X7. [put] then [get] on an open handle.  When the engine accepts the
    write, [put] returns, the value read back under the key is the one that
    was put, whatever was stored before, and a read of any key that does not
    compare equal gives what it gave before the [put].  When the engine
    refuses the write, [put] raises the error of the engine's status and
    leaves the handle as it was. *)
Theorem DB_put_then_get {D} (k v : bytes) (d : D) sync verify_checksums
    fill_cache (db : DB) (e : leveldb_DB) :
  _db db = Some e →
  (write_status e = StatusOK →
   ∃ db',
     DB_put k v sync db = (Return tt, db') ∧
     DB_get k d verify_checksums fill_cache db' = (Return (GotValue v), db') ∧
     ∀ k', Compare (DB_comparator db) k' k ≠ 0 →
       (DB_get k' d verify_checksums fill_cache db').1
       = (DB_get k' d verify_checksums fill_cache db).1) ∧
  (write_status e ≠ StatusOK →
   ∃ x, raise_for_status (write_status e) = Raise x ∧
        DB_put k v sync db = (Raise x, db)).
Proof.
  intros He. split.
  - intros Hok. eexists. rewrite (DB_put_open k v sync db e He), Hok.
    split; [done|]. split.
    + erewrite DB_get_open by done. simpl.
      by rewrite store_get_put_same.
    + intros k' Hne. erewrite !DB_get_open by done. simpl.
      by rewrite store_get_put_other.
  - intros Hbad. destruct (raise_for_status_refused _ Hbad) as [x Hx].
    exists x. split; [done|].
    rewrite (DB_put_open k v sync db e He), Hx. by destruct (write_status e).
Qed.

Lemma DB_put_then_get_witness :
  (∃ db',
     DB_put key_b val_3 None (open_db sample_entries) = (Return tt, db') ∧
     DB_get key_b tt None None db' = (Return (GotValue val_3), db') ∧
     ∀ k', Compare (DB_comparator (open_db sample_entries)) k' key_b ≠ 0 →
       (DB_get k' tt None None db').1
       = (DB_get k' tt None None (open_db sample_entries)).1) ∧
  ∃ x, raise_for_status StatusIOError = Raise x ∧
       DB_put key_b val_3 None (refusing_db sample_entries)
       = (Raise x, refusing_db sample_entries).
Proof.
  split.
  - exact (proj1 (DB_put_then_get key_b val_3 tt None None None
                    (open_db sample_entries)
                    {| contents := sample_entries; write_status := StatusOK |}
                    eq_refl) eq_refl).
  - exact (proj2 (DB_put_then_get key_b val_3 tt None None None
                    (refusing_db sample_entries)
                    {| contents := sample_entries; write_status := StatusIOError |}
                    eq_refl) ltac:(discriminate)).
Defined.

(** X8. [delete] then [get] on an open handle whose entries are in ascending
    order.  When the engine accepts the write, [delete] returns, whether the
    key was stored or not, a read of the key then gives the caller's
    default, and a read of any key that does not compare equal gives what
    it gave before.  When the engine refuses the write, [delete] raises the
    error of the engine's status and leaves the handle as it was. *)
Theorem DB_delete_then_get {D} (k : bytes) (d : D) sync verify_checksums
    fill_cache (db : DB) (e : leveldb_DB) :
  _db db = Some e →
  strictly_ascending (DB_comparator db) (contents e) = true →
  (write_status e = StatusOK →
   ∃ db',
     DB_delete k sync db = (Return tt, db') ∧
     DB_get k d verify_checksums fill_cache db' = (Return (GotDefault d), db') ∧
     ∀ k', Compare (DB_comparator db) k' k ≠ 0 →
       (DB_get k' d verify_checksums fill_cache db').1
       = (DB_get k' d verify_checksums fill_cache db).1) ∧
  (write_status e ≠ StatusOK →
   ∃ x, raise_for_status (write_status e) = Raise x ∧
        DB_delete k sync db = (Raise x, db)).
Proof.
  intros He Hasc. split.
  - intros Hok. eexists. rewrite (DB_delete_open k sync db e He), Hok.
    split; [done|]. split.
    + erewrite DB_get_open by done. simpl.
      by rewrite store_get_delete_same.
    + intros k' Hne. erewrite !DB_get_open by done. simpl.
      by rewrite store_get_delete_other.
  - intros Hbad. destruct (raise_for_status_refused _ Hbad) as [x Hx].
    exists x. split; [done|].
    rewrite (DB_delete_open k sync db e He), Hx. by destruct (write_status e).
Qed.

Lemma DB_delete_then_get_witness :
  (∃ db',
     DB_delete key_b None (open_db sample_entries) = (Return tt, db') ∧
     DB_get key_b tt None None db' = (Return (GotDefault tt), db') ∧
     ∀ k', Compare (DB_comparator (open_db sample_entries)) k' key_b ≠ 0 →
       (DB_get k' tt None None db').1
       = (DB_get k' tt None None (open_db sample_entries)).1) ∧
  ∃ x, raise_for_status StatusIOError = Raise x ∧
       DB_delete key_b None (refusing_db sample_entries)
       = (Raise x, refusing_db sample_entries).
Proof.
  split.
  - exact (proj1 (DB_delete_then_get key_b tt None None None
                    (open_db sample_entries)
                    {| contents := sample_entries; write_status := StatusOK |}
                    eq_refl eq_refl) eq_refl).
  - exact (proj2 (DB_delete_then_get key_b tt None None None
                    (refusing_db sample_entries)
                    {| contents := sample_entries; write_status := StatusIOError |}
                    eq_refl eq_refl) ltac:(discriminate)).
Defined.
(** ** Reading a key and iterating agree *)

Lemma store_get_Some cmp k v l :
  strictly_ascending cmp l = true →
  store_get cmp k l = Some v ↔
  ∃ e, e ∈ l ∧ Compare cmp k e.1 = 0 ∧ e.2 = v.
Proof.
  induction l as [|e l IH]; intros Hasc; simpl.
  - split; [done|]. intros (e & He & _). by apply elem_of_nil in He.
  - pose proof Hasc as [_ Hasc']%strictly_ascending_cons.
    pose proof (strictly_ascending_head_all _ _ _ Hasc) as Hall.
    assert (∀ e', e' ∈ l → Compare cmp e.1 e'.1 < 0) as Hlater
      by (intros e' He'; by eapply Forall_forall in Hall).
    destruct (Compare cmp k e.1 <? 0) eqn:T1;
      [apply Z.ltb_lt in T1|apply Z.ltb_ge in T1].
    + split; [done|]. intros (e' & [->|He']%elem_of_cons & Heq & _); [lia|].
      specialize (Hlater e' He'). order_facts cmp k e.1 e'.1. lia.
    + destruct (Compare cmp k e.1 =? 0) eqn:T2;
        [apply Z.eqb_eq in T2|apply Z.eqb_neq in T2].
      * split.
        -- intros [= <-]. exists e. split_and!; [apply list_elem_of_here|done..].
        -- intros (e' & [->|He']%elem_of_cons & Heq & <-); [done|].
           specialize (Hlater e' He'). order_facts cmp k e.1 e'.1. lia.
      * rewrite (IH Hasc'). split.
        -- intros (e' & He' & Heq). exists e'.
           split; [by apply list_elem_of_further|done].
        -- intros (e' & [->|He']%elem_of_cons & Heq & Hv); [done|].
           by exists e'.
Qed.

Lemma filter_all_entries (l : list entry) : List.filter (λ _, true) l = l.
Proof. induction l as [|e l IH]; [done|]. simpl. by rewrite IH. Qed.

(** X9. Iterating the handle itself ([iter(db)]) to exhaustion hands back
    every stored entry, in ascending key order, and [get] agrees with it:
    [get(k)] returns [v] exactly when the iteration hands back a pair [(k',
    v)] whose key compares equal to [k]; otherwise it returns the caller's
    default. *)
Theorem DB_get_agrees_with_iteration (self_id : nat) (db : DB) (e : leveldb_DB)
    (reg : gset nat) (fuel : nat) :
  _db db = Some e → iterators db = Some reg →
  strictly_ascending (DB_comparator db) (contents e) = true →
  (length (contents e) < fuel)%nat →
  ∃ it,
    DB__iter__ self_id db
    = (Return it, set_iterators (Some ({[self_id]} ∪ reg)) db) ∧
    iterate fuel it = (λ e', OutPair e'.1 e'.2) <$> contents e ∧
    ∀ (k v : bytes) D (d : D) verify_checksums fill_cache,
      DB_get k d verify_checksums fill_cache db = (Return (GotValue v), db) ↔
      ∃ k', OutPair k' v ∈ iterate fuel it ∧ Compare (DB_comparator db) k k' = 0.
Proof.
  intros He Hreg Hasc Hfuel.
  destruct (DB_iterator_plain self_id None None true false true true None None
              db e reg fuel He Hreg Hasc Hfuel) as (it & Hit & Hrun).
  exists it.
  assert (iterate fuel it = (λ e', OutPair e'.1 e'.2) <$> contents e) as Hall.
  { rewrite Hrun. unfold range_entries, key_in_range. simpl.
    rewrite filter_all_entries.
    apply list_fmap_ext. intros _ e' _. unfold render. simpl.
    by rewrite drop_0. }
  split_and!; [|done|].
  - unfold DB__iter__. run_method. by rewrite He.
  - intros k v D d vc fc. rewrite (DB_get_open k d vc fc db e He), Hall.
    pose proof (store_get_Some (DB_comparator db) k v (contents e) Hasc) as Hget.
    split.
    + intros [= Hv].
      assert (store_get (DB_comparator db) k (contents e) = Some v) as Hsome.
      { destruct (store_get _ _ _) as [v'|]; [|done]. by injection Hv as ->. }
      apply Hget in Hsome as (e' & He' & Heq & <-).
      exists e'.1. split; [|done]. apply list_elem_of_fmap. by exists e'.
    + intros (k' & Hin & Heq).
      assert (store_get (DB_comparator db) k (contents e) = Some v) as ->; [|done].
      apply Hget.
      apply list_elem_of_fmap in Hin as (e' & [= -> ->] & He').
      by exists e'.
Qed.

Lemma DB_get_agrees_with_iteration_witness :
  ∃ it,
    DB__iter__ 1 (open_db sample_entries)
    = (Return it, set_iterators (Some ({[1%nat]} ∪ ∅)) (open_db sample_entries)) ∧
    iterate 4 it
    = [OutPair key_a val_1; OutPair key_b val_2; OutPair key_c val_3].
Proof.
  destruct (DB_get_agrees_with_iteration 1 (open_db sample_entries)
              {| contents := sample_entries; write_status := StatusOK |} ∅ 4
              eq_refl eq_refl eq_refl ltac:(simpl; lia)) as (it & Hit & Hrun & _).
  by exists it.
Defined.
(** ** What a view shows *)

Lemma view_contents_cons P e l :
  view_contents P (e :: l)
  = if has_prefix P e.1 then strip_prefix P e :: view_contents P l
    else view_contents P l.
Proof. unfold view_contents. simpl. by destruct (has_prefix P e.1). Qed.

Lemma view_contents_above P k l :
  Forall (λ e, bytewise_compare (P ++ k) e.1 < 0) l →
  Forall (λ h, bytewise_compare k h.1 < 0) (view_contents P l).
Proof.
  induction 1 as [|e l He _ IH]; [constructor|].
  rewrite view_contents_cons. destruct (has_prefix P e.1) eqn:HP; [|done].
  constructor; [|done].
  apply has_prefix_drop in HP. simpl.
  by rewrite <- HP, bytewise_compare_app in He.
Qed.

Lemma ascending_above cmp k e l :
  strictly_ascending cmp (e :: l) = true → Compare cmp k e.1 < 0 →
  Forall (λ e', Compare cmp k e'.1 < 0) (e :: l).
Proof.
  intros Hasc Hlt. constructor; [done|].
  eapply Forall_impl; [by apply strictly_ascending_head_all|].
  intros e' He'. simpl in He'. by apply (Compare_lt_trans cmp k e.1 e'.1).
Qed.

Lemma view_contents_ascending P l :
  strictly_ascending BytewiseComparator l = true →
  strictly_ascending BytewiseComparator (view_contents P l) = true.
Proof.
  induction l as [|e l IH]; intros Hasc; [done|].
  pose proof Hasc as [_ Hasc']%strictly_ascending_cons.
  rewrite view_contents_cons. destruct (has_prefix P e.1) eqn:HP; [|by apply IH].
  apply strictly_ascending_cons. split; [|by apply IH].
  pose proof (strictly_ascending_head_all _ _ _ Hasc) as Hall.
  apply has_prefix_drop in HP. rewrite <- HP in Hall.
  apply view_contents_above in Hall.
  destruct (view_contents P l) as [|h t]; [done|].
  by apply Forall_cons in Hall as [Hh _].
Qed.

Lemma store_get_view P k l :
  strictly_ascending BytewiseComparator l = true →
  store_get BytewiseComparator (P ++ k) l
  = store_get BytewiseComparator k (view_contents P l).
Proof.
  induction l as [|e l IH]; intros Hasc; [done|].
  pose proof Hasc as [_ Hasc']%strictly_ascending_cons.
  cbn [store_get]. change (Compare BytewiseComparator) with bytewise_compare.
  destruct (bytewise_compare (P ++ k) e.1 <? 0) eqn:T1.
  - apply Z.ltb_lt in T1. symmetry.
    apply store_get_above; [by apply view_contents_ascending|].
    pose proof (ascending_above BytewiseComparator (P ++ k) e l Hasc T1) as Hall.
    apply view_contents_above in Hall.
    destruct (view_contents P (e :: l)) as [|h t]; [done|].
    by apply Forall_cons in Hall as [Hh _].
  - rewrite view_contents_cons.
    destruct (bytewise_compare (P ++ k) e.1 =? 0) eqn:T2.
    + apply Z.eqb_eq, bytewise_compare_eq in T2.
      destruct e as [ek ev]. simpl in T2. subst ek. simpl.
      rewrite has_prefix_self_app. unfold strip_prefix. simpl.
      rewrite drop_app_length.
      pose proof (Compare_refl BytewiseComparator k) as Hrefl. simpl in Hrefl.
      by rewrite Hrefl.
    + destruct (has_prefix P e.1) eqn:HP; [|by apply IH].
      apply has_prefix_drop in HP. unfold strip_prefix. cbn [store_get fst snd].
      change (Compare BytewiseComparator) with bytewise_compare.
      rewrite <- HP, bytewise_compare_app in T1, T2.
      rewrite T1, T2. by apply IH.
Qed.

Lemma store_put_view P k v l :
  strictly_ascending BytewiseComparator l = true →
  view_contents P (store_put BytewiseComparator (P ++ k) v l)
  = store_put BytewiseComparator k v (view_contents P l).
Proof.
  assert (view_contents P [(P ++ k, v)] = [(k, v)]) as Hone.
  { rewrite view_contents_cons. simpl. rewrite has_prefix_self_app.
    unfold strip_prefix. simpl. by rewrite drop_app_length. }
  induction l as [|e l IH]; intros Hasc; [done|].
  pose proof Hasc as [_ Hasc']%strictly_ascending_cons.
  cbn [store_put]. change (Compare BytewiseComparator) with bytewise_compare.
  destruct (bytewise_compare (P ++ k) e.1 <? 0) eqn:T1.
  - apply Z.ltb_lt in T1.
    rewrite (view_contents_cons P (P ++ k, v)). simpl.
    rewrite has_prefix_self_app. unfold strip_prefix at 1. simpl.
    rewrite drop_app_length.
    pose proof (ascending_above BytewiseComparator (P ++ k) e l Hasc T1) as Hall.
    apply view_contents_above in Hall.
    destruct (view_contents P (e :: l)) as [|h t]; [done|].
    apply Forall_cons in Hall as [Hh _]. simpl.
    by rewrite (proj2 (Z.ltb_lt _ _)).
  - destruct (bytewise_compare (P ++ k) e.1 =? 0) eqn:T2.
    + apply Z.eqb_eq, bytewise_compare_eq in T2.
      destruct e as [ek ev]. simpl in T2. subst ek.
      rewrite (view_contents_cons P (P ++ k, v)), (view_contents_cons P (P ++ k, ev)).
      simpl. rewrite has_prefix_self_app.
      unfold strip_prefix. simpl. rewrite drop_app_length.
      pose proof (Compare_refl BytewiseComparator k) as Hrefl. simpl in Hrefl.
      by rewrite Hrefl.
    + rewrite !view_contents_cons.
      destruct (has_prefix P e.1) eqn:HP; [|by apply IH].
      apply has_prefix_drop in HP. unfold strip_prefix at 2. cbn [store_put fst snd].
      change (Compare BytewiseComparator) with bytewise_compare.
      rewrite <- HP, bytewise_compare_app in T1, T2.
      rewrite T1, T2. by rewrite IH.
Qed.

Lemma store_delete_view P k l :
  strictly_ascending BytewiseComparator l = true →
  view_contents P (store_delete BytewiseComparator (P ++ k) l)
  = store_delete BytewiseComparator k (view_contents P l).
Proof.
  induction l as [|e l IH]; intros Hasc; [done|].
  pose proof Hasc as [_ Hasc']%strictly_ascending_cons.
  cbn [store_delete]. change (Compare BytewiseComparator) with bytewise_compare.
  destruct (bytewise_compare (P ++ k) e.1 <? 0) eqn:T1.
  - apply Z.ltb_lt in T1.
    pose proof (ascending_above BytewiseComparator (P ++ k) e l Hasc T1) as Hall.
    apply view_contents_above in Hall.
    destruct (view_contents P (e :: l)) as [|h t]; [done|].
    apply Forall_cons in Hall as [Hh _]. simpl.
    by rewrite (proj2 (Z.ltb_lt _ _)).
  - destruct (bytewise_compare (P ++ k) e.1 =? 0) eqn:T2.
    + apply Z.eqb_eq, bytewise_compare_eq in T2.
      destruct e as [ek ev]. simpl in T2. subst ek.
      rewrite (view_contents_cons P (P ++ k, ev)).
      simpl. rewrite has_prefix_self_app.
      unfold strip_prefix. simpl. rewrite drop_app_length.
      pose proof (Compare_refl BytewiseComparator k) as Hrefl. simpl in Hrefl.
      by rewrite Hrefl.
    + rewrite !view_contents_cons.
      destruct (has_prefix P e.1) eqn:HP; [|by apply IH].
      apply has_prefix_drop in HP. unfold strip_prefix at 2.
      cbn [store_delete fst snd].
      change (Compare BytewiseComparator) with bytewise_compare.
      rewrite <- HP, bytewise_compare_app in T1, T2.
      rewrite T1, T2. by rewrite IH.
Qed.

(** The entries outside a view: those whose key does not start with its
    prefix. *)
Lemma store_put_outside P k v l :
  List.filter (λ e, negb (has_prefix P e.1)) (store_put BytewiseComparator (P ++ k) v l)
  = List.filter (λ e, negb (has_prefix P e.1)) l.
Proof.
  induction l as [|e l IH]; simpl.
  - by rewrite has_prefix_self_app.
  - destruct (bytewise_compare (P ++ k) e.1 <? 0) eqn:T1; simpl.
    + by rewrite has_prefix_self_app.
    + destruct (bytewise_compare (P ++ k) e.1 =? 0) eqn:T2; simpl.
      * apply Z.eqb_eq, bytewise_compare_eq in T2.
        by rewrite <- T2, has_prefix_self_app.
      * by rewrite IH.
Qed.

Lemma store_delete_outside P k l :
  List.filter (λ e, negb (has_prefix P e.1)) (store_delete BytewiseComparator (P ++ k) l)
  = List.filter (λ e, negb (has_prefix P e.1)) l.
Proof.
  induction l as [|e l IH]; simpl; [done|].
  destruct (bytewise_compare (P ++ k) e.1 <? 0) eqn:T1; simpl; [done|].
  destruct (bytewise_compare (P ++ k) e.1 =? 0) eqn:T2; simpl.
  - apply Z.eqb_eq, bytewise_compare_eq in T2.
    by rewrite <- T2, has_prefix_self_app.
  - by rewrite IH.
Qed.
(** ** Reads and writes through a view *)

(** X10. [get] on a view under the built-in comparator reads among the
    entries the view shows: it hands back the value the view shows under
    [k], and the caller's default when the view shows none. *)
Theorem PrefixedDB_get_as_view {D} (self : PrefixedDB.t) (k : bytes) (d : D)
    verify_checksums fill_cache (db : DB) (e : leveldb_DB) :
  _db db = Some e →
  DB_comparator db = BytewiseComparator →
  strictly_ascending BytewiseComparator (contents e) = true →
  PrefixedDB_get self k d verify_checksums fill_cache db
  = (Return
       (match store_get BytewiseComparator k
                (view_contents (PrefixedDB.prefix self) (contents e)) with
        | Some v => GotValue v
        | None => GotDefault d
        end), db).
Proof.
  intros He Hcmp Hasc. unfold PrefixedDB_get.
  erewrite DB_get_open by done. by rewrite Hcmp, store_get_view.
Qed.

Lemma PrefixedDB_get_as_view_witness :
  PrefixedDB_get (DB_prefixed_db key_b) [] tt None None (open_db sample_entries)
  = (Return (GotValue val_2), open_db sample_entries).
Proof.
  exact (PrefixedDB_get_as_view (DB_prefixed_db key_b) [] tt None None
           (open_db sample_entries)
           {| contents := sample_entries; write_status := StatusOK |}
           eq_refl eq_refl eq_refl).
Defined.

(** X11. [put] on a view under the built-in comparator.  When the engine
    accepts the write, it is a [put] among the entries the view shows, it
    leaves every entry outside the view as it was, and the store stays in
    ascending order.  When the engine refuses the write, [put] raises the
    error of the engine's status and leaves the handle as it was. *)
Theorem PrefixedDB_put_as_view (self : PrefixedDB.t) (k v : bytes) sync
    (db : DB) (e : leveldb_DB) :
  _db db = Some e →
  DB_comparator db = BytewiseComparator →
  strictly_ascending BytewiseComparator (contents e) = true →
  (write_status e = StatusOK →
   ∃ l',
     PrefixedDB_put self k v sync db
       = (Return tt,
          set_db (Some {| contents := l'; write_status := StatusOK |}) db) ∧
     view_contents (PrefixedDB.prefix self) l'
       = store_put BytewiseComparator k v
           (view_contents (PrefixedDB.prefix self) (contents e)) ∧
     List.filter (λ e', negb (has_prefix (PrefixedDB.prefix self) e'.1)) l'
       = List.filter (λ e', negb (has_prefix (PrefixedDB.prefix self) e'.1))
           (contents e) ∧
     strictly_ascending BytewiseComparator l' = true) ∧
  (write_status e ≠ StatusOK →
   ∃ x, raise_for_status (write_status e) = Raise x ∧
        PrefixedDB_put self k v sync db = (Raise x, db)).
Proof.
  intros He Hcmp Hasc. split.
  - intros Hok. eexists. split_and!.
    + unfold PrefixedDB_put. rewrite (DB_put_open _ v sync db e He), Hok, Hcmp.
      unfold set_contents. by rewrite Hok.
    + by apply store_put_view.
    + apply store_put_outside.
    + by apply store_put_ascending.
  - intros Hbad. destruct (raise_for_status_refused _ Hbad) as [x Hx].
    exists x. split; [done|]. unfold PrefixedDB_put.
    rewrite (DB_put_open _ v sync db e He), Hx. by destruct (write_status e).
Qed.

Lemma PrefixedDB_put_as_view_witness :
  ∃ l',
    PrefixedDB_put (DB_prefixed_db key_b) key_a val_3 None (open_db sample_entries)
      = (Return tt,
         set_db (Some {| contents := l'; write_status := StatusOK |})
           (open_db sample_entries)) ∧
    view_contents key_b l' = [([], val_2); (key_a, val_3)] ∧
    List.filter (λ e', negb (has_prefix key_b e'.1)) l'
      = [(key_a, val_1); (key_c, val_3)] ∧
    strictly_ascending BytewiseComparator l' = true.
Proof.
  exact (proj1 (PrefixedDB_put_as_view (DB_prefixed_db key_b) key_a val_3 None
                  (open_db sample_entries)
                  {| contents := sample_entries; write_status := StatusOK |}
                  eq_refl eq_refl eq_refl) eq_refl).
Defined.

(** X12. [delete] on a view under the built-in comparator.  When the engine
    accepts the write, it is a [delete] among the entries the view shows,
    it leaves every entry outside the view as it was, and the store stays
    in ascending order.  When the engine refuses the write, [delete] raises
    the error of the engine's status and leaves the handle as it was. *)
Theorem PrefixedDB_delete_as_view (self : PrefixedDB.t) (k : bytes) sync
    (db : DB) (e : leveldb_DB) :
  _db db = Some e →
  DB_comparator db = BytewiseComparator →
  strictly_ascending BytewiseComparator (contents e) = true →
  (write_status e = StatusOK →
   ∃ l',
     PrefixedDB_delete self k sync db
       = (Return tt,
          set_db (Some {| contents := l'; write_status := StatusOK |}) db) ∧
     view_contents (PrefixedDB.prefix self) l'
       = store_delete BytewiseComparator k
           (view_contents (PrefixedDB.prefix self) (contents e)) ∧
     List.filter (λ e', negb (has_prefix (PrefixedDB.prefix self) e'.1)) l'
       = List.filter (λ e', negb (has_prefix (PrefixedDB.prefix self) e'.1))
           (contents e) ∧
     strictly_ascending BytewiseComparator l' = true) ∧
  (write_status e ≠ StatusOK →
   ∃ x, raise_for_status (write_status e) = Raise x ∧
        PrefixedDB_delete self k sync db = (Raise x, db)).
Proof.
  intros He Hcmp Hasc. split.
  - intros Hok. eexists. split_and!.
    + unfold PrefixedDB_delete.
      rewrite (DB_delete_open _ sync db e He), Hok, Hcmp.
      unfold set_contents. by rewrite Hok.
    + by apply store_delete_view.
    + apply store_delete_outside.
    + by apply store_delete_ascending.
  - intros Hbad. destruct (raise_for_status_refused _ Hbad) as [x Hx].
    exists x. split; [done|]. unfold PrefixedDB_delete.
    rewrite (DB_delete_open _ sync db e He), Hx. by destruct (write_status e).
Qed.

Lemma PrefixedDB_delete_as_view_witness :
  ∃ l',
    PrefixedDB_delete (DB_prefixed_db key_b) [] None (open_db sample_entries)
      = (Return tt,
         set_db (Some {| contents := l'; write_status := StatusOK |})
           (open_db sample_entries)) ∧
    view_contents key_b l' = [] ∧
    List.filter (λ e', negb (has_prefix key_b e'.1)) l'
      = [(key_a, val_1); (key_c, val_3)] ∧
    strictly_ascending BytewiseComparator l' = true.
Proof.
  exact (proj1 (PrefixedDB_delete_as_view (DB_prefixed_db key_b) [] None
                  (open_db sample_entries)
                  {| contents := sample_entries; write_status := StatusOK |}
                  eq_refl eq_refl eq_refl) eq_refl).
Defined.

(** X13. A view made from a view shows what the view shows of the first
    view's entries: the prefixes are joined. *)
Theorem PrefixedDB_prefixed_db_nests (P Q : bytes) (l : list entry) :
  view_contents
    (PrefixedDB.prefix (PrefixedDB_prefixed_db (DB_prefixed_db P) Q)) l
  = view_contents Q (view_contents P l).
Proof.
  simpl. induction l as [|e l IH]; [done|].
  rewrite (view_contents_cons (P ++ Q)), (view_contents_cons P).
  rewrite has_prefix_app_l.
  destruct (has_prefix P e.1); simpl; [|done].
  rewrite (view_contents_cons Q). simpl.
  destruct (has_prefix Q (drop (length P) e.1)); [|done].
  rewrite IH. f_equal. unfold strip_prefix. simpl.
  by rewrite drop_drop, length_app.
Qed.
(** ** A batch against the same calls made one by one *)

Lemma stage_calls (cs : list write_call) wb db e :
  _db db = Some e →
  for_each cs stage_call (wb, db)
  = (Return tt,
     (set_write_batch (_write_batch wb ++ (staged_op (prefix wb) <$> cs)) wb, db)).
Proof.
  intros He. revert wb. induction cs as [|c cs IH]; intros wb.
  - simpl. unfold pass, ret. destruct wb. simpl. by rewrite app_nil_r.
  - simpl. unfold bind at 1.
    assert (stage_call c (wb, db)
            = (Return tt,
               (set_write_batch (_write_batch wb ++ [staged_op (prefix wb) c]) wb,
                db))) as ->.
    { destruct c; unfold stage_call, WriteBatch_put, WriteBatch_delete,
        with_prefix, staged_op; run_method; cbv [fst snd]; by rewrite He. }
    rewrite IH. simpl. by rewrite <- (assoc_L (++)).
Qed.

Lemma direct_call_open pfx (c : write_call) db e :
  _db db = Some e →
  direct_call pfx c db
  = (raise_for_status (write_status e),
     match write_status e with
     | StatusOK =>
         set_db (Some (set_contents
           (apply_op (DB_comparator db) (contents e) (staged_op pfx c)) e)) db
     | _ => db
     end).
Proof.
  intros He.
  destruct pfx, c; simpl; unfold PrefixedDB_put, PrefixedDB_delete; simpl;
    by first [apply DB_put_open|apply DB_delete_open].
Qed.

Lemma direct_calls pfx (cs : list write_call) db e :
  _db db = Some e → write_status e = StatusOK →
  for_each cs (direct_call pfx) db
  = (Return tt,
     set_db (Some (set_contents
       (leveldb_Write (DB_comparator db) (staged_op pfx <$> cs) (contents e)) e))
       db).
Proof.
  revert db e. induction cs as [|c cs IH]; intros db e He Hok.
  - simpl. unfold pass, ret. destruct db as [d o r], e. simpl in *. by subst.
  - simpl. unfold bind at 1.
    rewrite (direct_call_open pfx c db e He), Hok. simpl.
    erewrite IH; [|reflexivity|exact Hok]. done.
Qed.

(** X14. Staging calls on a fresh batch leaves the handle untouched.  When
    the engine accepts the write, [write()] then stores what the same calls
    store when made one by one, on the handle or, for a batch with a
    prefix, on the view with that prefix, and it leaves the staged calls in
    the batch.  When the engine refuses the write, [write()] raises the
    error of the engine's status and changes nothing, and so does the first
    of the calls made one by one. *)
Theorem WriteBatch_write_as_calls (wb : WriteBatch) (cs : list write_call)
    (db : DB) (e : leveldb_DB) :
  _db db = Some e → _write_batch wb = [] →
  ∃ wb',
    for_each cs stage_call (wb, db) = (Return tt, (wb', db)) ∧
    _write_batch wb' = staged_op (prefix wb) <$> cs ∧
    (write_status e = StatusOK →
     ∃ db',
       WriteBatch_write (wb', db) = (Return tt, (wb', db')) ∧
       for_each cs (direct_call (prefix wb)) db = (Return tt, db')) ∧
    (write_status e ≠ StatusOK →
     ∃ x, raise_for_status (write_status e) = Raise x ∧
          WriteBatch_write (wb', db) = (Raise x, (wb', db)) ∧
          (cs ≠ [] →
           for_each cs (direct_call (prefix wb)) db = (Raise x, db))).
Proof.
  intros He Hempty. eexists. split_and!.
  - exact (stage_calls cs wb db e He).
  - simpl. by rewrite Hempty.
  - intros Hok. eexists. split.
    + rewrite (WriteBatch_write_open _ db e He), Hok. reflexivity.
    + rewrite (direct_calls _ cs db e He Hok). simpl. by rewrite Hempty.
  - intros Hbad. destruct (raise_for_status_refused _ Hbad) as [x Hx].
    exists x. split_and!; [done| |].
    + rewrite (WriteBatch_write_open _ db e He), Hx.
      by destruct (write_status e).
    + destruct cs as [|c cs]; [done|]. intros _. simpl. unfold bind.
      rewrite (direct_call_open _ c db e He), Hx.
      by destruct (write_status e).
Qed.

Lemma WriteBatch_write_as_calls_witness :
  ∃ wb',
    for_each [PutCall key_b val_3; DeleteCall key_a] stage_call
      (WriteBatch__init__ None false None, open_db sample_entries)
    = (Return tt, (wb', open_db sample_entries)) ∧
    _write_batch wb' = [BatchPut key_b val_3; BatchDelete key_a] ∧
    ∃ db',
      WriteBatch_write (wb', open_db sample_entries) = (Return tt, (wb', db')) ∧
      for_each [PutCall key_b val_3; DeleteCall key_a] (direct_call None)
        (open_db sample_entries)
      = (Return tt, db').
Proof.
  destruct (WriteBatch_write_as_calls (WriteBatch__init__ None false None)
              [PutCall key_b val_3; DeleteCall key_a] (open_db sample_entries)
              {| contents := sample_entries; write_status := StatusOK |}
              eq_refl eq_refl) as (wb' & Hstage & Hops & Hok & _).
  exists wb'. split_and!; [exact Hstage|exact Hops|exact (Hok eq_refl)].
Defined.
(** ** Reading through a snapshot *)

Lemma Snapshot__init___returns pfx db0 sn db0' :
  Snapshot__init__ pfx db0 = (Return sn, db0') →
  ∃ e0, _db db0 = Some e0 ∧ db0' = db0 ∧
        sn = {| Snapshot._snapshot := contents e0; Snapshot.prefix := pfx |}.
Proof.
  unfold Snapshot__init__. run_method.
  destruct (_db db0) as [e0|]; [|done].
  intros [= <- <-]. by exists e0.
Qed.

(** X15. [get] through a snapshot hands back what [get] on the handle, or on
    the view the snapshot was made from, handed back when the snapshot was
    made, whatever has been written to the open handle since. *)
Theorem Snapshot_get_reads_pinned {D} (pfx : option bytes) (db0 db0' db : DB)
    (sn : Snapshot.t) (e : leveldb_DB) (k : bytes) (d : D)
    verify_checksums fill_cache :
  Snapshot__init__ pfx db0 = (Return sn, db0') →
  _db db = Some e →
  DB_comparator db = DB_comparator db0 →
  Snapshot_get sn k d verify_checksums fill_cache db
  = ((match pfx with
      | Some P => PrefixedDB_get (DB_prefixed_db P) k d verify_checksums fill_cache
      | None => DB_get k d verify_checksums fill_cache
      end db0).1, db).
Proof.
  intros (e0 & He0 & -> & ->)%Snapshot__init___returns He Hcmp.
  assert (Snapshot_get
            {| Snapshot._snapshot := contents e0; Snapshot.prefix := pfx |}
            k d verify_checksums fill_cache db
          = (Return (match store_get (DB_comparator db)
                             (match pfx with Some P => P ++ k | None => k end)
                             (contents e0) with
                     | Some v => GotValue v
                     | None => GotDefault d
                     end), db)) as ->.
  { run_store. rewrite He.
    destruct verify_checksums, fill_cache; simpl; rewrite He;
      by destruct (store_get _ _ _). }
  destruct pfx as [P|]; unfold PrefixedDB_get; simpl;
    erewrite DB_get_open by done; by rewrite Hcmp.
Qed.

Lemma Snapshot_get_reads_pinned_witness :
  ∃ sn db,
    DB_snapshot (open_db sample_entries) = (Return sn, open_db sample_entries) ∧
    DB_put key_b val_3 None (open_db sample_entries) = (Return tt, db) ∧
    DB_get key_b tt None None db = (Return (GotValue val_3), db) ∧
    Snapshot_get sn key_b tt None None db = (Return (GotValue val_2), db).
Proof.
  exists {| Snapshot._snapshot := sample_entries; Snapshot.prefix := None |},
    (set_db (Some {| contents := store_put BytewiseComparator key_b val_3
                                   sample_entries;
                     write_status := StatusOK |}) (open_db sample_entries)).
  split_and!; [reflexivity..|].
  exact (Snapshot_get_reads_pinned None (open_db sample_entries)
           (open_db sample_entries)
           (set_db (Some {| contents := store_put BytewiseComparator key_b val_3
                                          sample_entries;
                     write_status := StatusOK |})
              (open_db sample_entries))
           {| Snapshot._snapshot := sample_entries; Snapshot.prefix := None |}
           {| contents := store_put BytewiseComparator key_b val_3 sample_entries;
                     write_status := StatusOK |}
           key_b tt None None eq_refl eq_refl eq_refl).
Defined.

(** X16. [iterator] through a snapshot builds the iterator that [iterator]
    on the handle, or on the view the snapshot was made from, built when the
    snapshot was made, whatever has been written to the open handle since. *)
Theorem Snapshot_iterator_reads_pinned (pfx : option bytes) (db0 db0' db : DB)
    (sn : Snapshot.t) (e : leveldb_DB) (reg0 reg : gset nat) self_id reverse
    start_arg stop_arg include_start_arg include_stop_arg prefix_arg
    include_key_arg include_value_arg verify_checksums fill_cache :
  Snapshot__init__ pfx db0 = (Return sn, db0') →
  _db db = Some e →
  DB_comparator db = DB_comparator db0 →
  iterators db0 = Some reg0 → iterators db = Some reg →
  (Snapshot_iterator sn self_id reverse start_arg stop_arg include_start_arg
     include_stop_arg prefix_arg include_key_arg include_value_arg
     verify_checksums fill_cache db).1
  = (match pfx with
     | Some P => PrefixedDB_iterator (DB_prefixed_db P)
     | None => DB_iterator
     end self_id reverse start_arg stop_arg include_start_arg include_stop_arg
       prefix_arg include_key_arg include_value_arg verify_checksums fill_cache
       db0).1.
Proof.
  intros (e0 & He0 & -> & ->)%Snapshot__init___returns He Hcmp Hreg0 Hreg.
  destruct pfx as [P|];
    unfold Snapshot_iterator, PrefixedDB_iterator, DB_iterator, Iterator__init__,
      _register_iterator; run_method; simpl; rewrite He, He0;
    destruct prefix_arg, start_arg, stop_arg; simpl;
    rewrite ?Hreg, ?Hreg0; simpl; by rewrite ?Hcmp.
Qed.

Lemma Snapshot_iterator_reads_pinned_witness :
  ∃ sn db it,
    DB_snapshot (open_db sample_entries) = (Return sn, open_db sample_entries) ∧
    DB_delete key_b None (open_db sample_entries) = (Return tt, db) ∧
    (Snapshot_iterator sn 1 false None None true false None true true None None
       db).1 = Return it ∧
    iterate 4 it
    = [OutPair key_a val_1; OutPair key_b val_2; OutPair key_c val_3].
Proof.
  exists {| Snapshot._snapshot := sample_entries; Snapshot.prefix := None |},
    (set_db (Some {| contents := store_delete BytewiseComparator key_b
                                   sample_entries;
                     write_status := StatusOK |}) (open_db sample_entries)),
    (sample_iterator sample_entries false None None true false).
  split_and!; [reflexivity..| |reflexivity].
  exact (Snapshot_iterator_reads_pinned None (open_db sample_entries)
           (open_db sample_entries)
           (set_db (Some {| contents := store_delete BytewiseComparator key_b
                                          sample_entries;
                     write_status := StatusOK |})
              (open_db sample_entries))
           {| Snapshot._snapshot := sample_entries; Snapshot.prefix := None |}
           {| contents := store_delete BytewiseComparator key_b sample_entries;
                     write_status := StatusOK |}
           ∅ ∅ 1 false None None true false None true true None None
           eq_refl eq_refl eq_refl eq_refl eq_refl).
Defined.

(** ** A closed handle *)

(** X17. On a closed handle every read, write and object construction of
    [DB], of a view and of a snapshot raises [RuntimeError] and leaves the
    handle as it is.  Only [PrefixedDB.write_batch] is not guarded: it
    returns a batch, and every method of that batch raises in turn. *)
Theorem closed_handle_raises {D} (db : DB) (view : PrefixedDB.t)
    (sn : Snapshot.t) (k v : bytes) (d : D) sync verify_checksums fill_cache
    transaction self_id reverse start_arg stop_arg include_start_arg
    include_stop_arg prefix_arg include_key_arg include_value_arg :
  _db db = None →
  DB_closed db = true ∧
  DB_get k d verify_checksums fill_cache db = (Raise RuntimeError, db) ∧
  DB_put k v sync db = (Raise RuntimeError, db) ∧
  DB_delete k sync db = (Raise RuntimeError, db) ∧
  DB_write_batch transaction sync db = (Raise RuntimeError, db) ∧
  DB__iter__ self_id db = (Raise RuntimeError, db) ∧
  DB_iterator self_id reverse start_arg stop_arg include_start_arg
    include_stop_arg prefix_arg include_key_arg include_value_arg
    verify_checksums fill_cache db = (Raise RuntimeError, db) ∧
  DB_snapshot db = (Raise RuntimeError, db) ∧
  PrefixedDB_get view k d verify_checksums fill_cache db
    = (Raise RuntimeError, db) ∧
  PrefixedDB_put view k v sync db = (Raise RuntimeError, db) ∧
  PrefixedDB_delete view k sync db = (Raise RuntimeError, db) ∧
  PrefixedDB_iterator view self_id reverse start_arg stop_arg include_start_arg
    include_stop_arg prefix_arg include_key_arg include_value_arg
    verify_checksums fill_cache db = (Raise RuntimeError, db) ∧
  PrefixedDB__iter__ view self_id db = (Raise RuntimeError, db) ∧
  PrefixedDB_snapshot view db = (Raise RuntimeError, db) ∧
  Snapshot_get sn k d verify_checksums fill_cache db = (Raise RuntimeError, db) ∧
  Snapshot_iterator sn self_id reverse start_arg stop_arg include_start_arg
    include_stop_arg prefix_arg include_key_arg include_value_arg
    verify_checksums fill_cache db = (Raise RuntimeError, db) ∧
  Snapshot__iter__ sn self_id db = (Raise RuntimeError, db) ∧
  (∃ wb, PrefixedDB_write_batch view transaction sync db = (Return wb, db)) ∧
  ∀ wb : WriteBatch,
    WriteBatch_put k v (wb, db) = (Raise RuntimeError, (wb, db)) ∧
    WriteBatch_delete k (wb, db) = (Raise RuntimeError, (wb, db)) ∧
    WriteBatch_clear (wb, db) = (Raise RuntimeError, (wb, db)) ∧
    WriteBatch_write (wb, db) = (Raise RuntimeError, (wb, db)) ∧
    WriteBatch__enter__ (wb, db) = (Raise RuntimeError, (wb, db)).
Proof.
  intros Hclosed.
  assert (∀ key_prefix snapshot vc fc,
            Iterator__init__ self_id key_prefix reverse start_arg stop_arg
              include_start_arg include_stop_arg prefix_arg include_key_arg
              include_value_arg vc fc snapshot db
            = (Raise RuntimeError, db)) as Hinit
    by (intros; by apply Iterator__init___closed).
  split_and!;
    try (unfold DB_closed, DB__iter__, DB_write_batch, DB_snapshot,
           PrefixedDB_snapshot, Snapshot__iter__, Snapshot__init__;
         run_store; by rewrite Hclosed).
  - apply Hinit.
  - apply Hinit.
  - by apply Iterator__init___closed.
  - apply Hinit.
  - by eexists.
  - intros wb.
    split_and!;
      unfold WriteBatch_put, WriteBatch_delete, WriteBatch_clear,
        WriteBatch_write, WriteBatch__enter__;
      run_method; cbv [fst snd]; by rewrite Hclosed.
Qed.

Lemma closed_handle_raises_witness :
  DB_closed closed_db = true ∧
  DB_get key_a tt None None closed_db = (Raise RuntimeError, closed_db) ∧
  DB_put key_a val_1 None closed_db = (Raise RuntimeError, closed_db).
Proof.
  pose proof (closed_handle_raises closed_db (DB_prefixed_db key_a)
                {| Snapshot._snapshot := []; Snapshot.prefix := None |}
                key_a val_1 tt None None None false 1 false None None true
                false None true true eq_refl) as (H1 & H2 & H3 & _).
  exact (conj H1 (conj H2 H3)).
Defined.
(** ** What closing the handle releases *)

(** X18. [DB.close] releases the native cursor of exactly the registered
    iterators that are alive and not closed yet, each of them once, and no
    engine-side object twice.  In the heap it unsets the cursor of the
    registered iterators and touches nothing else. *)
Theorem DB_close_releases_each_once (w : World) :
  (∀ id, DeleteIterator id ∈ close_events w ↔
         id ∈ registered (the_db w) ∧ open_cursor (heap w) id = true) ∧
  NoDup (close_events w) ∧
  ∀ id, heap (DB_close w).2 !! id
        = (λ it, if decide (id ∈ registered (the_db w))
                 then set_iter None it else it) <$> heap w !! id.
Proof.
  split_and!.
  - intros id. rewrite close_events_effect, elem_of_app. split.
    + intros [Hin|Hin].
      * apply list_elem_of_fmap in Hin as (id' & [= <-] & Hin).
        apply list_elem_of_In, List.filter_In in Hin as [Hin Hopen].
        apply list_elem_of_In, elem_of_elements in Hin. done.
      * exfalso.
        destruct (_db (the_db w)), (Options.block_cache _),
          (Options.filter_policy _), (Options.comparator _) as [[|]|];
          simpl in Hin; not_in_list Hin.
    + intros [Hin Hopen]. left. apply list_elem_of_fmap. exists id.
      split; [done|]. apply list_elem_of_In, List.filter_In. split; [|done].
      by apply list_elem_of_In, elem_of_elements.
  - rewrite close_events_effect. apply NoDup_app. split_and!.
    + assert (Inj (=) (=) DeleteIterator) by (by intros ?? [= ->]).
      apply (NoDup_fmap_2 _). apply NoDup_ListNoDup, List.NoDup_filter,
        NoDup_ListNoDup, NoDup_elements.
    + intros ev (id & -> & _)%list_elem_of_fmap Hin.
      destruct (_db (the_db w)), (Options.block_cache _),
        (Options.filter_policy _), (Options.comparator _) as [[|]|];
        simpl in Hin; not_in_list Hin.
    + destruct (_db (the_db w)), (Options.block_cache _),
        (Options.filter_policy _), (Options.comparator _) as [[|]|]; simpl;
        repeat (apply NoDup_cons; split; [intros Hin; not_in_list Hin|]);
        apply NoDup_nil_2.
  - destruct (DB_close_effect w) as (h & Hclose & Hh).
    rewrite Hclose. apply Hh.
Qed.

(** X19. A second [close()] does nothing: it returns, releases nothing and
    leaves the world as the first one left it. *)
Theorem DB_close_idempotent (w : World) :
  DB_close (DB_close w).2 = (Return tt, (DB_close w).2).
Proof.
  destruct (DB_close_effect w) as (h & Hclose & _). rewrite Hclose. simpl.
  unfold DB_close. run_method. simpl.
  destruct (iterators (the_db w)); simpl; rewrite ?elements_empty; simpl;
    destruct (Options.comparator (options (the_db w))) as [[|]|]; simpl;
    unfold on_db, set_iterators; simpl; reflexivity.
Qed.
(** ** Calls on a closed iterator *)

Lemma call_on_closed (c : call) (it : Iterator) :
  _iter it = None → raised c it = Some RuntimeError ∧ do_call c it = it.
Proof.
  destruct it as [ci dir st cmp s s' i1 i2 ik iv sk]. simpl. intros ->.
  destruct c, dir; unfold raised, do_call, Iterator__next__, Iterator_prev,
    seek_to_start, seek_to_stop; by exec with idtac.
Qed.

(** X20. After [DB.close] every call on an iterator that was registered with
    the handle raises [RuntimeError] and leaves the iterator as it is. *)
Theorem closed_handle_closes_iterators (w : World) (id : nat) (it' : Iterator)
    (c : call) :
  id ∈ registered (the_db w) →
  heap (DB_close w).2 !! id = Some it' →
  raised c it' = Some RuntimeError ∧ do_call c it' = it'.
Proof.
  intros Hreg Hit'. apply call_on_closed.
  destruct (DB_close_effect w) as (h & Hclose & Hh).
  rewrite Hclose, Hh in Hit'. simpl in Hit'.
  destruct (heap w !! id) as [it|]; [|done].
  simpl in Hit'. rewrite decide_True in Hit' by done.
  by injection Hit' as <-.
Qed.

Lemma closed_handle_closes_iterators_witness :
  ∃ it',
    heap (DB_close sample_world).2 !! 7%nat = Some it' ∧
    raised CallNext it' = Some RuntimeError ∧ do_call CallNext it' = it'.
Proof.
  exists (set_iter None (sample_iterator sample_entries false None None true false)).
  assert (heap (DB_close sample_world).2 !! 7%nat
          = Some (set_iter None
                    (sample_iterator sample_entries false None None true false)))
    as Hit by (vm_compute; reflexivity).
  split; [exact Hit|].
  assert (7%nat ∈ registered (the_db sample_world)) as Hreg
    by (change (7%nat ∈ ({[7%nat]} : gset nat)); by apply elem_of_singleton).
  exact (closed_handle_closes_iterators sample_world 7 _ CallNext Hreg Hit).
Defined.
(** ** What no traversal does *)

(** Case analysis on everything a method looks at, recording what each
    test found, and the use of those records later in the run. *)
Ltac plain_scrutinee x :=
  lazymatch x with
  | context [match _ with _ => _ end] => fail
  | _ => idtac
  end.

Ltac crack :=
  repeat match goal with
  | |- context [match ?x with _ => _ end] =>
      plain_scrutinee x; destruct x eqn:?; simpl in *
  end.

Ltac recall :=
  repeat match goal with
  | H : ?x = _ |- context [?x] => rewrite H; simpl
  end.

Ltac off_position :=
  exfalso;
  match goal with
  | H : ?x = None |- _ =>
      unfold mbind, option_bind in *; simpl in *; rewrite H in *; done
  end.

Lemma bind_lookup_elem (x : option nat) (l : list entry) e :
  x ≫= (λ i, l !! i) = Some e → e ∈ l.
Proof. destruct x as [i|]; [|done]. simpl. apply list_elem_of_lookup_2. Qed.

(** The entry an outcome was built from: one that a recorded lookup found,
    or the one the cursor is known to sit on. *)
Ltac from_entry e H :=
  exists e; split;
  [first [exact (list_elem_of_lookup_2 _ _ _ H)|exact (bind_lookup_elem _ _ _ H)]
  |unfold current_of, key_too_short, format_entry; simpl; recall; done].

Ltac stored_entry :=
  match goal with
  | H : _ !! _ = Some ?e |- ∃ _, _ => from_entry e H
  | H : _ ≫= _ = Some ?e |- ∃ _, _ => from_entry e H
  | |- ∃ e, e ∈ ?x :: _ ∧ _ =>
      exists x; split;
      [apply list_elem_of_here
      |unfold current_of, key_too_short, format_entry; simpl; recall; done]
  | H : match ?x with Some _ => true | None => false end = true |- ∃ _, _ =>
      let E := fresh in
      destruct x as [e|] eqn:E; [|done]; from_entry e E
  end.

(** The exception the status of the cursor stands for. *)
Ltac status_error :=
  match goal with
  | H : raise_for_status ?c = Raise _ |- _ =>
      destruct c; simpl in H; simplify_eq; done
  end.

Ltac run_safely :=
  unfold real_next, real_prev, seek, current; run_method; simpl;
  unfold moved, positioned, cursor_status; cbv [set_state set_iter]; simpl;
  crack;
  try congruence; try off_position;
  try (eexists _, _, _; split; [reflexivity|]; simpl);
  recall;
  try (split; [done|]);
  simplify_eq;
  unfold step_outcome, step_may_raise, status_check, cursor_status; simpl;
  try done;
  try stored_entry;
  try status_error.

Lemma real_next_safe it l p cs :
  _iter it = Some {| entries := l; pos := p; status := cs |} →
  positioned it = true →
  ∃ r st p', real_next it = (r, moved st l p' it) ∧
    positioned (moved st l p' it) = true ∧
    step_outcome it l r.
Proof.
  destruct it as [ci dir st cmp s s' i1 i2 ik iv sk]. unfold positioned. simpl.
  intros -> Hpos. destruct st; run_safely.
Qed.

Lemma real_prev_safe it l p cs :
  _iter it = Some {| entries := l; pos := p; status := cs |} →
  positioned it = true →
  ∃ r st p', real_prev it = (r, moved st l p' it) ∧
    positioned (moved st l p' it) = true ∧
    step_outcome it l r.
Proof.
  destruct it as [ci dir st cmp s s' i1 i2 ik iv sk]. unfold positioned. simpl.
  intros -> Hpos. destruct st; run_safely.
Qed.

Lemma seek_safe target it l p cs :
  _iter it = Some {| entries := l; pos := p; status := cs |} →
  ∃ r st p', seek target it = (r, moved st l p' it) ∧
    positioned (moved st l p' it) = true ∧
    (r = Return tt ∨ r = raise_for_status cs).
Proof.
  destruct it as [ci dir st cmp s s' i1 i2 ik iv sk]. simpl.
  intros ->.
  unfold seek; run_method; simpl;
    unfold moved, positioned, cursor_status; cbv [set_state set_iter]; simpl;
    crack;
    (eexists _, _, _; split; [reflexivity|]; simpl); recall;
    (split; [done|]); simplify_eq; auto.
  all: left; by destruct a.
Qed.

(** A status never stands for [StopIteration]. *)
Ltac not_a_status :=
  match goal with
  | H : raise_for_status ?c = Raise StopIteration |- _ =>
      destruct c; discriminate H
  end.

Ltac run_again :=
  intros ?; simplify_eq; try not_a_status;
  unfold real_next, real_prev, current; run_method; simpl;
  cbv [set_state set_iter]; simpl; recall; try done.

Lemma real_next_exhausted it l p cs it1 :
  _iter it = Some {| entries := l; pos := p; status := cs |} →
  positioned it = true →
  real_next it = (Raise StopIteration, it1) →
  real_next it1 = (Raise StopIteration, it1).
Proof.
  destruct it as [ci dir st cmp s s' i1 i2 ik iv sk]. unfold positioned. simpl.
  intros -> Hpos.
  destruct st; unfold real_next at 1, current; run_method; simpl;
    cbv [set_state set_iter]; simpl; crack; try congruence; try off_position;
    run_again.
Qed.

Lemma real_prev_exhausted it l p cs it1 :
  _iter it = Some {| entries := l; pos := p; status := cs |} →
  positioned it = true →
  real_prev it = (Raise StopIteration, it1) →
  real_prev it1 = (Raise StopIteration, it1).
Proof.
  destruct it as [ci dir st cmp s s' i1 i2 ik iv sk]. unfold positioned. simpl.
  intros -> Hpos.
  destruct st; unfold real_prev at 1, current; run_method; simpl;
    cbv [set_state set_iter]; simpl; crack; try congruence; try off_position;
    run_again.
Qed.

Lemma method_exhausted (m : M Iterator output) (it : Iterator) :
  (∀ it2, m it = (Raise StopIteration, it2) → m it2 = (Raise StopIteration, it2)) →
  exception (m it).1 = Some StopIteration →
  exception (m (m it).2).1 = Some StopIteration ∧ (m (m it).2).2 = (m it).2.
Proof.
  intros Hagain. destruct (m it) as [[o|ex] it2] eqn:Hrun; simpl; [done|].
  intros [= ->]. by rewrite (Hagain it2 eq_refl).
Qed.

Lemma moved_moved st st' l p p' it :
  moved st' l p' (moved st l p it) = moved st' l p' it.
Proof. done. Qed.

Lemma constructed_reached self_id key_prefix reverse start_arg stop_arg
    include_start_arg include_stop_arg prefix_arg include_key_arg
    include_value_arg verify_checksums fill_cache snapshot db it db' :
  Iterator__init__ self_id key_prefix reverse start_arg stop_arg
    include_start_arg include_stop_arg prefix_arg include_key_arg
    include_value_arg verify_checksums fill_cache snapshot db
  = (Return it, db') →
  ∃ l, _iter it = Some {| entries := l; pos := None; status := StatusOK |} ∧
       reached it l it.
Proof.
  unfold Iterator__init__, _register_iterator. run_method.
  destruct (_db db) as [e|]; [|done].
  destruct key_prefix as [P|], prefix_arg as [q|], start_arg as [s|],
    stop_arg as [s'|]; simpl; try done;
    destruct (iterators db); try done; intros [= <- _];
    exists (entries (NewIterator e snapshot));
    (split; [reflexivity|]);
    exists (if reverse then AFTER_STOP else BEFORE_START), None;
    by destruct reverse.
Qed.

(** An iterator that is positioned is reached from itself. *)
Lemma positioned_reached it l p cs :
  _iter it = Some {| entries := l; pos := p; status := cs |} →
  positioned it = true → reached it l it.
Proof.
  intros Hlive Hpos. exists (state it), p.
  by rewrite (moved_same it l p cs).
Qed.

Lemma do_call_reached c it0 l it :
  reached it0 l it →
  reached it0 l (do_call c it) ∧
  ∀ x, raised c it = Some x → call_may_raise c it0 l x.
Proof.
  intros (st & p & -> & Hpos).
  assert (∀ A (r : result A) st' p',
            positioned (moved st' l p' (moved st l p it0)) = true →
            reached it0 l (r, moved st' l p' (moved st l p it0)).2) as Hreach.
  { intros A r st' p' Hpos'. exists st', p'.
    by rewrite <- (moved_moved st st' l p p'). }
  assert (∀ r x, step_outcome (moved st l p it0) l r →
                 exception r = Some x → step_may_raise it0 l x) as Hstep.
  { intros [o|x'] x Hout; simpl; [done|]. by intros [= <-]. }
  destruct c; unfold raised, do_call, call_may_raise.
  - rewrite Iterator__next___direction.
    destruct (direction _);
      [destruct (real_next_safe (moved st l p it0) l p _ eq_refl Hpos)
         as (r & st' & p' & -> & Hpos' & Hr)
      |destruct (real_prev_safe (moved st l p it0) l p _ eq_refl Hpos)
         as (r & st' & p' & -> & Hpos' & Hr)];
      (split; [by apply Hreach|intros x; by apply Hstep]).
  - rewrite Iterator_prev_direction.
    destruct (direction _);
      [destruct (real_prev_safe (moved st l p it0) l p _ eq_refl Hpos)
         as (r & st' & p' & -> & Hpos' & Hr)
      |destruct (real_next_safe (moved st l p it0) l p _ eq_refl Hpos)
         as (r & st' & p' & -> & Hpos' & Hr)];
      (split; [by apply Hreach|intros x; by apply Hstep]).
  - destruct (seek_safe target (moved st l p it0) l p _ eq_refl)
      as (r & st' & p' & -> & Hpos' & Hr).
    split; [by apply Hreach|]. intros x. simpl.
    destruct Hr as [->| ->]; [done|].
    unfold status_check. by destruct (raise_for_status _); intros [= ->].
  - split; [|done]. by exists BEFORE_START, p.
  - split; [|done]. by exists AFTER_STOP, p.
Qed.

Lemma step_yields_stored it0 l it o :
  reached it0 l it →
  (Iterator__next__ it).1 = Return o ∨ (Iterator_prev it).1 = Return o →
  ∃ e, e ∈ l ∧ current_of it0 e = Return o.
Proof.
  intros (st & p & -> & Hpos) Hrun.
  assert ((real_next (moved st l p it0)).1 = Return o ∨
          (real_prev (moved st l p it0)).1 = Return o) as [Hnext|Hprev].
  { rewrite Iterator__next___direction, Iterator_prev_direction in Hrun.
    destruct (direction _); tauto. }
  - destruct (real_next_safe (moved st l p it0) l p _ eq_refl Hpos)
      as (r & st' & p' & Heq & _ & Hout).
    rewrite Heq in Hnext. simpl in Hnext. by subst r.
  - destruct (real_prev_safe (moved st l p it0) l p _ eq_refl Hpos)
      as (r & st' & p' & Heq & _ & Hout).
    rewrite Heq in Hprev. simpl in Hprev. by subst r.
Qed.

Lemma after_calls_reached cs it0 l it :
  reached it0 l it → reached it0 l (after_calls cs it).
Proof.
  unfold after_calls. revert it.
  induction cs as [|c cs IH]; intros it Hit; [done|].
  simpl. apply IH. by apply do_call_reached.
Qed.

Lemma after_calls_snoc cs c it :
  after_calls (cs ++ [c]) it = do_call c (after_calls cs it).
Proof. unfold after_calls. by rewrite foldl_app. Qed.

(** X21. Take an iterator as its constructor returned it, or any iterator
    whose cursor sits on an entry whenever its state says so, and make any
    calls on it.  Each call only moves the cursor over the same entries or
    changes the state.  [seek_to_start] and [seek_to_stop] return; [seek]
    returns or raises the error of the cursor's status; [next] and [prev]
    return, or raise [StopIteration], or the error of the cursor's status,
    or the [SystemError] of [current()], which takes a stored key shorter
    than the bytes cut off the keys.  What [next] and [prev] hand back is
    what [current()] makes of one of the entries.  The assertion of
    [real_prev] never fails, and the key or value of the cursor is never
    read while the cursor is not valid. *)
Theorem traversal_exceptions (it : Iterator) (l : list entry) (p : option nat)
    (cs : Status) (calls : list call) :
  _iter it = Some {| entries := l; pos := p; status := cs |} →
  constructed it ∨ positioned it = true →
  (∃ st p', after_calls calls it = moved st l p' it) ∧
  (∀ c x, raised c (after_calls calls it) = Some x → call_may_raise c it l x) ∧
  (∀ o, (Iterator__next__ (after_calls calls it)).1 = Return o ∨
        (Iterator_prev (after_calls calls it)).1 = Return o →
        ∃ e, e ∈ l ∧ current_of it e = Return o).
Proof.
  intros Hlive Hfrom.
  assert (positioned it = true) as Hpos.
  { destruct Hfrom as [Hnew|Hpos]; [|done].
    destruct Hnew as (? & ? & ? & ? & ? & ? & ? & ? & ? & ? & ? & ? & ? & ? & ?
                      & Hinit).
    apply constructed_reached in Hinit as (l0 & _ & st & p0 & _ & Hpos).
    exact Hpos. }
  pose proof (positioned_reached it l p cs Hlive Hpos) as Hreach.
  pose proof (after_calls_reached calls it l it Hreach) as Hcs. split_and!.
  - destruct Hcs as (st & p' & -> & _). by exists st, p'.
  - intros c. by apply (do_call_reached c it l).
  - intros o. by apply step_yields_stored.
Qed.

Lemma view_sample_constructed :
  Iterator__init__ 0%nat (Some (key_a ++ key_b)) false None None true false
    None true true false false None (open_db a_and_ab1)
  = (Return view_sample,
     set_iterators (Some ({[0%nat]} ∪ ∅)) (open_db a_and_ab1)).
Proof. reflexivity. Qed.

Lemma traversal_exceptions_witness :
  constructed view_sample ∧
  iterate 3 view_sample = [OutPair val_1 val_2] ∧
  raised CallPrev (after_calls [CallSeek []] view_sample) = Some SystemError ∧
  ∃ e, e ∈ a_and_ab1 ∧ key_too_short view_sample e = true.
Proof.
  assert (constructed view_sample) as Hnew.
  { do 15 eexists. exact view_sample_constructed. }
  split; [exact Hnew|]. split; [reflexivity|]. split; [reflexivity|].
  exact (proj1 (proj2 (traversal_exceptions view_sample a_and_ab1 None
                         StatusOK [CallSeek []] eq_refl (or_introl Hnew)))
           CallPrev SystemError eq_refl).
Defined.

(** X22. Once [next], or [prev], has raised [StopIteration], the same call
    raises it again and leaves the iterator as it is, as long as no other
    call comes in between. *)
Theorem exhausted_iterator_stays_exhausted self_id key_prefix reverse
    start_arg stop_arg include_start_arg include_stop_arg prefix_arg
    include_key_arg include_value_arg verify_checksums fill_cache snapshot
    db it db' (cs : list call) (c : call) :
  Iterator__init__ self_id key_prefix reverse start_arg stop_arg
    include_start_arg include_stop_arg prefix_arg include_key_arg
    include_value_arg verify_checksums fill_cache snapshot db
  = (Return it, db') →
  c = CallNext ∨ c = CallPrev →
  raised c (after_calls cs it) = Some StopIteration →
  raised c (after_calls (cs ++ [c]) it) = Some StopIteration ∧
  after_calls (cs ++ [c; c]) it = after_calls (cs ++ [c]) it.
Proof.
  intros (l & Hlive & Hreach)%constructed_reached Hc Hraised.
  pose proof (after_calls_reached cs it l it Hreach) as Hcs.
  replace (cs ++ [c; c]) with ((cs ++ [c]) ++ [c]) by by rewrite <- (assoc_L (++)).
  rewrite !after_calls_snoc.
  destruct Hcs as (st & p & Hit & Hpos).
  set (it1 := after_calls cs it) in *.
  assert (_iter it1
          = Some {| entries := l; pos := p; status := cursor_status it |})
    as Hlive1 by by rewrite Hit.
  assert (∀ it2, real_next it1 = (Raise StopIteration, it2) →
                 real_next it2 = (Raise StopIteration, it2)) as Hnext
    by (intros it2; by apply (real_next_exhausted it1 l p _ it2 Hlive1)).
  assert (∀ it2, real_prev it1 = (Raise StopIteration, it2) →
                 real_prev it2 = (Raise StopIteration, it2)) as Hprev
    by (intros it2; by apply (real_prev_exhausted it1 l p _ it2 Hlive1)).
  assert (∀ it2 : Iterator, direction (real_next it1).2 = direction it1 ∧
                            direction (real_prev it1).2 = direction it1) as Hdir.
  { intros _.
    destruct (real_next_safe it1 l p _ Hlive1 Hpos) as (? & ? & ? & -> & _).
    destruct (real_prev_safe it1 l p _ Hlive1 Hpos) as (? & ? & ? & -> & _).
    done. }
  destruct (Hdir it1) as [Hdn Hdp].
  destruct Hc as [-> | ->]; unfold raised, do_call in *.
  - rewrite (Iterator__next___direction it1) in *.
    destruct (direction it1) eqn:Hd.
    + rewrite (Iterator__next___direction (real_next it1).2), Hdn.
      by apply method_exhausted.
    + rewrite (Iterator__next___direction (real_prev it1).2), Hdp.
      by apply method_exhausted.
  - rewrite (Iterator_prev_direction it1) in *.
    destruct (direction it1) eqn:Hd.
    + rewrite (Iterator_prev_direction (real_prev it1).2), Hdp.
      by apply method_exhausted.
    + rewrite (Iterator_prev_direction (real_next it1).2), Hdn.
      by apply method_exhausted.
Qed.

Lemma exhausted_iterator_stays_exhausted_witness :
  raised CallNext
    (after_calls ([CallNext; CallNext; CallNext] ++ [CallNext])
       (sample_iterator sample_entries false None None true false))
  = Some StopIteration ∧
  after_calls ([CallNext; CallNext; CallNext] ++ [CallNext; CallNext])
    (sample_iterator sample_entries false None None true false)
  = after_calls ([CallNext; CallNext; CallNext] ++ [CallNext])
      (sample_iterator sample_entries false None None true false).
Proof.
  exact (exhausted_iterator_stays_exhausted _ _ _ _ _ _ _ _ _ _ _ _ _ _ _ _
           [CallNext; CallNext; CallNext] CallNext
           (sample_iterator_constructed sample_entries false None None true false)
           (or_introl eq_refl) eq_refl).
Defined.
(** ** Seeking, then stepping *)

Lemma seek_live it c target :
  _iter it = Some c →
  let cmp := comparator it in
  let c' := Seek cmp (clamp_into_window cmp (start it) (stop it) target) c in
  (seek target it).2
  = set_state (if Valid c' then IN_BETWEEN_ALREADY_POSITIONED else AFTER_STOP)
      (set_iter (Some c') it).
Proof.
  destruct it as [ci dir st cmp s s' i1 i2 ik iv sk]. simpl. intros ->.
  unfold seek. run_method. simpl.
  unfold clamp_into_window, key_max, key_min.
  destruct s as [s|], s' as [s'|]; simpl;
    destruct (first_at_or_past _ _ _ ≫= _); simpl;
    by destruct (raise_for_status (status c)).
Qed.

(** X23. [seek(target)] and then a step forward ([next] on a forward
    iterator).  When [seek] lands on an entry, the first whose key is at or
    past the target (clamped into the window), the step raises the error of
    the cursor's status if it has one; else it hands that entry to
    [current()] if it is within the stop bound, and raises [StopIteration]
    if it is not.  The start bound is not looked at: the entry is handed
    back even when its key equals an excluded [start].  When [seek] lands
    on no entry the step raises [StopIteration]. *)
Theorem seek_then_next (it : Iterator) (c : leveldb_Iterator) (target : bytes) :
  _iter it = Some c → direction it = FORWARD →
  let cmp := comparator it in
  let t := clamp_into_window cmp (start it) (stop it) target in
  (Iterator__next__ (seek target it).2).1
  = match first_at_or_past cmp t (entries c) ≫= λ j, entries c !! j with
    | Some e =>
        match raise_for_status (status c) with
        | Raise x => Raise x
        | Return _ =>
            if within_stop it e.1 then current_of it e
            else Raise StopIteration
        end
    | None => Raise StopIteration
    end.
Proof.
  intros Hlive Hdir cmp t. rewrite (seek_live it c target Hlive).
  rewrite Iterator__next___direction.
  change (direction (set_state _ (set_iter _ it))) with (direction it).
  rewrite Hdir. destruct c as [l p cs]. unfold Seek, at_pos. cbn [entries status].
  fold cmp. fold t.
  destruct (first_at_or_past cmp t l) as [j|] eqn:Hj;
    cbn [Valid cur_entry pos entries mbind option_bind];
    [destruct (l !! j) as [e|] eqn:He|].
  - match goal with |- context [real_next ?x] => set (it' := x) end.
    assert (within_stop it' = within_stop it) as Hstop by done.
    assert (current_of it' = current_of it) as Hfmt by done.
    assert (status_check it' = raise_for_status cs) as Hcs by done.
    rewrite (real_next_ALREADY_POSITIONED it' l j e cs eq_refl eq_refl He).
    unfold yield_or_stop. rewrite Hstop, Hfmt, Hcs.
    destruct (raise_for_status cs); [|done].
    by destruct (within_stop it e.1).
  - by erewrite real_next_AFTER_STOP.
  - by erewrite real_next_AFTER_STOP.
Qed.

Lemma seek_then_next_witness :
  (Iterator__next__ (seek key_a past_a).2).1 = Return (OutPair key_a val_1).
Proof.
  exact (seek_then_next past_a
           {| entries := a_and_b; pos := None; status := StatusOK |} key_a
           eq_refl eq_refl).
Defined.

(** X24. [seek(target)] that lands on an entry, and then a step back ([prev]
    on a forward iterator).  When there is an entry just before the one
    [seek] landed on, the step raises the error of the cursor's status if
    it has one, and else hands that entry to [current()], which raises
    [SystemError] when the key is shorter than the bytes cut off.  The
    bounds are not looked at: the entry is handed back even when its key is
    before [start].  When there is no entry before, the step raises
    [StopIteration]. *)
Theorem seek_then_prev (it : Iterator) (c : leveldb_Iterator) (target : bytes)
    (i : nat) :
  _iter it = Some c → direction it = FORWARD →
  let cmp := comparator it in
  let t := clamp_into_window cmp (start it) (stop it) target in
  first_at_or_past cmp t (entries c) = Some i →
  (Iterator_prev (seek target it).2).1
  = match pos_before i ≫= λ j, entries c !! j with
    | Some e =>
        match raise_for_status (status c) with
        | Raise x => Raise x
        | Return _ => current_of it e
        end
    | None => Raise StopIteration
    end.
Proof.
  intros Hlive Hdir cmp t Hi. rewrite (seek_live it c target Hlive).
  rewrite Iterator_prev_direction.
  change (direction (set_state _ (set_iter _ it))) with (direction it).
  rewrite Hdir. destruct c as [l p cs]. unfold Seek, at_pos.
  cbn [entries status] in *.
  fold cmp. fold t. rewrite Hi.
  pose proof Hi as Hfind. rewrite first_at_or_past_find in Hfind.
  apply find_first_Some in Hfind as (e & He & _).
  cbn [Valid cur_entry pos entries mbind option_bind]. rewrite He.
  match goal with |- context [real_prev ?x] => set (it' := x) end.
  assert (current_of it' = current_of it) as Hfmt by done.
  assert (status_check it' = raise_for_status cs) as Hcs by done.
  rewrite (real_prev_ALREADY_POSITIONED it' l i e cs eq_refl eq_refl He).
  destruct i as [|j]; [done|]. cbn [pos_before mbind option_bind].
  destruct (l !! j) as [e'|]; [|done].
  unfold check_and_step_back, yield_and_step_back. rewrite Hfmt, Hcs.
  destruct (raise_for_status cs); [|done]. by destruct (current_of it e').
Qed.

Lemma seek_then_prev_witness :
  (Iterator_prev
     (seek key_b (sample_iterator sample_entries false (Some key_b) None true false)).2).1
  = Return (OutPair key_a val_1) ∧
  (Iterator_prev (seek [] view_sample).2).1 = Raise SystemError.
Proof.
  split.
  - exact (seek_then_prev
             (sample_iterator sample_entries false (Some key_b) None true false)
             {| entries := sample_entries; pos := None; status := StatusOK |}
             key_b 1 eq_refl eq_refl eq_refl).
  - exact (seek_then_prev view_sample
             {| entries := a_and_ab1; pos := None; status := StatusOK |}
             [] 1 eq_refl eq_refl eq_refl).
Defined.

(** ** What a traversal without [seek] hands back *)

(** X25. In a traversal made of [next], [prev], [seek_to_start] and
    [seek_to_stop] calls since construction, over entries in ascending
    order, whatever [next] or [prev] hands back is built from a stored entry
    whose key is within the bounds of the iterator. *)
Theorem traversal_without_seek_yields_in_bounds self_id key_prefix reverse
    start_arg stop_arg include_start_arg include_stop_arg prefix_arg
    include_key_arg include_value_arg verify_checksums fill_cache snapshot
    db it db' (cs : list call) (c : call) (o : output) :
  Iterator__init__ self_id key_prefix reverse start_arg stop_arg
    include_start_arg include_stop_arg prefix_arg include_key_arg
    include_value_arg verify_checksums fill_cache snapshot db
  = (Return it, db') →
  (∀ cur, _iter it = Some cur →
          strictly_ascending (comparator it) (entries cur) = true) →
  Forall (λ c, is_seek c = false) cs →
  (c = CallNext ∧ (Iterator__next__ (after_calls cs it)).1 = Return o) ∨
  (c = CallPrev ∧ (Iterator_prev (after_calls cs it)).1 = Return o) →
  ∃ cur e, _iter it = Some cur ∧ e ∈ entries cur ∧
           in_bounds it e.1 = true ∧ o = format_entry it e.
Proof.
  intros Hinit Hasc Hcs Hcall.
  pose proof (in_range_after_calls cs it Hcs
                (in_range_constructed _ _ _ _ _ _ _ _ _ _ _ _ _ _ _ _ Hinit Hasc))
    as (l & p & Hlive1 & Hasc1 & Hnot & Hin).
  apply constructed_reached in Hinit as (l' & Hlive & Hreach).
  apply (after_calls_reached cs) in Hreach as (st & p' & Hit1 & _).
  set (it1 := after_calls cs it) in *.
  assert (l' = l) as -> by (rewrite Hit1 in Hlive1; by injection Hlive1).
  exists {| entries := l; pos := None; status := StatusOK |}.
  assert (∀ e, in_bounds it1 e.1 = in_bounds it e.1 ∧
               format_entry it1 e = format_entry it e ∧
               current_of it1 e = current_of it e) as Hsame
    by (intros e; by rewrite Hit1).
  assert (∀ e, current_of it e = Return o → o = format_entry it e) as Hfmt.
  { intros e. unfold current_of. by destruct (key_too_short it e); intros [= <-]. }
  assert ((real_next it1).1 = Return o ∨ (real_prev it1).1 = Return o) as Hrun.
  { destruct Hcall as [[-> Hrun]|[-> Hrun]];
      rewrite ?Iterator__next___direction, ?Iterator_prev_direction in Hrun;
      destruct (direction it1); auto. }
  destruct Hrun as [Hrun|Hrun].
  - destruct (real_next_in_range it1 l p Hlive1 Hasc1 Hnot Hin)
      as [(j & e & Hj & Hb & Heq)|(? & ? & _ & Heq)];
      rewrite Heq in Hrun; [|done].
    simpl in Hrun. exists e.
    destruct (Hsame e) as (Hb' & _ & Hc'). rewrite Hb' in Hb. rewrite Hc' in Hrun.
    split_and!; [done| |done|by apply Hfmt]. by eapply list_elem_of_lookup_2.
  - destruct (real_prev_in_range it1 l p Hlive1 Hasc1 Hnot Hin)
      as [(j & e & Hj & Hb & _ & Heq)|(? & ? & _ & Heq)];
      rewrite Heq in Hrun; [|done].
    unfold yield_and_step_back in Hrun.
    rewrite (status_check_ok it1 l p Hlive1) in Hrun.
    destruct (Hsame e) as (Hb' & _ & Hc'). rewrite Hb' in Hb. rewrite Hc' in Hrun.
    exists e. split_and!; [done| |done|].
    + by eapply list_elem_of_lookup_2.
    + apply Hfmt. by destruct (current_of it e).
Qed.

Lemma traversal_without_seek_yields_in_bounds_witness :
  ∃ cur e,
    _iter (sample_iterator sample_entries false (Some key_a) (Some key_c)
             false false) = Some cur ∧
    e ∈ entries cur ∧
    in_bounds (sample_iterator sample_entries false (Some key_a) (Some key_c)
                 false false) e.1 = true ∧
    OutPair key_b val_2
    = format_entry (sample_iterator sample_entries false (Some key_a)
                      (Some key_c) false false) e.
Proof.
  refine (traversal_without_seek_yields_in_bounds _ _ _ _ _ _ _ _ _ _ _ _ _ _ _ _
            [CallNext; CallPrev] CallNext (OutPair key_b val_2)
            (sample_iterator_constructed sample_entries false (Some key_a)
               (Some key_c) false false) _ _ (or_introl (conj eq_refl eq_refl))).
  - intros cur [= <-]. reflexivity.
  - repeat constructor.
Defined.

(** ** The round trip, with [seek] *)

(** A positioned iterator stands on an entry when its state says so. *)
Lemma positioned_on_entry it l p cs :
  _iter it = Some {| entries := l; pos := p; status := cs |} →
  positioned it = true →
  state it = IN_BETWEEN ∨ state it = IN_BETWEEN_ALREADY_POSITIONED →
  ∃ i e, p = Some i ∧ l !! i = Some e.
Proof.
  unfold positioned, Valid, cur_entry. intros -> Hpos Hst. simpl in Hpos.
  destruct p as [i|]; simpl in Hpos.
  - destruct (l !! i) as [e|] eqn:Hi; [by exists i, e|].
    by destruct Hst as [Hst|Hst]; rewrite Hst in Hpos.
  - by destruct Hst as [Hst|Hst]; rewrite Hst in Hpos.
Qed.

(** What one [real_next] does to a positioned iterator whose cursor has no
    error: it reaches an entry, or it ends the sequence. *)
Lemma real_next_positioned it l p :
  _iter it = Some {| entries := l; pos := p; status := StatusOK |} →
  positioned it = true →
  strictly_ascending (comparator it) l = true →
  (∃ j e, l !! j = Some e ∧ real_next it = yield_or_stop it l j e) ∨
  (∃ st p', real_next it = (Raise StopIteration, moved st l p' it)).
Proof.
  intros Hlive Hpos Hasc. destruct (state it) eqn:Hst.
  - rewrite (real_next_BEFORE_START it l p StatusOK) by done. unfold next_from.
    destruct (find_first _ l) as [j|] eqn:Hfirst; simpl; [|by right; eauto].
    apply find_first_Some in Hfirst as (e & Hj & _). rewrite Hj. simpl.
    left. by exists j, e.
  - right. exists AFTER_STOP, p.
    rewrite (real_next_AFTER_STOP it _ Hlive Hst).
    by rewrite <- Hst, (moved_same it l p StatusOK).
  - destruct (positioned_on_entry it l p _ Hlive Hpos) as (i & e & -> & Hi);
      [by left|].
    rewrite (real_next_IN_BETWEEN it l i StatusOK) by done. unfold next_from.
    simpl. destruct (l !! S i) as [e'|] eqn:Hi'; simpl; [|by right; eauto].
    left. by exists (S i), e'.
  - destruct (positioned_on_entry it l p _ Hlive Hpos) as (i & e & -> & Hi);
      [by right|].
    rewrite (real_next_ALREADY_POSITIONED it l i e StatusOK) by done.
    left. by exists i, e.
Qed.

(** What one [real_prev] does to such an iterator: it hands an entry to
    [current()] and steps back from it, or it ends the sequence. *)
Lemma real_prev_positioned it l p :
  _iter it = Some {| entries := l; pos := p; status := StatusOK |} →
  positioned it = true →
  strictly_ascending (comparator it) l = true →
  (∃ j e, l !! j = Some e ∧
          real_prev it = yield_and_step_back it (state it) l j e) ∨
  (∃ st p', real_prev it = (Raise StopIteration, moved st l p' it)).
Proof.
  intros Hlive Hpos Hasc.
  assert (∀ st j e, check_and_step_back it st l j e
                    = yield_and_step_back it st l j e) as Hcheck.
  { intros st j e. unfold check_and_step_back.
    by rewrite (status_check_ok it l p Hlive). }
  destruct (state it) eqn:Hst.
  - right. exists BEFORE_START, p.
    rewrite (real_prev_BEFORE_START it _ Hlive Hst).
    by rewrite <- Hst, (moved_same it l p StatusOK).
  - rewrite (real_prev_AFTER_STOP it l p StatusOK) by done.
    unfold prev_from_stop.
    destruct (find_last _ l) as [j|] eqn:Hlast; simpl; [|by right; eauto].
    apply find_last_Some in Hlast as (e & Hj & _). rewrite Hj. simpl.
    destruct (at_or_before_start it e.1); [by right; eauto|].
    left. exists j, e. by rewrite Hcheck.
  - destruct (positioned_on_entry it l p _ Hlive Hpos) as (i & e & -> & Hi);
      [by left|].
    left. exists i, e. split; [done|].
    by apply (real_prev_IN_BETWEEN it l i e StatusOK).
  - destruct (positioned_on_entry it l p _ Hlive Hpos) as (i & e & -> & Hi);
      [by right|].
    rewrite (real_prev_ALREADY_POSITIONED it l i e StatusOK) by done.
    destruct i as [|j]; [by right; eauto|].
    destruct (l !! j) as [e'|] eqn:Hj; [|by right; eauto].
    left. exists j, e'. by rewrite Hcheck.
Qed.

(** After stepping back from an entry within the bounds, [real_next] comes
    back to it. *)
Lemma step_back_then_next it l p j e o :
  _iter it = Some {| entries := l; pos := p; status := StatusOK |} →
  strictly_ascending (comparator it) l = true →
  l !! j = Some e → in_bounds it e.1 = true →
  current_of it e = Return o →
  ∃ it2, real_next (moved (state_before it l j) l (pos_before j) it)
         = (Return o, it2).
Proof.
  intros Hlive Hasc Hj [Hstart Hstop]%in_bounds_split Hcur.
  assert (cursor_status it = StatusOK) as Hcs
    by (unfold cursor_status; by rewrite Hlive).
  assert (∀ it', within_stop it' = within_stop it →
                 current_of it' e = current_of it e →
                 status_check it' = Return tt →
                 ∃ it2, yield_or_stop it' l j e = (Return o, it2))
    as Hyields.
  { intros it' Hw Hf Hs. unfold yield_or_stop. rewrite Hs, Hw, Hstop, Hf, Hcur.
    by eexists. }
  assert (∀ st p', status_check (moved st l p' it) = Return tt) as Hok.
  { intros st p'. unfold status_check, moved, cursor_status. simpl.
    by rewrite Hlive. }
  assert (∀ p',
    (∀ i e', (i < j)%nat → l !! i = Some e' → within_start it e'.1 = false) →
    ∃ it2, real_next (moved BEFORE_START l p' it) = (Return o, it2))
    as Hrestart.
  { intros p' Hmin.
    rewrite (real_next_BEFORE_START _ l p' (cursor_status it)) by done.
    rewrite (find_first_is_Some (λ e0, within_start (moved BEFORE_START l p' it) e0.1)
               l j e Hj Hstart Hmin).
    unfold next_from. simpl. rewrite Hj. simpl. by apply Hyields. }
  unfold state_before. destruct j as [|j']; simpl.
  - apply Hrestart. intros; lia.
  - pred_lookup l j' Hj.
    destruct (within_start it e0.1) eqn:Hstart'.
    + rewrite (real_next_IN_BETWEEN _ l j' (cursor_status it)) by done.
      unfold next_from. simpl. rewrite Hj. simpl. by apply Hyields.
    + apply Hrestart. intros i e' Hi Hi'.
      destruct (within_start it e'.1) eqn:Hstart''; [|done].
      rewrite <- Hstart'. symmetry.
      eapply within_start_mono; [|exact Hstart''].
      eapply ascending_lookup_le; [exact Hasc| |exact Hi'|exact Hj0]. lia.
Qed.

(** Where C2 holds in a traversal that uses [seek] as well.  Take an
    iterator over entries in ascending order under the handle's comparator
    and any point of a traversal made of any calls, [seek(target)]
    included.  A step forward that hands back an entry is undone by the
    step back after it, which hands back the same entry.  A step back hands
    back a stored entry and leaves the cursor just before it; when the key
    of that entry is within the bounds, the step forward after it hands
    back the same entry.  Only [seek] brings the cursor to keys outside the
    bounds. *)
Theorem round_trip_within_bounds self_id key_prefix reverse start_arg stop_arg
    include_start_arg include_stop_arg prefix_arg include_key_arg
    include_value_arg verify_checksums fill_cache snapshot db it db'
    (cs : list call) :
  Iterator__init__ self_id key_prefix reverse start_arg stop_arg
    include_start_arg include_stop_arg prefix_arg include_key_arg
    include_value_arg verify_checksums fill_cache snapshot db
  = (Return it, db') →
  (∀ c, _iter it = Some c →
        strictly_ascending (comparator it) (entries c) = true) →
  ∃ l, _iter it = Some {| entries := l; pos := None; status := StatusOK |} ∧
    (∀ o it1, real_next (after_calls cs it) = (Return o, it1) →
              ∃ it2, real_prev it1 = (Return o, it2)) ∧
    (∀ o it1, real_prev (after_calls cs it) = (Return o, it1) →
       ∃ j e, l !! j = Some e ∧ current_of it e = Return o ∧
              it1 = moved (state_before it l j) l (pos_before j) it ∧
              (in_bounds it e.1 = true →
               ∃ it2, real_next it1 = (Return o, it2))).
Proof.
  intros Hinit Hasc.
  apply constructed_reached in Hinit as (l & Hlive & Hreach).
  exists l. split; [done|].
  specialize (Hasc _ Hlive). simpl in Hasc.
  apply (after_calls_reached cs) in Hreach as (st & p & Hit1 & Hpos).
  assert (cursor_status it = StatusOK) as Hcs
    by (unfold cursor_status; by rewrite Hlive).
  set (it1 := after_calls cs it) in *.
  assert (_iter it1 = Some {| entries := l; pos := p; status := StatusOK |})
    as Hlive1 by (rewrite Hit1; simpl; by rewrite Hcs).
  assert (strictly_ascending (comparator it1) l = true) as Hasc1
    by by rewrite Hit1.
  split.
  - intros o it2 Hnext.
    destruct (real_next_positioned it1 l p Hlive1 Hpos Hasc1)
      as [(j & e & Hj & Heq)|(? & ? & Heq)]; [|congruence].
    rewrite Heq in Hnext. unfold yield_or_stop in Hnext.
    rewrite (status_check_ok it1 l p Hlive1) in Hnext.
    destruct (within_stop it1 e.1); [|done].
    injection Hnext as Hcur <-.
    rewrite (real_prev_IN_BETWEEN _ l j e (cursor_status it1)) by done.
    unfold yield_and_step_back.
    change (current_of (moved IN_BETWEEN l (Some j) it1) e)
      with (current_of it1 e).
    rewrite Hcur.
    change (status_check (moved IN_BETWEEN l (Some j) it1))
      with (status_check it1).
    rewrite (status_check_ok it1 l p Hlive1). by eexists.
  - intros o it2 Hprev.
    destruct (real_prev_positioned it1 l p Hlive1 Hpos Hasc1)
      as [(j & e & Hj & Heq)|(? & ? & Heq)]; [|congruence].
    rewrite Heq in Hprev. unfold yield_and_step_back in Hprev.
    rewrite (status_check_ok it1 l p Hlive1) in Hprev.
    destruct (current_of it1 e) as [o'|] eqn:Hcur; [|done].
    injection Hprev as <- <-.
    assert (current_of it e = Return o') as Hcur0
      by (rewrite <- Hcur; by rewrite Hit1).
    exists j, e. split_and!; [done|done|by rewrite Hit1|].
    intros Hin.
    assert (in_bounds it1 e.1 = true) as Hin1 by by rewrite Hit1.
    by apply (step_back_then_next it1 l p j e o').
Qed.

(** [seek(b)] on the sample store with [start = a], inclusive: both round
    trips hold from there. *)
Lemma round_trip_after_seek_example :
  round_trip (after_calls [CallSeek key_b]
                (sample_iterator sample_entries false (Some key_a) None true
                   false)) ∧
  (Iterator__next__ (after_calls [CallSeek key_b]
     (sample_iterator sample_entries false (Some key_a) None true false))).1
  = Return (OutPair key_b val_2) ∧
  (Iterator_prev (after_calls [CallSeek key_b]
     (sample_iterator sample_entries false (Some key_a) None true false))).1
  = Return (OutPair key_a val_1).
Proof.
  split_and!; [|reflexivity..]. split; intros o it1 Hcall.
  - vm_compute in Hcall. injection Hcall as <- <-. eexists. by vm_compute.
  - vm_compute in Hcall. injection Hcall as <- <-. eexists. by vm_compute.
Qed.
(** ** Opening a database: what is accepted *)

Ltac run_open :=
  unfold parse_options, on_settings, on_resources, as_int, as_size_t, and_then,
    update, skip, finished, failed.

(** X26. [parse_options] returns exactly when every size fits its field, the
    compression argument is [None] or names snappy, and the comparator comes
    with its name and is callable.  It then leaves a block cache for a given
    [lru_cache_size], a filter policy for positive [bloom_filter_bits] and
    an adapter for a given comparator, and the other pointers as they were.
    When it raises, it has set no comparator. *)
Theorem parse_options_accepts (decode : bytes → option unicode)
    (create_if_missing error_if_exists : bool) (paranoid_checks : option bool)
    (write_buffer_size max_open_files lru_cache_size block_size
       block_restart_interval : option Z)
    (compression : py_compression) (bloom_filter_bits : Z)
    (comparator : py_comparator) (comparator_name : option bytes)
    (o : Settings.t * Options.t) :
  let r := parse_options decode create_if_missing error_if_exists
             paranoid_checks write_buffer_size max_open_files lru_cache_size
             block_size block_restart_interval compression bloom_filter_bits
             comparator comparator_name o in
  (r.1 = Done tt ↔
     from_option fits_size_t true write_buffer_size
     && from_option fits_int true max_open_files
     && from_option fits_int true lru_cache_size
     && from_option fits_size_t true block_size
     && from_option fits_int true block_restart_interval
     && names_compression decode compression
     && comparator_with_name comparator comparator_name = true) ∧
  (r.1 = Done tt →
     r.2.2 = parsed_resources lru_cache_size bloom_filter_bits comparator
               comparator_name o.2) ∧
  (∀ e, r.1 = Failed e → Options.comparator r.2.2 = Options.comparator o.2).
Proof.
  destruct o as [s [bc fp cp]]. run_open. simpl.
  unfold parsed_resources, names_compression, comparator_with_name,
    set_block_cache, set_filter_policy, set_comparator. simpl.
  destruct paranoid_checks as [pc|]; simpl.
  all: destruct write_buffer_size as [wbs|]; simpl;
    [destruct (fits_size_t wbs) eqn:?|]; simpl;
    try (split_and!; [by split|done|done]).
  all: destruct max_open_files as [mof|]; simpl;
    [destruct (fits_int mof) eqn:?|]; simpl;
    try (split_and!; [by split|done|done]).
  all: destruct lru_cache_size as [lru|]; simpl;
    [destruct (fits_int lru) eqn:?|]; simpl;
    try (split_and!; [by split|done|done]).
  all: destruct block_size as [bs|]; simpl;
    [destruct (fits_size_t bs) eqn:?|]; simpl;
    try (split_and!; [by split|done|done]).
  all: destruct block_restart_interval as [bri|]; simpl;
    [destruct (fits_int bri) eqn:?|]; simpl;
    try (split_and!; [by split|done|done]).
  all: destruct compression as [|cb|u|]; simpl;
    try destruct (decode cb) as [u|] eqn:?; simpl;
    try destruct (decide (u = snappy)); simpl;
    rewrite ?bool_decide_eq_true_2, ?bool_decide_eq_false_2 by congruence;
    simpl; try (split_and!; [by split|done|done]).
  all: destruct (0 <? bloom_filter_bits); simpl;
    destruct comparator, comparator_name; simpl;
    by (split_and!; [by split|done|done]).
Qed.

(** ** Opening a database: what a failure leaves *)


